(** * addon_common: the UI styling cascade and the dirty-flag core

    A shallow embedding of [common/ui_styling.py] (selector matching,
    shorthand expansion, the cascade) and of [common/ui_core.py] (the
    tree of [UI_Core] nodes, dirty propagation, the identity mutators and
    [layout]), with the properties of the specification checked against
    them. *)

From Stdlib Require Import Ascii String ZArith.
From stdpp Require Import gmap strings list fin_maps.

Open Scope string_scope.
Open Scope list_scope.

(** ** Part I: [ui_styling.py] *)

Module Styling.

(** *** Values of declarations

    A token value is a string, a number or a colour.  Numeric tokens are
    modelled by integers (pixel counts), colours by their four channels.
    A declaration holds either one token value or a Python tuple of them;
    [UI_Style_Declaration.__init__] builds the tuple from [l = [v]]
    extended by [append], and [_expand_declarations] only adds [(v,)] and
    [v[1:]] under [len(v) > 1], so a tuple always has a first element. *)

Inductive literal : Type :=
  | LStr (s : string)
  | LNum (n : Z)
  | LColor (r g b a : Z).

Inductive value : Type :=
  | VLit (x : literal)
  | VTuple (v0 : literal) (rest : list literal).

(** [v != 'initial'] of the filter at the end of [_expand_declarations]. *)
Definition is_initial (v : value) : bool :=
  match v with
  | VLit (LStr s) => bool_decide (s = "initial")
  | _ => false
  end.

Record UI_Style_Declaration : Type := Decl {
  property : string;
  decl_value : value
}.

Record UI_Style_RuleSet : Type := RuleSet {
  selectors : list (list string);
  decllist : list UI_Style_Declaration
}.

Record UI_Styling : Type := Sheet {
  rules : list UI_Style_RuleSet
}.

(** *** [UI_Style_RuleSet.match] *)

(** The dictionary [p] of [splitsel]. *)
Record selparts : Type := SelParts {
  sp_type : string;
  sp_class : list string;
  sp_id : string;
  sp_pseudo : list string
}.

Inductive selmode : Type := MType | MClass | MId | MPseudo.

(** [transition = {'.':'class', '#':'id', ':':'pseudo'}] *)
Definition transition (c : ascii) : option selmode :=
  if bool_decide (c = "."%char) then Some MClass
  else if bool_decide (c = ":"%char) then Some MPseudo
  else if bool_decide (c = "#"%char) then Some MId
  else None.

(** [if type(p[m]) is list: p[m].append(v) else: p[m] = v] *)
Definition sel_store (p : selparts) (m : selmode) (v : string) : selparts :=
  match m with
  | MType => SelParts v (sp_class p) (sp_id p) (sp_pseudo p)
  | MClass => SelParts (sp_type p) (sp_class p ++ [v]) (sp_id p) (sp_pseudo p)
  | MId => SelParts (sp_type p) (sp_class p) v (sp_pseudo p)
  | MPseudo => SelParts (sp_type p) (sp_class p) (sp_id p) (sp_pseudo p ++ [v])
  end.

(** The [for c in sel] loop of [splitsel], with the state [(p, v, m)]. *)
Fixpoint splitsel_loop (sel : string) (p : selparts) (v : string) (m : selmode)
  : selparts :=
  match sel with
  | EmptyString => sel_store p m v
  | String c sel' =>
      match transition c with
      | Some m' => splitsel_loop sel' (sel_store p m v) "" m'
      | None => splitsel_loop sel' p (v +:+ String c "") m
      end
  end.

Definition splitsel (sel : string) : selparts :=
  splitsel_loop sel (SelParts "" [] "" []) "" MType.

(** The four [m &= ...] lines of [msel]: [ap] is the part of the node
    chain, [bp] the part of the rule's selector. *)
Definition elem_match (a0 b0 : string) : bool :=
  let ap := splitsel a0 in
  let bp := splitsel b0 in
  (bool_decide (sp_type bp = "*") || bool_decide (sp_type ap = sp_type bp))
  && (bool_decide (sp_id bp = "") || bool_decide (sp_id ap = sp_id bp))
  && forallb (fun c => bool_decide (c ∈ sp_class ap)) (sp_class bp)
  && forallb (fun c => bool_decide (c ∈ sp_pseudo ap)) (sp_pseudo bp).

(** [msel(sa, sb, cont)]: every recursive call is on [sb[1:]]. *)
Fixpoint msel (sa sb : list string) (cont : bool) {struct sb} : bool :=
  match sa with
  | [] => true
  | a0 :: sa' =>
      match sb with
      | [] => false
      | b0 :: sb' =>
          if bool_decide (b0 = ">") then msel sa sb' false
          else if elem_match a0 b0 && msel sa' sb' true then true
          else if cont then msel sa sb' true
          else false
      end
  end.

(** [rule.match(selector)]: [selector] is the node's chain, root first. *)
Definition rule_match (rule : UI_Style_RuleSet) (selector : list string) : bool :=
  existsb (fun sel => msel selector sel true) (selectors rule).

(** *** The cascade *)

(** [get_decllist]: the declarations of the matching rules, in rule order. *)
Definition get_decllist (self : UI_Styling) (selector : list string)
  : list UI_Style_Declaration :=
  flat_map (fun rule => if rule_match rule selector then decllist rule else [])
           (rules self).

Definition _trbl_split (v : value) : value * value * value * value :=
  match v with
  | VLit _ => (v, v, v, v)
  | VTuple v0 [] => (VLit v0, VLit v0, VLit v0, VLit v0)
  | VTuple v0 [v1] => (VLit v0, VLit v1, VLit v0, VLit v1)
  | VTuple v0 [v1; v2] => (VLit v0, VLit v1, VLit v2, VLit v1)
  | VTuple v0 (v1 :: v2 :: v3 :: _) => (VLit v0, VLit v1, VLit v2, VLit v3)
  end.

(** The four stores [decllist[k0] = vals[0]] ... [decllist[k3] = vals[3]]. *)
Definition trbl_stores (k0 k1 k2 k3 : string) (vals : value * value * value * value)
  : list (string * value) :=
  let '(t, r, b, l) := vals in [(k0, t); (k1, r); (k2, b); (k3, l)].

(** The item assignments one pass of the loop of [_expand_declarations]
    executes for a declaration, in program order. *)
Definition assignments (decl : UI_Style_Declaration) : list (string * value) :=
  let p := property decl in
  let v := decl_value decl in
  if bool_decide (p = "margin") || bool_decide (p = "padding") then
    trbl_stores (p +:+ "-top") (p +:+ "-right") (p +:+ "-bottom") (p +:+ "-left")
                (_trbl_split v)
  else if bool_decide (p = "border") then
    match v with
    | VLit x => [("border-width", VLit x)]
    | VTuple v0 [] => [("border-width", VLit v0)]
    | VTuple v0 (v1 :: rest) =>
        ("border-width", VLit v0)
        :: trbl_stores "border-top-color" "border-right-color"
                       "border-bottom-color" "border-left-color"
                       (_trbl_split (VTuple v1 rest))
    end
  else if bool_decide (p = "border-color") then
    trbl_stores "border-top-color" "border-right-color"
                "border-bottom-color" "border-left-color" (_trbl_split v)
  else if bool_decide (p = "background") then [("background-color", v)]
  else if bool_decide (p = "width") then [("min-width", v); ("max-width", v)]
  else if bool_decide (p = "height") then [("min-height", v); ("max-height", v)]
  else [(p, v)].

Definition store (d : gmap string value) (kv : string * value) : gmap string value :=
  <[kv.1 := kv.2]> d.

(** The dictionary at the end of the [for decl in decls] loop. *)
Definition expand_loop (decls : list UI_Style_Declaration) : gmap string value :=
  foldl (fun d decl => foldl store d (assignments decl)) ∅ decls.

(** [{ k:v for (k,v) in decllist.items() if v != 'initial' }] *)
Definition filter_initial (d : gmap string value) : gmap string value :=
  filter (fun kv => is_initial kv.2 = false) d.

Definition _expand_declarations (decls : list UI_Style_Declaration)
  : gmap string value :=
  filter_initial (expand_loop decls).

(** [compute_style(self, selector, initial_styling, override_styling)]:
    [None] stands for a falsy stylesheet argument.  [dict.update] keeps the
    entries of [full_decllist] where both dictionaries have the key. *)
Definition compute_style (self : UI_Styling) (selector : list string)
    (initial_styling override_styling : option UI_Styling) : gmap string value :=
  let full :=
    (get_decllist self selector
     ++ match override_styling with
        | Some o => get_decllist o selector
        | None => []
        end)%list in
  let init_decllist :=
    match initial_styling with
    | Some i => _expand_declarations (get_decllist i selector)
    | None => ∅
    end in
  let full_decllist := _expand_declarations full in
  full_decllist ∪ init_decllist.

(** *** The last assignment to a key *)

(** The value of the last item assignment to [k] that the loop of
    [_expand_declarations] executes over [decls], if there is one. *)
Definition last_assignment (k : string) (decls : list UI_Style_Declaration)
  : option value :=
  snd <$> last (filter (fun kv : string * value => kv.1 = k)
                       (flat_map assignments decls)).

(** What the closing filter of [_expand_declarations] leaves of an entry. *)
Definition keep (o : option value) : option value :=
  match o with
  | Some v => if is_initial v then None else Some v
  | None => None
  end.

(** The declarations [compute_style] gathers in [full]. *)
Definition full_decls (self : UI_Styling) (selector : list string)
    (override_styling : option UI_Styling) : list UI_Style_Declaration :=
  (get_decllist self selector
   ++ match override_styling with
      | Some o => get_decllist o selector
      | None => []
      end)%list.

(** The declarations [compute_style] expands into [init_decllist]. *)
Definition init_decls (initial_styling : option UI_Styling)
    (selector : list string) : list UI_Style_Declaration :=
  match initial_styling with
  | Some i => get_decllist i selector
  | None => []
  end.

(** The four longhand entries of the shorthand [p] in a resolved mapping,
    in the order top, right, bottom, left. *)
Definition trbl_sides (p : string) (d : gmap string value)
  : option value * option value * option value * option value :=
  (d !! (p +:+ "-top"), d !! (p +:+ "-right"),
   d !! (p +:+ "-bottom"), d !! (p +:+ "-left")).

(** *** Notions used to state further properties *)

(** A name without the three characters [.], [:] and [#], which [splitsel]
    takes for separators. *)
Fixpoint plain (s : string) : bool :=
  match s with
  | EmptyString => true
  | String c s' =>
      match transition c with
      | Some _ => false
      | None => plain s'
      end
  end.

(** The properties [_expand_declarations] rewrites into other keys. *)
Definition shorthand (k : string) : bool :=
  bool_decide (k ∈ ["margin"; "padding"; "border"; "border-color";
                    "background"; "width"; "height"]).

(** The four colour entries of the border in a resolved mapping, in the
    order top, right, bottom, left. *)
Definition border_colors (d : gmap string value)
  : option value * option value * option value * option value :=
  (d !! "border-top-color", d !! "border-right-color",
   d !! "border-bottom-color", d !! "border-left-color").

(** [keep] on the four values of [_trbl_split]. *)
Definition keep_sides (vals : value * value * value * value)
  : option value * option value * option value * option value :=
  let '(t, r, b, l) := vals in
  (keep (Some t), keep (Some r), keep (Some b), keep (Some l)).

End Styling.

(** ** Part II: [ui_core.py] *)

Module Core.
Import Styling.

(** *** Objects and the store *)

(** A [UI_Core] object is known by its address in the store. *)
Definition addr := nat.

(** Sizes and positions: integers, or [float('inf')]. *)
Inductive number : Type :=
  | Fin (z : Z)
  | Inf.

(** What [self._id] can hold: [None], a string, or the builtin function
    [id]. *)
Inductive idval : Type :=
  | IdNone
  | IdStr (s : string)
  | IdBuiltin.

#[global] Instance idval_eq_dec : EqDecision idval.
Proof. solve_decision. Defined.

(** The dictionary [self._dirty_propagation]. *)
Record propagation : Type := Propagation {
  defer : bool;
  parent : gset string;
  children : gset string
}.

(** The attributes of a [UI_Core] object.  [selector_type] and
    [default_style] are the class attributes as [__init__] leaves them.
    The [Size2D] and [Box2D] attributes, which no method reads, are left
    out.  The last three attributes are [None] as long as the object has no
    attribute of that name: [__init__] assigns [_defer_recalc] in its last
    lines, only the [defer_dirty] wrapper assigns [_defer_dirty], and
    nothing assigns [_is_dirty]. *)
Record UI_Core : Type := Node {
  selector_type : string;
  default_style : UI_Styling;
  _parent : option addr;
  _children : list addr;
  _selector : option (list string);
  _id : idval;
  _classes : gset string;
  _pseudoclasses : gset string;
  _custom_style : option UI_Styling;
  _style_str : string;
  _is_visible : bool;
  _computed_styles : option (gmap string value);
  _preferred_width : number;
  _preferred_height : number;
  _content_width : number;
  _content_height : number;
  _l : number;
  _t : number;
  _w : number;
  _h : number;
  _dirty_properties : gset string;
  _dirty_propagation : propagation;
  _defer_clean : bool;
  _defer_recalc : option bool;
  _defer_dirty : option bool;
  _is_dirty : option bool
}.

(** One function per attribute that a method assigns after the object is
    set up: [put_x v n] is [n] after [self._x = v].  No method assigns
    [selector_type], [default_style], [_defer_clean] or [_is_dirty]. *)
Definition put_parent (x : option addr) (n : UI_Core) : UI_Core :=
  Node (selector_type n) (default_style n) x (_children n) (_selector n)
    (_id n) (_classes n) (_pseudoclasses n) (_custom_style n) 
    (_style_str n) (_is_visible n) (_computed_styles n) (_preferred_width n)
    (_preferred_height n) (_content_width n) (_content_height n) (_l n)
    (_t n) (_w n) (_h n) (_dirty_properties n) (_dirty_propagation n)
    (_defer_clean n) (_defer_recalc n) (_defer_dirty n) (_is_dirty n).
Definition put_children (x : list addr) (n : UI_Core) : UI_Core :=
  Node (selector_type n) (default_style n) (_parent n) x (_selector n)
    (_id n) (_classes n) (_pseudoclasses n) (_custom_style n) 
    (_style_str n) (_is_visible n) (_computed_styles n) (_preferred_width n)
    (_preferred_height n) (_content_width n) (_content_height n) (_l n)
    (_t n) (_w n) (_h n) (_dirty_properties n) (_dirty_propagation n)
    (_defer_clean n) (_defer_recalc n) (_defer_dirty n) (_is_dirty n).
Definition put_selector (x : option (list string)) (n : UI_Core) : UI_Core :=
  Node (selector_type n) (default_style n) (_parent n) (_children n) x
    (_id n) (_classes n) (_pseudoclasses n) (_custom_style n) 
    (_style_str n) (_is_visible n) (_computed_styles n) (_preferred_width n)
    (_preferred_height n) (_content_width n) (_content_height n) (_l n)
    (_t n) (_w n) (_h n) (_dirty_properties n) (_dirty_propagation n)
    (_defer_clean n) (_defer_recalc n) (_defer_dirty n) (_is_dirty n).
Definition put_id (x : idval) (n : UI_Core) : UI_Core :=
  Node (selector_type n) (default_style n) (_parent n) (_children n)
    (_selector n) x (_classes n) (_pseudoclasses n) (_custom_style n)
    (_style_str n) (_is_visible n) (_computed_styles n) 
    (_preferred_width n) (_preferred_height n) (_content_width n) (_content_height n) (_l n)
    (_t n) (_w n) (_h n) (_dirty_properties n) (_dirty_propagation n)
    (_defer_clean n) (_defer_recalc n) (_defer_dirty n) (_is_dirty n).
Definition put_classes (x : gset string) (n : UI_Core) : UI_Core :=
  Node (selector_type n) (default_style n) (_parent n) (_children n)
    (_selector n) (_id n) x (_pseudoclasses n) (_custom_style n)
    (_style_str n) (_is_visible n) (_computed_styles n) 
    (_preferred_width n) (_preferred_height n) (_content_width n) (_content_height n) (_l n)
    (_t n) (_w n) (_h n) (_dirty_properties n) (_dirty_propagation n)
    (_defer_clean n) (_defer_recalc n) (_defer_dirty n) (_is_dirty n).
Definition put_pseudoclasses (x : gset string) (n : UI_Core) : UI_Core :=
  Node (selector_type n) (default_style n) (_parent n) (_children n)
    (_selector n) (_id n) (_classes n) x (_custom_style n) (_style_str n)
    (_is_visible n) (_computed_styles n) (_preferred_width n)
    (_preferred_height n) (_content_width n) (_content_height n) (_l n)
    (_t n) (_w n) (_h n) (_dirty_properties n) (_dirty_propagation n)
    (_defer_clean n) (_defer_recalc n) (_defer_dirty n) (_is_dirty n).
Definition put_custom_style (x : option UI_Styling) (n : UI_Core) : UI_Core :=
  Node (selector_type n) (default_style n) (_parent n) (_children n)
    (_selector n) (_id n) (_classes n) (_pseudoclasses n) x (_style_str n)
    (_is_visible n) (_computed_styles n) (_preferred_width n)
    (_preferred_height n) (_content_width n) (_content_height n) (_l n)
    (_t n) (_w n) (_h n) (_dirty_properties n) (_dirty_propagation n)
    (_defer_clean n) (_defer_recalc n) (_defer_dirty n) (_is_dirty n).
Definition put_style_str (x : string) (n : UI_Core) : UI_Core :=
  Node (selector_type n) (default_style n) (_parent n) (_children n)
    (_selector n) (_id n) (_classes n) (_pseudoclasses n) 
    (_custom_style n) x (_is_visible n) (_computed_styles n) (_preferred_width n)
    (_preferred_height n) (_content_width n) (_content_height n) (_l n)
    (_t n) (_w n) (_h n) (_dirty_properties n) (_dirty_propagation n)
    (_defer_clean n) (_defer_recalc n) (_defer_dirty n) (_is_dirty n).
Definition put_is_visible (x : bool) (n : UI_Core) : UI_Core :=
  Node (selector_type n) (default_style n) (_parent n) (_children n)
    (_selector n) (_id n) (_classes n) (_pseudoclasses n) 
    (_custom_style n) (_style_str n) x (_computed_styles n) (_preferred_width n)
    (_preferred_height n) (_content_width n) (_content_height n) (_l n)
    (_t n) (_w n) (_h n) (_dirty_properties n) (_dirty_propagation n)
    (_defer_clean n) (_defer_recalc n) (_defer_dirty n) (_is_dirty n).
Definition put_computed_styles (x : option (gmap string value)) (n : UI_Core) : UI_Core :=
  Node (selector_type n) (default_style n) (_parent n) (_children n)
    (_selector n) (_id n) (_classes n) (_pseudoclasses n) 
    (_custom_style n) (_style_str n) (_is_visible n) x (_preferred_width n)
    (_preferred_height n) (_content_width n) (_content_height n) (_l n)
    (_t n) (_w n) (_h n) (_dirty_properties n) (_dirty_propagation n)
    (_defer_clean n) (_defer_recalc n) (_defer_dirty n) (_is_dirty n).
Definition put_preferred_width (x : number) (n : UI_Core) : UI_Core :=
  Node (selector_type n) (default_style n) (_parent n) (_children n)
    (_selector n) (_id n) (_classes n) (_pseudoclasses n) 
    (_custom_style n) (_style_str n) (_is_visible n) (_computed_styles n) x
    (_preferred_height n) (_content_width n) (_content_height n) (_l n)
    (_t n) (_w n) (_h n) (_dirty_properties n) (_dirty_propagation n)
    (_defer_clean n) (_defer_recalc n) (_defer_dirty n) (_is_dirty n).
Definition put_preferred_height (x : number) (n : UI_Core) : UI_Core :=
  Node (selector_type n) (default_style n) (_parent n) (_children n)
    (_selector n) (_id n) (_classes n) (_pseudoclasses n) 
    (_custom_style n) (_style_str n) (_is_visible n) (_computed_styles n)
    (_preferred_width n) x (_content_width n) (_content_height n) (_l n)
    (_t n) (_w n) (_h n) (_dirty_properties n) (_dirty_propagation n)
    (_defer_clean n) (_defer_recalc n) (_defer_dirty n) (_is_dirty n).
Definition put_content_width (x : number) (n : UI_Core) : UI_Core :=
  Node (selector_type n) (default_style n) (_parent n) (_children n)
    (_selector n) (_id n) (_classes n) (_pseudoclasses n) 
    (_custom_style n) (_style_str n) (_is_visible n) (_computed_styles n)
    (_preferred_width n) (_preferred_height n) x (_content_height n) 
    (_l n) (_t n) (_w n) (_h n) (_dirty_properties n) (_dirty_propagation n)
    (_defer_clean n) (_defer_recalc n) (_defer_dirty n) (_is_dirty n).
Definition put_content_height (x : number) (n : UI_Core) : UI_Core :=
  Node (selector_type n) (default_style n) (_parent n) (_children n)
    (_selector n) (_id n) (_classes n) (_pseudoclasses n) 
    (_custom_style n) (_style_str n) (_is_visible n) (_computed_styles n)
    (_preferred_width n) (_preferred_height n) (_content_width n) x (_l n)
    (_t n) (_w n) (_h n) (_dirty_properties n) (_dirty_propagation n)
    (_defer_clean n) (_defer_recalc n) (_defer_dirty n) (_is_dirty n).
Definition put_l (x : number) (n : UI_Core) : UI_Core :=
  Node (selector_type n) (default_style n) (_parent n) (_children n)
    (_selector n) (_id n) (_classes n) (_pseudoclasses n) 
    (_custom_style n) (_style_str n) (_is_visible n) (_computed_styles n)
    (_preferred_width n) (_preferred_height n) (_content_width n)
    (_content_height n) x (_t n) (_w n) (_h n) (_dirty_properties n)
    (_dirty_propagation n) (_defer_clean n) (_defer_recalc n)
    (_defer_dirty n) (_is_dirty n).
Definition put_t (x : number) (n : UI_Core) : UI_Core :=
  Node (selector_type n) (default_style n) (_parent n) (_children n)
    (_selector n) (_id n) (_classes n) (_pseudoclasses n) 
    (_custom_style n) (_style_str n) (_is_visible n) (_computed_styles n)
    (_preferred_width n) (_preferred_height n) (_content_width n)
    (_content_height n) (_l n) x (_w n) (_h n) (_dirty_properties n)
    (_dirty_propagation n) (_defer_clean n) (_defer_recalc n)
    (_defer_dirty n) (_is_dirty n).
Definition put_w (x : number) (n : UI_Core) : UI_Core :=
  Node (selector_type n) (default_style n) (_parent n) (_children n)
    (_selector n) (_id n) (_classes n) (_pseudoclasses n) 
    (_custom_style n) (_style_str n) (_is_visible n) (_computed_styles n)
    (_preferred_width n) (_preferred_height n) (_content_width n)
    (_content_height n) (_l n) (_t n) x (_h n) (_dirty_properties n)
    (_dirty_propagation n) (_defer_clean n) (_defer_recalc n)
    (_defer_dirty n) (_is_dirty n).
Definition put_h (x : number) (n : UI_Core) : UI_Core :=
  Node (selector_type n) (default_style n) (_parent n) (_children n)
    (_selector n) (_id n) (_classes n) (_pseudoclasses n) 
    (_custom_style n) (_style_str n) (_is_visible n) (_computed_styles n)
    (_preferred_width n) (_preferred_height n) (_content_width n)
    (_content_height n) (_l n) (_t n) (_w n) x (_dirty_properties n)
    (_dirty_propagation n) (_defer_clean n) (_defer_recalc n)
    (_defer_dirty n) (_is_dirty n).
Definition put_dirty_properties (x : gset string) (n : UI_Core) : UI_Core :=
  Node (selector_type n) (default_style n) (_parent n) (_children n)
    (_selector n) (_id n) (_classes n) (_pseudoclasses n) 
    (_custom_style n) (_style_str n) (_is_visible n) (_computed_styles n)
    (_preferred_width n) (_preferred_height n) (_content_width n)
    (_content_height n) (_l n) (_t n) (_w n) (_h n) x 
    (_dirty_propagation n) (_defer_clean n) (_defer_recalc n) (_defer_dirty n) (_is_dirty n).
Definition put_dirty_propagation (x : propagation) (n : UI_Core) : UI_Core :=
  Node (selector_type n) (default_style n) (_parent n) (_children n)
    (_selector n) (_id n) (_classes n) (_pseudoclasses n) 
    (_custom_style n) (_style_str n) (_is_visible n) (_computed_styles n)
    (_preferred_width n) (_preferred_height n) (_content_width n)
    (_content_height n) (_l n) (_t n) (_w n) (_h n) (_dirty_properties n)
    x (_defer_clean n) (_defer_recalc n) (_defer_dirty n) (_is_dirty n).
Definition put_defer_recalc (x : option bool) (n : UI_Core) : UI_Core :=
  Node (selector_type n) (default_style n) (_parent n) (_children n)
    (_selector n) (_id n) (_classes n) (_pseudoclasses n) 
    (_custom_style n) (_style_str n) (_is_visible n) (_computed_styles n)
    (_preferred_width n) (_preferred_height n) (_content_width n)
    (_content_height n) (_l n) (_t n) (_w n) (_h n) (_dirty_properties n)
    (_dirty_propagation n) (_defer_clean n) x (_defer_dirty n) 
    (_is_dirty n).
Definition put_defer_dirty (x : option bool) (n : UI_Core) : UI_Core :=
  Node (selector_type n) (default_style n) (_parent n) (_children n)
    (_selector n) (_id n) (_classes n) (_pseudoclasses n) 
    (_custom_style n) (_style_str n) (_is_visible n) (_computed_styles n)
    (_preferred_width n) (_preferred_height n) (_content_width n)
    (_content_height n) (_l n) (_t n) (_w n) (_h n) (_dirty_properties n)
    (_dirty_propagation n) (_defer_clean n) (_defer_recalc n) x 
    (_is_dirty n).

Inductive exn : Type :=
  | AttributeError (name : string)
  | AssertionError (msg : string)
  | TypeError
  | RecursionError
  | ParseError.

(** A propagation step: [propagate_dirtiness] of [src] called [dirty] of
    [dst], its parent ([to_parent = true]) or one of its children. *)
Record event : Type := Propagated {
  src : addr;
  dst : addr;
  flags : gset string;
  to_parent : bool
}.

(** The store of objects, the class attribute [UI_Draw._stylesheet], and a
    log of the propagation steps taken so far (for the proofs only; nothing
    reads it). *)
Record state : Type := State {
  heap : gmap addr UI_Core;
  stylesheet : option UI_Styling;
  trace : list event
}.

(** *** Methods as state transformers that may raise *)

Inductive outcome (A : Type) : Type :=
  | Ok (x : A) (st : state)
  | Raise (e : exn) (st : state).
Arguments Ok {A} x st.
Arguments Raise {A} e st.

Definition M (A : Type) : Type := state → outcome A.

Definition ret {A} (x : A) : M A := fun st => Ok x st.

Definition bind {A B} (m : M A) (k : A → M B) : M B :=
  fun st =>
    match m st with
    | Ok x st' => k x st'
    | Raise e st' => Raise e st'
    end.

Definition raise {A} (e : exn) : M A := fun st => Raise e st.

Notation "'let*' x ':=' m 'in' k" := (bind m (fun x => k))
  (at level 10, x name, m at level 100, k at level 200).
Notation "m1 '>>' m2" := (bind m1 (fun _ => m2))
  (at level 100, m2 at level 200, right associativity).

Definition final_state {A} (o : outcome A) : state :=
  match o with
  | Ok _ st => st
  | Raise _ st => st
  end.

(** Reading an object.  Every address a method holds is in the store; the
    error case stands for a dangling reference, which Python does not have. *)
Definition get_node (a : addr) : M UI_Core :=
  fun st =>
    match heap st !! a with
    | Some n => Ok n st
    | None => Raise (AttributeError "dangling reference") st
    end.

(** An assignment to attributes of the object at [a]. *)
Definition modify (a : addr) (f : UI_Core → UI_Core) : M unit :=
  fun st => Ok tt (State (alter f a (heap st)) (stylesheet st) (trace st)).

Definition log (e : event) : M unit :=
  fun st => Ok tt (State (heap st) (stylesheet st) (trace st ++ [e])).

Definition get_stylesheet : M (option UI_Styling) :=
  fun st => Ok (stylesheet st) st.

(** [for x in l: body(x)] *)
Fixpoint for_each {B} (l : list B) (body : B → M unit) : M unit :=
  match l with
  | [] => ret tt
  | x :: l' => body x >> for_each l' body
  end.

Definition when (b : bool) (m : M unit) : M unit := if b then m else ret tt.

(** Reading an attribute that may be missing. *)
Definition getattr {A} (name : string) (o : option A) : M A :=
  match o with
  | Some x => ret x
  | None => raise (AttributeError name)
  end.

(** *** [dirty] and [propagate_dirtiness] *)

(** The argument [properties] of [dirty]. *)
Inductive properties_arg : Type :=
  | PNone
  | PStr (s : string)
  | PList (l : list string)
  | PSet (s : gset string).

Definition all_properties : gset string := {["style"; "size"; "content"]}.

(** The first four lines of [dirty]. *)
Definition properties_set (properties : properties_arg) : gset string :=
  match properties with
  | PNone => all_properties
  | PStr s => {[s]}
  | PList l => list_to_set l
  | PSet s => s
  end.

Definition is_empty (s : gset string) : bool := bool_decide (s = ∅).

Definition put_defer (b : bool) (n : UI_Core) : UI_Core :=
  put_dirty_propagation
    (Propagation b (parent (_dirty_propagation n)) (children (_dirty_propagation n))) n.
Definition put_propagation_parent (s : gset string) (n : UI_Core) : UI_Core :=
  put_dirty_propagation
    (Propagation (defer (_dirty_propagation n)) s (children (_dirty_propagation n))) n.
Definition put_propagation_children (s : gset string) (n : UI_Core) : UI_Core :=
  put_dirty_propagation
    (Propagation (defer (_dirty_propagation n)) (parent (_dirty_propagation n)) s) n.

(** The body of [propagate_dirtiness], over the [dirty] it calls, in its
    two blocks.  The set passed to [dirty] is read when the call is made,
    and [clear] empties the set the object holds when the call is back. *)
Definition propagate_to_parent
    (dirty_rec : addr → properties_arg → bool → bool → M unit) (self : addr)
  : M unit :=
  let* n := get_node self in
  when (negb (is_empty (parent (_dirty_propagation n))))
    (match _parent n with
     | Some p =>
         log (Propagated self p (parent (_dirty_propagation n)) true) >>
         dirty_rec p (PSet (parent (_dirty_propagation n))) true false
     | None => ret tt
     end >>
     modify self (put_propagation_parent ∅)).

Definition propagate_to_children
    (dirty_rec : addr → properties_arg → bool → bool → M unit) (self : addr)
  : M unit :=
  let* n := get_node self in
  when (negb (is_empty (children (_dirty_propagation n))))
    (for_each (_children n) (fun child =>
       let* n := get_node self in
       log (Propagated self child (children (_dirty_propagation n)) false) >>
       dirty_rec child (PSet (children (_dirty_propagation n))) false true) >>
     modify self (put_propagation_children ∅)).

Definition propagate_with
    (dirty_rec : addr → properties_arg → bool → bool → M unit) (self : addr)
  : M unit :=
  let* n := get_node self in
  if defer (_dirty_propagation n) then ret tt else
  propagate_to_parent dirty_rec self >>
  propagate_to_children dirty_rec self.

(** [dirty(self, properties, parent, children)].  The call depth is bounded
    by [fuel]; running out of it is Python's [RecursionError]. *)
Fixpoint dirty (fuel : nat) (self : addr) (properties : properties_arg)
    (to_parent to_children : bool) : M unit :=
  match fuel with
  | O => raise RecursionError
  | S fuel' =>
      let properties := properties_set properties in
      modify self (fun n => put_dirty_properties (_dirty_properties n ∪ properties) n) >>
      when to_parent
        (modify self (fun n =>
           put_propagation_parent (parent (_dirty_propagation n) ∪ properties) n)) >>
      when to_children
        (modify self (fun n =>
           put_propagation_children (children (_dirty_propagation n) ∪ properties) n)) >>
      propagate_with (dirty fuel') self
  end.

Definition propagate_dirtiness (fuel : nat) (self : addr) : M unit :=
  propagate_with (dirty fuel) self.

(** The property [is_dirty]. *)
Definition is_dirty (n : UI_Core) : bool :=
  negb (is_empty (_dirty_properties n))
  || negb (is_empty (parent (_dirty_propagation n)))
  || negb (is_empty (children (_dirty_propagation n))).

(** The setter of the property [defer_dirty_propagation]. *)
Definition defer_dirty_propagation_setter (fuel : nat) (self : addr) (v : bool)
  : M unit :=
  modify self (put_defer v) >> propagate_dirtiness fuel self.

(** The decorator [UI_Core_Utils.defer_dirty(properties, parent, children)]
    applied to the method [fn]. *)
Definition defer_dirty {A} (fuel : nat) (properties : properties_arg)
    (to_parent to_children : bool) (fn : addr → M A) (self : addr) : M A :=
  modify self (put_defer_dirty (Some true)) >>
  let* r := fn self in
  modify self (put_defer_dirty (Some false)) >>
  dirty fuel self properties to_parent to_children >>
  ret r.


(** *** Strings *)

(** The ASCII characters [str.strip] removes. *)
Definition is_space (c : ascii) : bool :=
  let n := nat_of_ascii c in
  ((9 <=? n)%nat && (n <=? 13)%nat) || ((28 <=? n)%nat && (n <=? 32)%nat).

Fixpoint lstrip (s : string) : string :=
  match s with
  | String c s' => if is_space c then lstrip s' else s
  | EmptyString => s
  end.

Definition strip (s : string) : string :=
  String.rev (lstrip (String.rev (lstrip s))).

(** [s.split(' ')] *)
Fixpoint split_go (cur s : string) : list string :=
  match s with
  | EmptyString => [cur]
  | String c s' =>
      if bool_decide (c = " "%char) then cur :: split_go "" s'
      else split_go (cur +:+ String c "") s'
  end.

Definition split_space (s : string) : list string := split_go "" s.

(** [''.join(prefix + x for x in l)] *)
Definition join_prefixed (prefix : string) (l : list string) : string :=
  foldr (fun x acc => prefix +:+ x +:+ acc) "" l.

(** *** The clean pipeline *)

Definition sel_id (i : idval) : string :=
  match i with
  | IdNone => ""
  | IdStr s => if bool_decide (s = "") then "" else "#" +:+ s
  | IdBuiltin => "#<built-in function id>"
  end.

(** The last entry of [self._selector]; the sets are walked in the order of
    [elements]. *)
Definition own_selector (n : UI_Core) : string :=
  selector_type n +:+ sel_id (_id n)
  +:+ join_prefixed "." (elements (_classes n))
  +:+ join_prefixed ":" (elements (_pseudoclasses n)).

(** [self._computed_styles.get('display', 'auto') != 'none'] *)
Definition display_visible (styles : gmap string value) : bool :=
  match styles !! "display" with
  | Some (VLit (LStr s)) => negb (bool_decide (s = "none"))
  | _ => true
  end.

Fixpoint _compute_style (fuel : nat) (self : addr) : M unit :=
  match fuel with
  | O => raise RecursionError
  | S fuel' =>
      let* n := get_node self in
      if _defer_clean n then ret tt else
      if negb (bool_decide ("style" ∈ _dirty_properties n)) then ret tt else
      defer_dirty_propagation_setter fuel' self true >>
      let* n := get_node self in
      let* sel_parent :=
        match _parent n with
        | None => ret []
        | Some p =>
            let* pn := get_node p in
            match _selector pn with
            | Some l => ret l
            | None => raise TypeError
            end
        end in
      let selector := (sel_parent ++ [own_selector n])%list in
      modify self (put_selector (Some selector)) >>
      let* sheet := get_stylesheet in
      let styles := compute_style (default_style n) selector sheet (_custom_style n) in
      modify self (put_computed_styles (Some styles)) >>
      modify self (put_is_visible (display_visible styles)) >>
      for_each (_children n) (_compute_style fuel') >>
      dirty fuel' self (PStr "size") true false >>
      modify self (fun n => put_dirty_properties (_dirty_properties n ∖ {["style"]}) n) >>
      defer_dirty_propagation_setter fuel' self false
  end.

(** The hooks [compute_content], [compute_children_content_size] and
    [position_children] of the class do nothing. *)
Fixpoint _compute_content (fuel : nat) (self : addr) : M unit :=
  match fuel with
  | O => raise RecursionError
  | S fuel' =>
      let* n := get_node self in
      if _defer_clean n then ret tt else
      if negb (bool_decide ("content" ∈ _dirty_properties n)) then ret tt else
      if negb (_is_visible n) then ret tt else
      defer_dirty_propagation_setter fuel' self true >>
      for_each (_children n) (_compute_content fuel') >>
      dirty fuel' self (PStr "size") true false >>
      modify self (fun n => put_dirty_properties (_dirty_properties n ∖ {["content"]}) n) >>
      defer_dirty_propagation_setter fuel' self false
  end.

Fixpoint _compute_preferred_size (fuel : nat) (self : addr) : M unit :=
  match fuel with
  | O => raise RecursionError
  | S fuel' =>
      let* n := get_node self in
      if _defer_clean n then ret tt else
      if negb (bool_decide ("size" ∈ _dirty_properties n)) then ret tt else
      if negb (_is_visible n) then ret tt else
      defer_dirty_propagation_setter fuel' self true >>
      modify self (put_content_width (Fin 0)) >>
      modify self (put_content_height (Fin 0)) >>
      for_each (_children n) (_compute_preferred_size fuel') >>
      defer_dirty_propagation_setter fuel' self false
  end.

Definition clean (fuel : nat) (self : addr) : M unit :=
  let* n := get_node self in
  if negb (is_dirty n) || _defer_clean n then ret tt else
  _compute_style fuel self >>
  _compute_content fuel self >>
  _compute_preferred_size fuel self.

(** *** Layout *)

(** What [_get_style_num] returns: a number, or a style value that is not
    one. *)
Inductive styleval : Type :=
  | SNum (x : number)
  | SOther (v : value).

(** [_get_style_num(k, def_v)]; no call passes [min_v] or [max_v]. *)
Definition style_num (styles : gmap string value) (k : string) (def_v : number)
  : styleval :=
  match styles !! k with
  | None => SNum def_v
  | Some (VLit (LStr s)) => if bool_decide (s = "auto") then SNum def_v
                            else SOther (VLit (LStr s))
  | Some (VLit (LNum z)) => SNum (Fin z)
  | Some v => SOther v
  end.

Definition _get_style_num (self : addr) (k : string) (def_v : number) : M styleval :=
  let* n := get_node self in
  let* styles := getattr "get" (_computed_styles n) in
  ret (style_num styles k def_v).

Definition _get_style_trbl (self : addr) (kb : string)
  : M (styleval * styleval * styleval * styleval) :=
  let* t := _get_style_num self (kb +:+ "-top") (Fin 0) in
  let* r := _get_style_num self (kb +:+ "-right") (Fin 0) in
  let* b := _get_style_num self (kb +:+ "-bottom") (Fin 0) in
  let* l := _get_style_num self (kb +:+ "-left") (Fin 0) in
  ret (t, r, b, l).

(** Arithmetic on what the style holds raises [TypeError] unless it is a
    number. *)
Definition as_number (v : styleval) : M number :=
  match v with
  | SNum x => ret x
  | SOther _ => raise TypeError
  end.

Definition nadd (x y : number) : number :=
  match x, y with
  | Fin a, Fin b => Fin (a + b)
  | _, _ => Inf
  end.

Definition nle (x y : number) : bool :=
  match x, y with
  | Fin a, Fin b => (a <=? b)%Z
  | _, Inf => true
  | Inf, Fin _ => false
  end.

Definition nmin (x y : number) : number := if nle x y then x else y.
Definition nmax (x y : number) : number := if nle x y then y else x.

(** Modelled from the spec: [mid] of [maths.py] is not part of the sources
    at hand; the specification has it as [clamp(value, min, max)]. *)
Definition mid (v lo hi : number) : number := nmax lo (nmin v hi).

Definition nsum (l : list number) : number := foldl nadd (Fin 0) l.

(** The part of [layout] after the [display] dispatch ([layout_flexbox]
    only reads the style, [layout_block] and [layout_inline] do nothing). *)
Definition layout_sizes (self : addr) : M unit :=
  let* n := get_node self in
  let* _styles := getattr "get" (_computed_styles n) in
  let* min_width := _get_style_num self "min-width" (Fin 0) in
  let* max_width := _get_style_num self "max-width" Inf in
  let* min_height := _get_style_num self "min-height" (Fin 0) in
  let* max_height := _get_style_num self "max-height" Inf in
  let* margin := _get_style_trbl self "margin" in
  let* padding := _get_style_trbl self "padding" in
  let* border_width := _get_style_num self "border-width" (Fin 0) in
  let '(margin_top, margin_right, margin_bottom, margin_left) := margin in
  let '(padding_top, padding_right, padding_bottom, padding_left) := padding in
  let* width := _get_style_num self "width" (_content_width n) in
  let* ml := as_number margin_left in
  let* bw := as_number border_width in
  let* pl := as_number padding_left in
  let* w := as_number width in
  let* lo := as_number min_width in
  let* hi := as_number max_width in
  let* pr := as_number padding_right in
  let* mr := as_number margin_right in
  modify self (put_preferred_width (nsum [ml; bw; pl; mid w lo hi; pr; bw; mr])) >>
  let* height := _get_style_num self "height" (_content_height n) in
  let* mt := as_number margin_top in
  let* pt := as_number padding_top in
  let* h := as_number height in
  let* lo := as_number min_height in
  let* hi := as_number max_height in
  let* pb := as_number padding_bottom in
  let* mb := as_number margin_bottom in
  modify self (put_preferred_height (nsum [mt; bw; pt; mid h lo hi; pb; bw; mb])).

Fixpoint layout (fuel : nat) (self : addr) : M unit :=
  match fuel with
  | O => raise RecursionError
  | S fuel' =>
      let* n := get_node self in
      let* dirty_now := getattr "_is_dirty" (_is_dirty n) in
      if negb dirty_now then ret tt else
      let* defer_recalc := getattr "_defer_recalc" (_defer_recalc n) in
      if defer_recalc then ret tt else
      if negb (_is_visible n) then ret tt else
      for_each (_children n) (layout fuel') >>
      layout_sizes self
  end.

Definition as_Z (v : styleval) : M Z :=
  match v with
  | SNum (Fin z) => ret z
  | _ => raise TypeError
  end.

(** [position(left, top, width, height)]: the arguments of the hook
    [position_children] are computed and dropped. *)
Definition position (self : addr) (left top width height : Z) : M unit :=
  modify self (put_l (Fin left)) >> modify self (put_t (Fin top)) >>
  modify self (put_w (Fin width)) >> modify self (put_h (Fin height)) >>
  let* margin := _get_style_trbl self "margin" in
  let* padding := _get_style_trbl self "padding" in
  let* border_width := _get_style_num self "border-width" (Fin 0) in
  let '(margin_top, margin_right, margin_bottom, margin_left) := margin in
  let '(padding_top, padding_right, padding_bottom, padding_left) := padding in
  let* ml := as_Z margin_left in
  let* bw := as_Z border_width in
  let* pl := as_Z padding_left in
  let* mt := as_Z margin_top in
  let* pt := as_Z padding_top in
  let* mr := as_Z margin_right in
  let* pr := as_Z padding_right in
  let* mb := as_Z margin_bottom in
  let* pb := as_Z padding_bottom in
  ret tt.

(** *** The identity mutators and the child list *)

Section Methods.

(** [UI_Styling(lines)]: the lexer and the parser ([parse.py],
    [ui_utilities.py]) are not part of the sources at hand; the constructor
    is a parameter, [None] when it raises. *)
Variable UI_Styling_init : string → option UI_Styling.

Definition str_or_empty (o : option string) : string :=
  match o with Some s => s | None => "" end.

Definition style_setter (fuel : nat) (self : addr) (style : option string) : M unit :=
  modify self (put_style_str (str_or_empty style)) >>
  let* n := get_node self in
  match UI_Styling_init ("*{" +:+ _style_str n +:+ ";}") with
  | None => raise ParseError
  | Some sheet =>
      modify self (put_custom_style (Some sheet)) >>
      dirty fuel self PNone true false
  end.

Definition add_style (fuel : nat) (self : addr) (style : option string) : M unit :=
  let* n := get_node self in
  style_setter fuel self (Some (_style_str n +:+ ";" +:+ str_or_empty style)).

Definition id_setter (fuel : nat) (self : addr) (nid : option string) : M unit :=
  let nid := match nid with None => "" | Some s => strip s end in
  let* n := get_node self in
  if bool_decide (_id n = IdStr nid) then ret tt else
  modify self (put_id IdBuiltin) >>
  dirty fuel self PNone true true.

(** [set(c for c in classes.split(' ') if c) if classes else set()] *)
Definition classes_of (classes : option string) : gset string :=
  match classes with
  | None => ∅
  | Some s =>
      if bool_decide (s = "") then ∅
      else list_to_set (filter (fun c => c ≠ "") (split_space s))
  end.

Definition classes_setter (fuel : nat) (self : addr) (classes : option string)
  : M unit :=
  let classes := classes_of classes in
  let* n := get_node self in
  if bool_decide (classes = _classes n) then ret tt else
  modify self (put_classes classes) >>
  dirty fuel self PNone true true.

Definition add_class (fuel : nat) (self : addr) (cls : string) : M unit :=
  let* n := get_node self in
  if bool_decide (cls ∈ _classes n) then ret tt else
  modify self (fun n => put_classes (_classes n ∪ {[cls]}) n) >>
  dirty fuel self PNone true true.

Definition del_class (fuel : nat) (self : addr) (cls : string) : M unit :=
  let* n := get_node self in
  if negb (bool_decide (cls ∈ _classes n)) then ret tt else
  modify self (fun n => put_classes (_classes n ∖ {[cls]}) n) >>
  dirty fuel self PNone true true.

Definition clear_pseudoclass (fuel : nat) (self : addr) : M unit :=
  let* n := get_node self in
  if is_empty (_pseudoclasses n) then ret tt else
  modify self (put_pseudoclasses ∅) >>
  dirty fuel self PNone true true.

Definition add_pseudoclass (fuel : nat) (self : addr) (pseudo : string) : M unit :=
  let* n := get_node self in
  if bool_decide (pseudo ∈ _pseudoclasses n) then ret tt else
  modify self (fun n => put_pseudoclasses (_pseudoclasses n ∪ {[pseudo]}) n) >>
  dirty fuel self PNone true true.

Definition del_pseudoclass (fuel : nat) (self : addr) (pseudo : string) : M unit :=
  let* n := get_node self in
  if negb (bool_decide (pseudo ∈ _pseudoclasses n)) then ret tt else
  modify self (fun n => put_pseudoclasses (_pseudoclasses n ∖ {[pseudo]}) n) >>
  dirty fuel self PNone true true.

(** [self._children.remove(child)]: the first occurrence goes. *)
Fixpoint list_remove (x : addr) (l : list addr) : list addr :=
  match l with
  | [] => []
  | y :: l' => if bool_decide (y = x) then l' else y :: list_remove x l'
  end.

Definition delete_child (fuel : nat) (self child : addr) : M unit :=
  let* n := get_node self in
  if negb (bool_decide (child ∈ _children n))
  then raise (AssertionError "attempting to delete child that does not exist?") else
  modify self (fun n => put_children (list_remove child (_children n)) n) >>
  modify child (put_parent None) >>
  dirty fuel child PNone true false >>
  dirty fuel self (PStr "content") true false.

Definition append_child (fuel : nat) (self child : addr) : M unit :=
  let* n := get_node self in
  if bool_decide (child ∈ _children n)
  then raise (AssertionError "attempting to add existing child?") else
  let* c := get_node child in
  match _parent c with
  | Some p => delete_child fuel p child
  | None => ret tt
  end >>
  modify self (fun n => put_children (_children n ++ [child]) n) >>
  dirty fuel child PNone true false >>
  dirty fuel self PNone true false.

(** [clear_children], decorated with [defer_dirty()]. *)
Definition clear_children (fuel : nat) : addr → M unit :=
  defer_dirty fuel PNone true false (fun self =>
    let* n := get_node self in
    for_each (_children n) (fun child => delete_child fuel self child)).

(** *** Construction *)

(** The attributes as the first half of [__init__] sets them. *)
Definition new_node (selector_type : string) (default_style : UI_Styling) : UI_Core :=
  Node selector_type default_style None [] None IdNone ∅ ∅ None "" false None
       (Fin 0) (Fin 0) (Fin 0) (Fin 0) (Fin 0) (Fin 0) (Fin 0) (Fin 0)
       all_properties (Propagation false ∅ ∅) false None None None.

Definition alloc (n : UI_Core) : M addr :=
  fun st =>
    let a := fresh (dom (heap st)) in
    Ok a (State (<[a := n]> (heap st)) (stylesheet st) (trace st)).

(** [__init__(self, parent, id, classes, style)] for an object of a subclass
    with the given [selector_type] and [default_style]. *)
Definition __init__ (fuel : nat) (selector_type : string) (default_style : UI_Styling)
    (parent : option addr) (id classes style : option string) : M addr :=
  let* self := alloc (new_node selector_type default_style) in
  style_setter fuel self style >>
  id_setter fuel self id >>
  classes_setter fuel self classes >>
  match parent with
  | Some p => append_child fuel p self
  | None => ret tt
  end >>
  modify self (put_defer_recalc (Some false)) >>
  dirty fuel self PNone true false >>
  ret self.

(** [UI_Draw.load_stylesheet], from the text of the file. *)
Definition load_stylesheet (lines : string) : M unit :=
  match UI_Styling_init lines with
  | None => raise ParseError
  | Some sheet => fun st => Ok tt (State (heap st) (Some sheet) (trace st))
  end.

(** *** The states a program can reach *)

(** A call of a method of the class from outside. *)
Inductive call : Type :=
  | CallInit (selector_type : string) (default_style : UI_Styling)
             (parent : option addr) (id classes style : option string)
  | CallLoadStylesheet (lines : string)
  | CallDirty (self : addr) (properties : properties_arg) (to_parent to_children : bool)
  | CallPropagateDirtiness (self : addr)
  | CallSetDeferDirtyPropagation (self : addr) (v : bool)
  | CallClean (self : addr)
  | CallAppendChild (self child : addr)
  | CallDeleteChild (self child : addr)
  | CallClearChildren (self : addr)
  | CallSetStyle (self : addr) (style : option string)
  | CallAddStyle (self : addr) (style : option string)
  | CallSetId (self : addr) (nid : option string)
  | CallSetClasses (self : addr) (classes : option string)
  | CallAddClass (self : addr) (cls : string)
  | CallDelClass (self : addr) (cls : string)
  | CallClearPseudoclass (self : addr)
  | CallAddPseudoclass (self : addr) (pseudo : string)
  | CallDelPseudoclass (self : addr) (pseudo : string)
  | CallLayout (self : addr)
  | CallPosition (self : addr) (left top width height : Z).

Definition perform (fuel : nat) (c : call) : M unit :=
  match c with
  | CallInit selector_type default_style parent id classes style =>
      __init__ fuel selector_type default_style parent id classes style >> ret tt
  | CallLoadStylesheet lines => load_stylesheet lines
  | CallDirty self properties to_parent to_children =>
      dirty fuel self properties to_parent to_children
  | CallPropagateDirtiness self => propagate_dirtiness fuel self
  | CallSetDeferDirtyPropagation self v => defer_dirty_propagation_setter fuel self v
  | CallClean self => clean fuel self
  | CallAppendChild self child => append_child fuel self child
  | CallDeleteChild self child => delete_child fuel self child
  | CallClearChildren self => clear_children fuel self
  | CallSetStyle self style => style_setter fuel self style
  | CallAddStyle self style => add_style fuel self style
  | CallSetId self nid => id_setter fuel self nid
  | CallSetClasses self classes => classes_setter fuel self classes
  | CallAddClass self cls => add_class fuel self cls
  | CallDelClass self cls => del_class fuel self cls
  | CallClearPseudoclass self => clear_pseudoclass fuel self
  | CallAddPseudoclass self pseudo => add_pseudoclass fuel self pseudo
  | CallDelPseudoclass self pseudo => del_pseudoclass fuel self pseudo
  | CallLayout self => layout fuel self
  | CallPosition self x y w h => position self x y w h
  end.

Definition initial_state : state := State ∅ None [].

(** The states after any sequence of calls, each run to its return or to
    the exception it raises, at any bound on the call depth. *)
Inductive reachable : state → Prop :=
  | reachable_initial : reachable initial_state
  | reachable_step st fuel c :
      reachable st → reachable (final_state (perform fuel c st)).

(** The identity mutators when they change the object [n] at [self]: the
    call, the object after the assignment the mutator makes, and the
    argument [children] of the call of [dirty] that follows. *)
Inductive identity_mutation (self : addr) (n : UI_Core)
  : call → UI_Core → bool → Prop :=
  | mutation_id nid :
      _id n ≠ IdStr (match nid with None => "" | Some s => strip s end) →
      identity_mutation self n (CallSetId self nid) (put_id IdBuiltin n) true
  | mutation_classes classes :
      classes_of classes ≠ _classes n →
      identity_mutation self n (CallSetClasses self classes)
        (put_classes (classes_of classes) n) true
  | mutation_add_class cls :
      cls ∉ _classes n →
      identity_mutation self n (CallAddClass self cls)
        (put_classes (_classes n ∪ {[cls]}) n) true
  | mutation_del_class cls :
      cls ∈ _classes n →
      identity_mutation self n (CallDelClass self cls)
        (put_classes (_classes n ∖ {[cls]}) n) true
  | mutation_clear_pseudoclass :
      _pseudoclasses n ≠ ∅ →
      identity_mutation self n (CallClearPseudoclass self)
        (put_pseudoclasses ∅ n) true
  | mutation_add_pseudoclass pseudo :
      pseudo ∉ _pseudoclasses n →
      identity_mutation self n (CallAddPseudoclass self pseudo)
        (put_pseudoclasses (_pseudoclasses n ∪ {[pseudo]}) n) true
  | mutation_del_pseudoclass pseudo :
      pseudo ∈ _pseudoclasses n →
      identity_mutation self n (CallDelPseudoclass self pseudo)
        (put_pseudoclasses (_pseudoclasses n ∖ {[pseudo]}) n) true
  | mutation_style style sheet :
      UI_Styling_init ("*{" +:+ str_or_empty style +:+ ";}") = Some sheet →
      identity_mutation self n (CallSetStyle self style)
        (put_custom_style (Some sheet) (put_style_str (str_or_empty style) n))
        false
  | mutation_add_style style sheet :
      UI_Styling_init
        ("*{" +:+ (_style_str n +:+ ";" +:+ str_or_empty style) +:+ ";}")
      = Some sheet →
      identity_mutation self n (CallAddStyle self style)
        (put_custom_style (Some sheet)
           (put_style_str (_style_str n +:+ ";" +:+ str_or_empty style) n))
        false.

(** A program as a sequence of calls. *)
Definition run_calls (fuel : nat) (cs : list call) (st : state) : state :=
  foldl (fun st c => final_state (perform fuel c st)) st cs.

End Methods.

(** *** Notions used to state the properties *)

(** An object with its dirty set and its two pending sets emptied: what
    [dirty] and [propagate_dirtiness] leave alone. *)
Definition skeleton (n : UI_Core) : UI_Core :=
  put_dirty_properties ∅
    (put_dirty_propagation (Propagation (defer (_dirty_propagation n)) ∅ ∅) n).

(** [st'] differs from [st] only in dirty flags: the same objects with the
    same attributes, dirty sets that have grown, and a longer log. *)
Definition evolves (st st' : state) : Prop :=
  stylesheet st' = stylesheet st
  ∧ (∃ t, trace st' = trace st ++ t)
  ∧ ∀ b,
      match heap st !! b, heap st' !! b with
      | Some n, Some n' =>
          skeleton n' = skeleton n ∧ _dirty_properties n ⊆ _dirty_properties n'
      | None, None => True
      | _, _ => False
      end.

(** Every object of the store satisfies [G]. *)
Definition node_inv (G : UI_Core → Prop) (st : state) : Prop :=
  ∀ b n, heap st !! b = Some n → G n.

(** [m] relates every state to the state it leaves, whether it returns or
    raises. *)
Definition stable {A} (R : state → state → Prop) (m : M A) : Prop :=
  ∀ st, R st (final_state (m st)).

(** The dirty set of the object at [a]. *)
Definition dirty_of (st : state) (a : addr) : gset string :=
  match heap st !! a with
  | Some n => _dirty_properties n
  | None => ∅
  end.

(** The getter of the property [id]. *)
Definition id_getter (n : UI_Core) : idval := _id n.

(** [st'] keeps the invariant [node_inv G] if [st] has it. *)
Definition keeps (G : UI_Core → Prop) (st st' : state) : Prop :=
  node_inv G st → node_inv G st'.

(** An object without the attribute [_is_dirty] and without a parent. *)
Definition unlinked (n : UI_Core) : Prop :=
  _is_dirty n = None ∧ _parent n = None.

(** An object at rest: unless it defers propagation, nothing is pending. *)
Definition quiet (n : UI_Core) : Prop :=
  defer (_dirty_propagation n) = false →
  parent (_dirty_propagation n) = ∅ ∧ children (_dirty_propagation n) = ∅.

(** The references of the store form a forest: [up] decreases along
    [_parent], [down] decreases along [_children], and both stay inside the
    store. *)
Definition parents_ranked (up : addr → nat) (st : state) : Prop :=
  ∀ a n p, heap st !! a = Some n → _parent n = Some p →
           is_Some (heap st !! p) ∧ up p < up a.

Definition children_ranked (down : addr → nat) (st : state) : Prop :=
  ∀ a n c, heap st !! a = Some n → c ∈ _children n →
           is_Some (heap st !! c) ∧ down c < down a.

Definition well_formed (up down : addr → nat) (st : state) : Prop :=
  parents_ranked up st ∧ children_ranked down st ∧ node_inv quiet st.

(** The state with another store. *)
Definition with_heap (h : gmap addr UI_Core) (st : state) : state :=
  State h (stylesheet st) (trace st).

(** An object after the first lines of [dirty], before
    [propagate_dirtiness] runs. *)
Definition mark (props : gset string) (tp tc : bool) (n : UI_Core) : UI_Core :=
  let n1 := put_dirty_properties (_dirty_properties n ∪ props) n in
  let n2 := if tp then put_propagation_parent (parent (_dirty_propagation n1) ∪ props) n1
            else n1 in
  if tc then put_propagation_children (children (_dirty_propagation n2) ∪ props) n2
  else n2.

(** The state after [log]. *)
Definition logged (e : event) (st : state) : state :=
  State (heap st) (stylesheet st) (trace st ++ [e]).

(** [well_formed], as a check that runs. *)
Definition node_ok_b (up down : addr → nat) (st : state) (a : addr) (n : UI_Core)
  : bool :=
  match _parent n with
  | Some p => bool_decide (is_Some (heap st !! p)) && (up p <? up a)%nat
  | None => true
  end
  && forallb (fun c => bool_decide (is_Some (heap st !! c)) && (down c <? down a)%nat)
             (_children n)
  && (defer (_dirty_propagation n)
      || (is_empty (parent (_dirty_propagation n))
          && is_empty (children (_dirty_propagation n)))).

Definition well_formed_b (up down : addr → nat) (st : state) : bool :=
  forallb (fun an => node_ok_b up down st an.1 an.2) (map_to_list (heap st)).

(** *** Sample programs *)

(** A stand-in for the parser on the two inline styles the samples use:
    [UI_Styling('*{...;}')] is one rule [*] with the declarations of the
    text. *)
Definition sample_parser (lines : string) : option UI_Styling :=
  if bool_decide (lines = "*{width:100;margin:5;border-width:2;padding:3;}") then
    Some (Sheet [RuleSet [["*"]]
                   [Decl "width" (VLit (LNum 100)); Decl "margin" (VLit (LNum 5));
                    Decl "border-width" (VLit (LNum 2));
                    Decl "padding" (VLit (LNum 3))]])
  else if bool_decide (lines = "*{margin:5;}") then
    Some (Sheet [RuleSet [["*"]] [Decl "margin" (VLit (LNum 5))]])
  else Some (Sheet [RuleSet [["*"]] []]).

(** The class default [UI_Styling('*{;}')]. *)
Definition empty_default : UI_Styling := Sheet [RuleSet [["*"]] []].

(** One node with the inline style
    [width:100;margin:5;border-width:2;padding:3], cleaned: the object gets
    the address 0. *)
Definition boxed_state : state :=
  run_calls sample_parser 8
    [CallInit "button" empty_default None None None
       (Some "width:100;margin:5;border-width:2;padding:3");
     CallClean 0]
    initial_state.

(** [root = UI_Div(); mid = UI_P(parent=root); leaf = UI_Span(parent=mid)],
    then [root.clean()]: the objects get the addresses 0, 1 and 2. *)
Definition family_state : state :=
  run_calls sample_parser 8
    [CallInit "div" empty_default None None None None;
     CallInit "p" empty_default (Some 0) None None None;
     CallInit "span" empty_default (Some 1) None None None;
     CallClean 0]
    initial_state.

(** The same three objects with the parent references filled in by hand
    ([mid._parent = root], [leaf._parent = mid]). *)
Definition family_linked : state :=
  State (alter (put_parent (Some 0)) 1 (alter (put_parent (Some 1)) 2 (heap family_state)))
        (stylesheet family_state) (trace family_state).

(** Three mutations in a method decorated with [defer_dirty()]. *)
Definition three_mutations (self : addr) : M unit :=
  id_setter 8 self (Some "main") >>
  add_class 8 self "x" >>
  style_setter sample_parser 8 self (Some "margin:5").

Definition batch : addr → M unit := defer_dirty 8 PNone true false three_mutations.

(** The state inside the decorated method, after its first mutation. *)
Definition batch_first_step (self : addr) : M unit :=
  modify self (put_defer_dirty (Some true)) >> id_setter 8 self (Some "main").

(** The propagation steps of the log, as (source, target) pairs, towards
    the parent and towards the children. *)
Definition steps_to_parent (st : state) : list (addr * addr) :=
  map (fun e => (src e, dst e)) (filter (fun e => to_parent e = true) (trace st)).
Definition steps_to_children (st : state) : list (addr * addr) :=
  map (fun e => (src e, dst e)) (filter (fun e => to_parent e = false) (trace st)).

(** Style lookups in the computed style of an object. *)
Definition computed (st : state) (a : addr) (k : string) : option value :=
  match heap st !! a with
  | Some n => match _computed_styles n with Some d => d !! k | None => None end
  | None => None
  end.

Definition preferred_width (st : state) (a : addr) : option number :=
  _preferred_width <$> heap st !! a.

(** The same three mutations between
    [self.defer_dirty_propagation = True] and
    [self.defer_dirty_propagation = False]. *)
Definition batch_by_property (self : addr) : M unit :=
  defer_dirty_propagation_setter 8 self true >>
  three_mutations self >>
  defer_dirty_propagation_setter 8 self false.

(** The middle object of [family_state]. *)
Definition family_mid : UI_Core :=
  default (new_node "" (Sheet [])) (heap family_state !! 1).

(** *** The getter of [classes] *)

(** [sep.join(l)] *)
Fixpoint str_join (sep : string) (l : list string) : string :=
  match l with
  | [] => ""
  | [x] => x
  | x :: l' => x +:+ sep +:+ str_join sep l'
  end.

(** The getter of the property [classes]; the set is walked in the order of
    [elements]. *)
Definition classes_getter (n : UI_Core) : string :=
  str_join " " (elements (_classes n)).

(** *** Hit testing *)

(** [mx < self._l or mx >= self._l + self._w], for an integer [mx]; the
    comparisons with [float('inf')] are those of Python. *)
Definition misses_x (n : UI_Core) (mx : Z) : bool :=
  match _l n with
  | Fin l => (mx <? l)%Z
  | Inf => true
  end
  || match nadd (_l n) (_w n) with
     | Fin r => (r <=? mx)%Z
     | Inf => false
     end.

(** [my > self._t or my <= self._t - self._h]: [inf - h] is [inf],
    [t - inf] is [-inf], and [inf - inf] is [nan], which compares false. *)
Definition misses_y (n : UI_Core) (my : Z) : bool :=
  match _t n with
  | Fin t => (t <? my)%Z
  | Inf => false
  end
  || match _t n, _h n with
     | Fin t, Fin h => (my <=? t - h)%Z
     | Inf, Fin _ => true
     | _, Inf => false
     end.

(** The loop [for child in self._children] of [get_under_mouse]: the
    first child that returns an object decides. *)
Fixpoint first_under {B} (l : list B) (body : B → M (option addr))
  : M (option addr) :=
  match l with
  | [] => ret None
  | x :: l' =>
      let* r := body x in
      match r with
      | Some _ => ret r
      | None => first_under l' body
      end
  end.

(** [get_under_mouse(mx, my)]: [None], or the address of the object
    returned. *)
Fixpoint get_under_mouse (fuel : nat) (self : addr) (mx my : Z) : M (option addr) :=
  match fuel with
  | O => raise RecursionError
  | S fuel' =>
      let* n := get_node self in
      if misses_x n mx then ret None else
      if misses_y n my then ret None else
      let* r := first_under (_children n)
                  (fun child => get_under_mouse fuel' child mx my) in
      match r with
      | Some x => ret (Some x)
      | None => ret (Some self)
      end
  end.

(** *** Notions used to state further properties *)

(** A string without a space. *)
Fixpoint spaceless (s : string) : bool :=
  match s with
  | EmptyString => true
  | String c s' => negb (bool_decide (c = " "%char)) && spaceless s'
  end.

(** A class name that [classes.split(' ')] gives back: not empty, no
    space. *)
Definition is_word (s : string) : bool :=
  negb (bool_decide (s = "")) && spaceless s.

(** The text ['%s' % self._id] puts into the selector ([''] for a falsy
    id). *)
Definition id_text (i : idval) : string :=
  match i with
  | IdNone => ""
  | IdStr s => s
  | IdBuiltin => "<built-in function id>"
  end.

(** The type, the id, the classes and the pseudoclasses of the object are
    names without separators. *)
Definition plain_names (n : UI_Core) : Prop :=
  plain (selector_type n) = true
  ∧ plain (id_text (_id n)) = true
  ∧ (∀ c, c ∈ _classes n → plain c = true)
  ∧ (∀ c, c ∈ _pseudoclasses n → plain c = true).

(** The four tests of [msel] on an element of a rule, split by [splitsel],
    against the attributes of an object. *)
Definition matches_node (bp : selparts) (n : UI_Core) : bool :=
  (bool_decide (sp_type bp = "*") || bool_decide (selector_type n = sp_type bp))
  && (bool_decide (sp_id bp = "") || bool_decide (id_text (_id n) = sp_id bp))
  && forallb (fun c => bool_decide (c ∈ _classes n)) (sp_class bp)
  && forallb (fun c => bool_decide (c ∈ _pseudoclasses n)) (sp_pseudo bp).

(** The point lies in the box of the object. *)
Definition in_box (n : UI_Core) (mx my : Z) : bool :=
  negb (misses_x n mx) && negb (misses_y n my).

(** [x] is [a] or below [a], along objects whose boxes all hold the
    point. *)
Inductive under (st : state) (mx my : Z) : addr → addr → Prop :=
  | under_self a n :
      heap st !! a = Some n → in_box n mx my = true → under st mx my a a
  | under_child a n c x :
      heap st !! a = Some n → in_box n mx my = true → c ∈ _children n →
      under st mx my c x → under st mx my a x.

(** The keys [position] reads from the computed style. *)
Definition box_keys : list string :=
  ["margin-top"; "margin-right"; "margin-bottom"; "margin-left";
   "padding-top"; "padding-right"; "padding-bottom"; "padding-left";
   "border-width"].

(** The style gives the key a number, or leaves it to the default 0. *)
Definition numeric (styles : gmap string value) (k : string) : bool :=
  match style_num styles k (Fin 0) with
  | SNum (Fin _) => true
  | _ => false
  end.

(** The object after the first two lines of [position]. *)
Definition placed (left top width height : Z) (n : UI_Core) : UI_Core :=
  put_h (Fin height) (put_w (Fin width) (put_t (Fin top) (put_l (Fin left) n))).

(** The attribute [_children] of the object at [a], if there is one. *)
Definition children_of (st : state) (a : addr) : option (list addr) :=
  _children <$> heap st !! a.

(** The attribute [_parent] of the object at [a], if there is one. *)
Definition parent_of (st : state) (a : addr) : option (option addr) :=
  _parent <$> heap st !! a.

(** What [_compute_style] leaves of an object without parent and without
    children: the selector chain of its own element, the style the cascade
    gives for it, the visibility read from [display], [size] dirty and
    [style] clean, deferral off and nothing pending. *)
Definition restyled (sheet : option UI_Styling) (n : UI_Core) : UI_Core :=
  let selector := [own_selector n] in
  let styles := compute_style (default_style n) selector sheet (_custom_style n) in
  put_dirty_propagation (Propagation false ∅ ∅)
    (put_dirty_properties ((_dirty_properties n ∪ {["size"]}) ∖ {["style"]})
       (put_is_visible (display_visible styles)
          (put_computed_styles (Some styles)
             (put_selector (Some selector) n)))).

(** What [clean] leaves of such an object. *)
Definition cleaned (sheet : option UI_Styling) (n : UI_Core) : UI_Core :=
  let n1 := restyled sheet n in
  if _is_visible n1 then
    put_content_height (Fin 0)
      (put_content_width (Fin 0)
         (put_dirty_properties (_dirty_properties n1 ∖ {["content"]}) n1))
  else n1.

(** What holds of every object of a state a program can reach (see
    [reachable]): no attribute [_is_dirty], no parent, cleaning not
    deferred, an id that is no string, a dirty set with [size], a child
    list without repetition, and a selector chain, once computed, of one
    element. *)
Definition sound (n : UI_Core) : Prop :=
  unlinked n
  ∧ _defer_clean n = false
  ∧ (∀ s, _id n ≠ IdStr s)
  ∧ "size" ∈ _dirty_properties n
  ∧ NoDup (_children n)
  ∧ (∀ l, _selector n = Some l → length l = 1%nat).

(** Every object is [sound], and the log has no step towards a parent. *)
Definition good (st : state) : Prop :=
  node_inv sound st ∧ Forall (fun e => to_parent e = false) (trace st).

(** [st'] has the property [I] if [st] has it. *)
Definition preserves (I : state → Prop) (st st' : state) : Prop := I st → I st'.

(** *** Further sample programs *)

(** An object of a sample store. *)
Definition object_at (st : state) (a : addr) : UI_Core :=
  default (new_node "" (Sheet [])) (heap st !! a).

(** The store after [defer_dirty_propagation = True] and [dirty()] with
    [children=True] on the middle object of [family_state]. *)
Definition family_deferring : state :=
  final_state ((defer_dirty_propagation_setter 8 1 true >>
                dirty 8 1 PNone true true) family_state).

(** One object appended to itself: [x = UI_Div(); x.append_child(x)]. *)
Definition own_child_state : state :=
  run_calls sample_parser 8
    [CallInit "div" empty_default None None None None;
     CallAppendChild 0 0]
    initial_state.

(** A parent with one child, both cleaned and placed: the parent in the
    box with left edge 0, top edge 100, width 100 and height 100, the child
    in the box with left edge 10, top edge 90, width 20 and height 20. *)
Definition placed_state : state :=
  run_calls sample_parser 8
    [CallInit "div" empty_default None None None None;
     CallInit "p" empty_default (Some 0) None None None;
     CallClean 0;
     CallPosition 0 0 100 100 100;
     CallPosition 1 10 90 20 20]
    initial_state.

(** Two objects without relation, both cleaned:
    [a = UI_Div(); b = UI_P(); a.clean(); b.clean()]. *)
Definition pair_state : state :=
  run_calls sample_parser 8
    [CallInit "div" empty_default None None None None;
     CallInit "p" empty_default None None None None;
     CallClean 0;
     CallClean 1]
    initial_state.

End Core.


(** ** Facts about [ui_styling.py] *)

Module StylingFacts.
Import Styling.

Lemma foldl_store_lookup (l : list (string * value)) (d : gmap string value) k :
  foldl store d l !! k
  = match last (filter (fun kv : string * value => kv.1 = k) l) with
    | Some kv => Some kv.2
    | None => d !! k
    end.
Proof.
  induction l as [|[k' v] l IH] using rev_ind; [done|].
  rewrite foldl_snoc, filter_app, last_app. unfold store at 1. simpl.
  destruct (decide (k' = k)) as [->|Hne].
  - rewrite filter_cons_True by done. simpl. by rewrite lookup_insert_eq.
  - rewrite filter_cons_False by done. simpl.
    rewrite lookup_insert_ne by done. apply IH.
Qed.

Lemma expand_loop_flat (decls : list UI_Style_Declaration) (d : gmap string value) :
  foldl (fun d decl => foldl store d (assignments decl)) d decls
  = foldl store d (flat_map assignments decls).
Proof.
  revert d. induction decls as [|decl decls IH]; intros d; [done|].
  simpl. by rewrite foldl_app, IH.
Qed.

Lemma expand_loop_lookup decls k :
  expand_loop decls !! k = last_assignment k decls.
Proof.
  unfold expand_loop, last_assignment.
  rewrite expand_loop_flat, foldl_store_lookup.
  by destruct (last _).
Qed.

Lemma filter_initial_lookup (d : gmap string value) k :
  filter_initial d !! k = keep (d !! k).
Proof.
  unfold filter_initial, keep. rewrite map_lookup_filter.
  destruct (d !! k) as [v|]; [|done]. simpl.
  destruct (is_initial v); by case_guard.
Qed.

Lemma _expand_declarations_lookup decls k :
  _expand_declarations decls !! k = keep (last_assignment k decls).
Proof.
  unfold _expand_declarations.
  by rewrite filter_initial_lookup, expand_loop_lookup.
Qed.

(** The cascade, key by key: the last assignment among the default and
    override declarations unless it is [initial] or missing, and then the
    last assignment among the base declarations unless that is [initial]. *)
Lemma compute_style_lookup self selector initial_styling override_styling k :
  compute_style self selector initial_styling override_styling !! k
  = match keep (last_assignment k (full_decls self selector override_styling)) with
    | Some v => Some v
    | None => keep (last_assignment k (init_decls initial_styling selector))
    end.
Proof.
  unfold compute_style. rewrite lookup_union, _expand_declarations_lookup.
  fold (full_decls self selector override_styling).
  assert (match initial_styling with
          | Some i => _expand_declarations (get_decllist i selector)
          | None => ∅
          end !! k = keep (last_assignment k (init_decls initial_styling selector)))
    as ->.
  { destruct initial_styling; simpl; [apply _expand_declarations_lookup|].
    by rewrite lookup_empty. }
  by destruct (keep (last_assignment k (full_decls _ _ _))), (keep _).
Qed.

Lemma last_assignment_app k l1 l2 :
  last_assignment k (l1 ++ l2)
  = match last_assignment k l2 with
    | Some v => Some v
    | None => last_assignment k l1
    end.
Proof.
  unfold last_assignment. rewrite flat_map_app, filter_app, last_app.
  by destruct (last (filter _ (flat_map assignments l2))).
Qed.

Lemma get_decllist_app rs1 rs2 selector :
  get_decllist (Sheet (rs1 ++ rs2)) selector
  = (get_decllist (Sheet rs1) selector ++ get_decllist (Sheet rs2) selector)%list.
Proof. unfold get_decllist. simpl. apply flat_map_app. Qed.

(** *** Selector matching *)

Lemma msel_nil_l sb cont : msel [] sb cont = true.
Proof. by destruct sb. Qed.

Lemma msel_nil_r sa cont : msel sa [] cont = bool_decide (sa = []).
Proof. by destruct sa. Qed.

(** [msel] never passes over a node: a match needs at least as many
    selector elements as there are nodes in the chain. *)
Lemma msel_length sb :
  ∀ sa cont, msel sa sb cont = true → (length sa ≤ length sb)%nat.
Proof.
  induction sb as [|b0 sb IH]; intros sa cont; destruct sa as [|a0 sa]; simpl;
    try (intros; lia); try done.
  case_bool_decide.
  { intros Hsel. apply IH in Hsel. simpl in Hsel. lia. }
  destruct (elem_match a0 b0 && msel sa sb true) eqn:Hm.
  { intros _. apply andb_prop in Hm as [_ Hm]. apply IH in Hm. lia. }
  destruct cont; [|done]. intros Hsel. apply IH in Hsel. simpl in Hsel. lia.
Qed.

(** C1: what [RuleSet.match] returns for the rules [div p.note] and
    [div > p.note] on the chains [[div, p.note]] and [[div, span, p.note]]:
    both rules match the first chain and neither matches the second, so the
    descendant rule [div p.note] misses a [p.note] below a [span] below a
    [div]. *)
Theorem rule_match_note_chains :
  rule_match (RuleSet [["div"; "p.note"]] []) ["div"; "p.note"] = true
  ∧ rule_match (RuleSet [["div"; ">"; "p.note"]] []) ["div"; "p.note"] = true
  ∧ rule_match (RuleSet [["div"; "p.note"]] []) ["div"; "span"; "p.note"] = false
  ∧ rule_match (RuleSet [["div"; ">"; "p.note"]] []) ["div"; "span"; "p.note"] = false.
Proof. repeat apply conj; reflexivity. Qed.

(** C2, counterexample: with the selector chain used up and the node [p]
    left, [msel] does not succeed, so that the rule [div] does not match
    the chain [[div, p]]; with the node chain used up and the selector
    element [p] left, it does not fail, so that the rule [div p] matches the
    chain [[div]]. *)
Lemma msel_base_cases_counterexample :
  msel ["p"] [] true = false
  ∧ rule_match (RuleSet [["div"]] []) ["div"; "p"] = false
  ∧ msel [] ["p"] true = true
  ∧ rule_match (RuleSet [["div"; "p"]] []) ["div"] = true.
Proof. repeat apply conj; reflexivity. Qed.

(** C2, amended: when the remaining selector chain is empty, the match
    succeeds exactly when the remaining node chain is empty as well; a node
    left over with no selector element left is a non-match. *)
Theorem msel_selector_exhausted (cont : bool) :
  msel [] [] cont = true
  ∧ (∀ a0 sa, msel (a0 :: sa) [] cont = false)
  ∧ (∀ sa, msel sa [] cont = true ↔ sa = []).
Proof.
  split; [done|]. split; [done|].
  intros sa. by rewrite msel_nil_r, bool_decide_eq_true.
Qed.

(** *** The cascade *)

(** C3, counterexample: the stylesheet [compute_style] is called on sets
    [color: blue], the base stylesheet [initial_styling] sets [color: red],
    and the override stylesheet sets [color: initial], which is the last
    applicable declaration for [color] after either of them; the resolved
    mapping still holds [color]. *)
Lemma initial_over_base_counterexample :
  let default := Sheet [RuleSet [["*"]] [Decl "color" (VLit (LStr "blue"))]] in
  let base := Sheet [RuleSet [["a"]] [Decl "color" (VLit (LStr "red"))]] in
  let override := Sheet [RuleSet [["*"]] [Decl "color" (VLit (LStr "initial"))]] in
  last_assignment "color" (get_decllist base ["a"] ++ get_decllist override ["a"])
  = Some (VLit (LStr "initial"))
  ∧ last_assignment "color" (get_decllist default ["a"] ++ get_decllist override ["a"])
    = Some (VLit (LStr "initial"))
  ∧ compute_style default ["a"] (Some base) (Some override) !! "color"
    = Some (VLit (LStr "red")).
Proof. repeat apply conj; reflexivity. Qed.

(** C3, amended: when the last assignment to a property among the
    declarations of the default stylesheet followed by the override
    stylesheet is the literal [initial], these declarations give the
    property no value, and [compute_style] returns for it what the base
    stylesheet's declarations alone resolve to: absent when the base
    stylesheet is missing, never assigns it, or last assigns [initial]. *)
Theorem initial_falls_back_to_base self selector initial_styling override_styling k v :
  last_assignment k (full_decls self selector override_styling) = Some v →
  is_initial v = true →
  compute_style self selector initial_styling override_styling !! k
  = keep (last_assignment k (init_decls initial_styling selector))
  ∧ (initial_styling = None →
     compute_style self selector initial_styling override_styling !! k = None).
Proof.
  intros Hlast Hinit.
  assert (compute_style self selector initial_styling override_styling !! k
          = keep (last_assignment k (init_decls initial_styling selector))) as Heq.
  { rewrite compute_style_lookup, Hlast. simpl. by rewrite Hinit. }
  split; [done|]. intros ->. by rewrite Heq.
Qed.

Lemma initial_falls_back_to_base_witness :
  let default := Sheet [RuleSet [["a"]] [Decl "display" (VLit (LStr "block"))]] in
  let base := Sheet [RuleSet [["a"]] [Decl "display" (VLit (LStr "inline"))]] in
  let override := Sheet [RuleSet [["a"]] [Decl "display" (VLit (LStr "initial"))]] in
  compute_style default ["a"] (Some base) (Some override) !! "display"
  = Some (VLit (LStr "inline"))
  ∧ compute_style default ["a"] None (Some override) !! "display" = None.
Proof.
  intros default base override. split.
  - apply (initial_falls_back_to_base default ["a"] (Some base) (Some override)
             "display" (VLit (LStr "initial"))); reflexivity.
  - apply (initial_falls_back_to_base default ["a"] None (Some override)
             "display" (VLit (LStr "initial"))); reflexivity.
Defined.

(** C4, counterexample: [display] is declared by the stylesheet
    [compute_style] is called on ([inline]), by the base stylesheet
    [initial_styling] ([block]) and by the override stylesheet ([initial]);
    the result holds the base stylesheet's value, not the override's.  In
    one stylesheet, [a{color:red;} a{color:initial;}] resolves [color] to
    nothing. *)
Lemma override_initial_counterexample :
  let default := Sheet [RuleSet [["*"]] [Decl "display" (VLit (LStr "inline"))]] in
  let base := Sheet [RuleSet [["a"]] [Decl "display" (VLit (LStr "block"))]] in
  let override := Sheet [RuleSet [["a"]] [Decl "display" (VLit (LStr "initial"))]] in
  let twice := Sheet [RuleSet [["a"]] [Decl "color" (VLit (LStr "red"))];
                      RuleSet [["a"]] [Decl "color" (VLit (LStr "initial"))]] in
  compute_style default ["a"] (Some base) (Some override) !! "display"
  = Some (VLit (LStr "block"))
  ∧ compute_style default ["a"] (Some base) (Some override) !! "display"
    ≠ Some (VLit (LStr "initial"))
  ∧ compute_style twice ["a"] None None !! "color" = None.
Proof.
  split; [reflexivity|]. split; [|reflexivity].
  intros H. vm_compute in H. discriminate H.
Qed.

(** C4, amended: a value other than the literal [initial] wins by rule
    order alone.  If the last assignment to a property among the matching
    declarations of the default stylesheet followed by the override
    stylesheet has such a value, the result holds it, whatever the base
    stylesheet declares; and if these declarations leave the property
    unset, the last assignment among the base stylesheet's matching
    declarations gives the result. *)
Theorem last_declaration_wins self selector initial_styling override_styling k v :
  is_initial v = false →
  last_assignment k (full_decls self selector override_styling) = Some v
  ∨ (keep (last_assignment k (full_decls self selector override_styling)) = None
     ∧ last_assignment k (init_decls initial_styling selector) = Some v) →
  compute_style self selector initial_styling override_styling !! k = Some v.
Proof.
  intros Hv H. rewrite compute_style_lookup.
  destruct H as [->|[-> ->]]; simpl; by rewrite Hv.
Qed.

Lemma last_declaration_wins_witness :
  let sheet := Sheet [RuleSet [["a"]] [Decl "color" (VLit (LStr "red"))];
                      RuleSet [["a"]] [Decl "color" (VLit (LStr "blue"))]] in
  let base := Sheet [RuleSet [["a"]] [Decl "color" (VLit (LStr "green"))];
                     RuleSet [["*"]] [Decl "color" (VLit (LStr "grey"))]] in
  compute_style sheet ["a"] None None !! "color" = Some (VLit (LStr "blue"))
  ∧ compute_style (Sheet []) ["a"] (Some base) (Some sheet) !! "color"
    = Some (VLit (LStr "blue"))
  ∧ compute_style (Sheet []) ["a"] (Some sheet) None !! "color"
    = Some (VLit (LStr "blue")).
Proof.
  intros sheet base. split; [|split].
  - apply (last_declaration_wins sheet ["a"] None None "color"); [reflexivity|].
    left. reflexivity.
  - apply (last_declaration_wins (Sheet []) ["a"] (Some base) (Some sheet) "color");
      [reflexivity|]. left. reflexivity.
  - apply (last_declaration_wins (Sheet []) ["a"] (Some sheet) None "color");
      [reflexivity|]. right. split; reflexivity.
Defined.

(** *** Shorthand expansion *)

Ltac trbl_case :=
  unfold trbl_sides;
  rewrite ?_expand_declarations_lookup, ?expand_loop_lookup;
  repeat match goal with
  | |- context [last_assignment ?k ?l] =>
      let o := eval vm_compute in (last_assignment k l) in
      change (last_assignment k l) with o
  end;
  reflexivity.

(** C8: [margin] and [padding] expand by the TRBL rule.  One value gives
    all four sides; [(a, b)] gives top = bottom = a and right = left = b;
    [(a, b, c)] gives top = a, right = left = b, bottom = c; [(a, b, c, d)]
    gives top = a, right = b, bottom = c, left = d.  This holds of
    [_trbl_split], of the dictionary the expansion loop builds, and of the
    mapping [_expand_declarations] returns, where [keep] tells what the
    closing filter leaves of each side (the value itself unless it is the
    literal [initial]). *)
Theorem trbl_expansion (p : string) (a b c d : literal) :
  p = "margin" ∨ p = "padding" →
  let loop v := trbl_sides p (expand_loop [Decl p v]) in
  let sides v := trbl_sides p (_expand_declarations [Decl p v]) in
  let s x := Some (VLit x) in
  let f x := keep (Some (VLit x)) in
  (_trbl_split (VLit a) = (VLit a, VLit a, VLit a, VLit a)
   ∧ _trbl_split (VTuple a [b]) = (VLit a, VLit b, VLit a, VLit b)
   ∧ _trbl_split (VTuple a [b; c]) = (VLit a, VLit b, VLit c, VLit b)
   ∧ _trbl_split (VTuple a [b; c; d]) = (VLit a, VLit b, VLit c, VLit d))
  ∧ (loop (VLit a) = (s a, s a, s a, s a)
     ∧ loop (VTuple a [b]) = (s a, s b, s a, s b)
     ∧ loop (VTuple a [b; c]) = (s a, s b, s c, s b)
     ∧ loop (VTuple a [b; c; d]) = (s a, s b, s c, s d))
  ∧ (sides (VLit a) = (f a, f a, f a, f a)
     ∧ sides (VTuple a [b]) = (f a, f b, f a, f b)
     ∧ sides (VTuple a [b; c]) = (f a, f b, f c, f b)
     ∧ sides (VTuple a [b; c; d]) = (f a, f b, f c, f d)).
Proof.
  intros Hp loop sides s f. subst loop sides s f.
  split; [repeat split|].
  destruct Hp as [-> | ->];
    (split; (split; [|split; [|split]])); trbl_case.
Qed.

Lemma trbl_expansion_witness :
  trbl_sides "margin"
    (_expand_declarations [Decl "margin" (VTuple (LNum 5) [LNum 10; LNum 15])])
  = (Some (VLit (LNum 5)), Some (VLit (LNum 10)),
     Some (VLit (LNum 15)), Some (VLit (LNum 10)))
  ∧ trbl_sides "padding"
      (_expand_declarations [Decl "padding" (VTuple (LNum 1) [LNum 2; LNum 3; LNum 4])])
    = (Some (VLit (LNum 1)), Some (VLit (LNum 2)),
       Some (VLit (LNum 3)), Some (VLit (LNum 4))).
Proof.
  split.
  - apply (trbl_expansion "margin" (LNum 5) (LNum 10) (LNum 15) (LNum 0)).
    left. reflexivity.
  - apply (trbl_expansion "padding" (LNum 1) (LNum 2) (LNum 3) (LNum 4)).
    right. reflexivity.
Defined.

(** *** Selector matching, in general *)

Lemma elem_match_refl a : elem_match a a = true.
Proof.
  unfold elem_match. cbv zeta.
  assert (∀ l : list string, forallb (fun c => bool_decide (c ∈ l)) l = true) as Hall.
  { intros l. apply forallb_forall. intros c Hc.
    apply bool_decide_eq_true. by apply list_elem_of_In. }
  rewrite !Hall, !andb_true_r.
  rewrite (bool_decide_eq_true_2 (sp_type (splitsel a) = sp_type (splitsel a))) by done.
  rewrite (bool_decide_eq_true_2 (sp_id (splitsel a) = sp_id (splitsel a))) by done.
  by rewrite !orb_true_r.
Qed.

Lemma msel_sublist sb : ∀ sa,
  ">" ∉ sb →
  msel sa sb true = true
  ↔ ∃ sub, sub `sublist_of` sb ∧ Forall2 (fun a b => elem_match a b = true) sa sub.
Proof.
  induction sb as [|b sb IH]; intros sa Hno.
  - rewrite msel_nil_r, bool_decide_eq_true. split.
    + intros ->. exists []. split; constructor.
    + intros (sub & Hsub & Hall). apply sublist_nil_r in Hsub as ->.
      by apply Forall2_nil_inv_r in Hall.
  - apply not_elem_of_cons in Hno as [Hne Hno].
    destruct sa as [|a sa].
    { split; [|done]. intros _. exists []. split; [apply sublist_nil_l|constructor]. }
    simpl. rewrite bool_decide_eq_false_2 by done.
    destruct (elem_match a b) eqn:Hab; simpl.
    + destruct (msel sa sb true) eqn:Hrest.
      * split; [intros _|done].
        apply (IH sa Hno) in Hrest as (sub & Hsub & Hall).
        exists (b :: sub). split; [by apply sublist_skip|by constructor].
      * rewrite (IH (a :: sa) Hno). split.
        -- intros (sub & Hsub & Hall). exists sub. split; [by apply sublist_cons|done].
        -- intros (sub & Hsub & Hall).
           apply Forall2_cons_inv_l in Hall as (s0 & sub' & Has & Hall & ->).
           apply sublist_cons_r in Hsub as [Hsub|(sub'' & Heq & Hsub)].
           ++ exists (s0 :: sub'). split; [done|by constructor].
           ++ injection Heq as -> <-.
              assert (msel sa sb true = true) as Hc; [|congruence].
              apply (IH sa Hno). by exists sub'.
    + rewrite (IH (a :: sa) Hno). split.
      * intros (sub & Hsub & Hall). exists sub. split; [by apply sublist_cons|done].
      * intros (sub & Hsub & Hall).
        apply Forall2_cons_inv_l in Hall as (s0 & sub' & Has & Hall & ->).
        apply sublist_cons_r in Hsub as [Hsub|(sub'' & Heq & Hsub)].
        -- exists (s0 :: sub'). split; [done|by constructor].
        -- injection Heq as -> <-. congruence.
Qed.

(** X1: for a rule whose selectors use no [>], [match] is a subsequence
    test of the chain against the selector: the rule matches exactly when
    some elements of one of its selectors, taken in order, match the nodes
    of the chain one by one.  Elements of the selector may be left out;
    nodes of the chain may not.  In particular a chain that is spelled out
    by one of the selectors is matched. *)
Theorem rule_match_descendant_subsequence rule sa :
  (∀ sel, sel ∈ selectors rule → ">" ∉ sel) →
  (rule_match rule sa = true
   ↔ ∃ sel sub, sel ∈ selectors rule ∧ sub `sublist_of` sel
                ∧ Forall2 (fun a b => elem_match a b = true) sa sub)
  ∧ (sa ∈ selectors rule → rule_match rule sa = true).
Proof.
  intros Hno.
  assert (rule_match rule sa = true
          ↔ ∃ sel sub, sel ∈ selectors rule ∧ sub `sublist_of` sel
                       ∧ Forall2 (fun a b => elem_match a b = true) sa sub) as Hiff.
  { unfold rule_match. rewrite existsb_exists. split.
    - intros (sel & Hin & Hm). apply list_elem_of_In in Hin.
      apply (msel_sublist sel sa (Hno sel Hin)) in Hm as (sub & Hsub & Hall).
      by exists sel, sub.
    - intros (sel & sub & Hin & Hsub & Hall). exists sel.
      split; [by apply list_elem_of_In|].
      apply (msel_sublist sel sa (Hno sel Hin)). by exists sub. }
  split; [exact Hiff|]. intros Hin. apply Hiff. exists sa, sa.
  split; [done|]. split; [done|].
  clear. induction sa as [|a sa IH]; constructor; [apply elem_match_refl|done].
Qed.

Lemma rule_match_descendant_subsequence_witness :
  rule_match (RuleSet [["div"; "span"; "p"]] []) ["div"; "p.note"] = true
  ∧ rule_match (RuleSet [["div"; "span"; "p"]] []) ["div"; "span"; "p"] = true.
Proof.
  destruct (rule_match_descendant_subsequence (RuleSet [["div"; "span"; "p"]] [])
              ["div"; "p.note"]) as [Hiff _].
  { intros sel Hsel. apply list_elem_of_singleton in Hsel as ->.
    apply (bool_decide_eq_true_1 (">" ∉ ["div"; "span"; "p"])).
    vm_compute. reflexivity. }
  destruct (rule_match_descendant_subsequence (RuleSet [["div"; "span"; "p"]] [])
              ["div"; "span"; "p"]) as [_ Hown].
  { intros sel Hsel. apply list_elem_of_singleton in Hsel as ->.
    apply (bool_decide_eq_true_1 (">" ∉ ["div"; "span"; "p"])).
    vm_compute. reflexivity. }
  split.
  - apply Hiff. exists ["div"; "span"; "p"], ["div"; "p"].
    split; [apply list_elem_of_here|]. split.
    + apply sublist_skip, sublist_cons, sublist_skip, sublist_nil.
    + repeat constructor.
  - apply Hown. apply list_elem_of_here.
Defined.

Lemma msel_count sb : ∀ sa cont,
  msel sa sb cont = true →
  (length sa ≤ length (filter (fun b => b ≠ ">") sb))%nat.
Proof.
  induction sb as [|b0 sb IH]; intros sa cont; destruct sa as [|a0 sa]; simpl;
    try (intros; lia); try done.
  case_bool_decide as Hb.
  { intros Hsel. apply IH in Hsel. rewrite filter_cons_False by (by intros ?).
    exact Hsel. }
  rewrite filter_cons_True by done. simpl.
  destruct (elem_match a0 b0 && msel sa sb true) eqn:Hm.
  { intros _. apply andb_prop in Hm as [_ Hm]. apply IH in Hm. lia. }
  destruct cont; [|done]. intros Hsel. apply IH in Hsel. simpl in Hsel. lia.
Qed.

(** X2: [match] never passes over a node of the chain: a rule matches a
    chain only if one of its selectors has at least as many elements, not
    counting [>], as the chain has nodes. *)
Theorem rule_match_needs_long_selector rule sa :
  rule_match rule sa = true →
  ∃ sel, sel ∈ selectors rule
         ∧ (length sa ≤ length (filter (fun b => b ≠ ">") sel))%nat.
Proof.
  unfold rule_match. rewrite existsb_exists.
  intros (sel & Hin & Hm). exists sel. split; [by apply list_elem_of_In|].
  by eapply msel_count.
Qed.

Lemma rule_match_needs_long_selector_witness :
  ∃ sel, sel ∈ [["p"]; ["div"; ">"; "p"]]
         ∧ (length ["div"; "p"] ≤ length (filter (fun b => b ≠ ">") sel))%nat.
Proof.
  apply (rule_match_needs_long_selector (RuleSet [["p"]; ["div"; ">"; "p"]] [])).
  reflexivity.
Defined.

(** X3: selector elements left over when the chain is used up are ignored:
    a selector that matches a chain still matches it with any further
    elements appended. *)
Theorem msel_trailing_elements sb : ∀ sa cont extra,
  msel sa sb cont = true → msel sa (sb ++ extra) cont = true.
Proof.
  induction sb as [|b0 sb IH]; intros sa cont extra; destruct sa as [|a0 sa];
    try done.
  { intros _. apply msel_nil_l. }
  simpl. case_bool_decide; [apply IH|].
  destruct (elem_match a0 b0 && msel sa sb true) eqn:Hm.
  { intros _. apply andb_prop in Hm as [-> Hm]. by rewrite (IH _ _ extra Hm). }
  destruct cont; [|done]. intros Hsel.
  rewrite (IH _ _ extra Hsel). by repeat case_match.
Qed.

Lemma msel_trailing_elements_witness :
  msel ["div"] (["div"] ++ [">"; "p"; "span.x"]) true = true.
Proof. apply msel_trailing_elements. reflexivity. Defined.

(** *** What the expansion writes *)

Lemma keep_Some o v : keep o = Some v → o = Some v ∧ is_initial v = false.
Proof.
  destruct o as [w|]; simpl; [|done].
  destruct (is_initial w) eqn:Hw; [done|]. by intros [= ->].
Qed.

Lemma assignments_plain p v :
  shorthand p = false → assignments (Decl p v) = [(p, v)].
Proof.
  intros Hp. unfold shorthand in Hp. apply bool_decide_eq_false in Hp.
  unfold assignments. simpl.
  repeat (rewrite bool_decide_eq_false_2; [|intros ->; apply Hp; set_solver]).
  done.
Qed.

Lemma trbl_stores_keys k0 k1 k2 k3 vals kv :
  kv ∈ trbl_stores k0 k1 k2 k3 vals → kv.1 ∈ [k0; k1; k2; k3].
Proof.
  destruct vals as [[[t r] b] l]. simpl. intros H.
  repeat (apply elem_of_cons in H as [->|H]); simpl; [set_solver..|].
  by apply elem_of_nil in H.
Qed.

Ltac closed_keys H :=
  repeat (apply elem_of_cons in H as [->|H]); try reflexivity;
  by apply elem_of_nil in H.

Lemma assignments_keys decl kv :
  kv ∈ assignments decl → shorthand kv.1 = false.
Proof.
  destruct decl as [p v].
  destruct (shorthand p) eqn:Hp.
  - unfold shorthand in Hp. apply bool_decide_eq_true in Hp.
    repeat (apply elem_of_cons in Hp as [->|Hp]); [..|by apply elem_of_nil in Hp];
      intros Hkv.
    + change (kv ∈ trbl_stores "margin-top" "margin-right" "margin-bottom"
                     "margin-left" (_trbl_split v)) in Hkv.
      apply trbl_stores_keys in Hkv. closed_keys Hkv.
    + change (kv ∈ trbl_stores "padding-top" "padding-right" "padding-bottom"
                     "padding-left" (_trbl_split v)) in Hkv.
      apply trbl_stores_keys in Hkv. closed_keys Hkv.
    + destruct v as [x|v0 [|v1 rest]].
      * change (kv ∈ [("border-width", VLit x)]) in Hkv.
        apply list_elem_of_singleton in Hkv as ->. reflexivity.
      * change (kv ∈ [("border-width", VLit v0)]) in Hkv.
        apply list_elem_of_singleton in Hkv as ->. reflexivity.
      * change (kv ∈ ("border-width", VLit v0)
                     :: trbl_stores "border-top-color" "border-right-color"
                          "border-bottom-color" "border-left-color"
                          (_trbl_split (VTuple v1 rest))) in Hkv.
        apply elem_of_cons in Hkv as [->|Hkv]; [reflexivity|].
        apply trbl_stores_keys in Hkv. closed_keys Hkv.
    + change (kv ∈ trbl_stores "border-top-color" "border-right-color"
                     "border-bottom-color" "border-left-color" (_trbl_split v)) in Hkv.
      apply trbl_stores_keys in Hkv. closed_keys Hkv.
    + change (kv ∈ [("background-color", v)]) in Hkv. closed_keys Hkv.
    + change (kv ∈ [("min-width", v); ("max-width", v)]) in Hkv. closed_keys Hkv.
    + change (kv ∈ [("min-height", v); ("max-height", v)]) in Hkv. closed_keys Hkv.
  - rewrite (assignments_plain p v Hp). intros Hkv.
    by apply list_elem_of_singleton in Hkv as ->.
Qed.

Lemma last_assignment_shorthand k decls :
  shorthand k = true → last_assignment k decls = None.
Proof.
  intros Hk. unfold last_assignment.
  destruct (filter _ _) as [|kv l] eqn:Hf; [done|].
  assert (kv ∈ filter (fun kv : string * value => kv.1 = k)
                      (flat_map assignments decls)) as Hin
    by (rewrite Hf; left).
  apply list_elem_of_filter in Hin as [Hkey Hin].
  apply list_elem_of_In, in_flat_map in Hin as (decl & _ & Hin).
  apply list_elem_of_In, assignments_keys in Hin. congruence.
Qed.

Lemma last_assignment_last decls d k :
  last_assignment k (decls ++ [d])
  = match snd <$> last (filter (fun kv : string * value => kv.1 = k) (assignments d)) with
    | Some v => Some v
    | None => last_assignment k decls
    end.
Proof.
  rewrite last_assignment_app. unfold last_assignment at 1. simpl.
  by rewrite app_nil_r.
Qed.

Ltac last_case :=
  unfold border_colors, trbl_sides, keep_sides;
  rewrite ?_expand_declarations_lookup, ?last_assignment_app;
  repeat match goal with
  | |- context [last_assignment ?k [?d]] =>
      let o := eval vm_compute in (last_assignment k [d]) in
      change (last_assignment k [d]) with o
  end;
  cbv beta iota;
  reflexivity.

(** X4: the shorthand [border], after any earlier declarations.  A single
    value sets [border-width] and leaves the four colours as they were; with
    further values the first is the width and the others set the four
    colours by the TRBL rule.  [keep] tells what the closing filter leaves
    of a value (the value itself unless it is the literal [initial]). *)
Theorem border_expansion decls (w c1 c2 c3 c4 : literal) :
  let d v := _expand_declarations (decls ++ [Decl "border" v]) in
  let f x := keep (Some (VLit x)) in
  (d (VLit w) !! "border-width" = f w
   ∧ border_colors (d (VLit w)) = border_colors (_expand_declarations decls))
  ∧ (d (VTuple w []) !! "border-width" = f w
     ∧ border_colors (d (VTuple w [])) = border_colors (_expand_declarations decls))
  ∧ (d (VTuple w [c1]) !! "border-width" = f w
     ∧ border_colors (d (VTuple w [c1])) = (f c1, f c1, f c1, f c1))
  ∧ (d (VTuple w [c1; c2]) !! "border-width" = f w
     ∧ border_colors (d (VTuple w [c1; c2])) = (f c1, f c2, f c1, f c2))
  ∧ (d (VTuple w [c1; c2; c3]) !! "border-width" = f w
     ∧ border_colors (d (VTuple w [c1; c2; c3])) = (f c1, f c2, f c3, f c2))
  ∧ (d (VTuple w [c1; c2; c3; c4]) !! "border-width" = f w
     ∧ border_colors (d (VTuple w [c1; c2; c3; c4])) = (f c1, f c2, f c3, f c4)).
Proof.
  intros d f. subst d f. repeat apply conj; last_case.
Qed.

(** X5: [border-color], [background], [width] and [height], after any
    earlier declarations: [border-color] sets the four colours by the TRBL
    rule, [background] sets [background-color], and [width] and [height] set
    both the [min-] and the [max-] entry. *)
Theorem alias_expansion decls (v : value) :
  let d p := _expand_declarations (decls ++ [Decl p v]) in
  border_colors (d "border-color") = keep_sides (_trbl_split v)
  ∧ d "background" !! "background-color" = keep (Some v)
  ∧ (d "width" !! "min-width" = keep (Some v) ∧ d "width" !! "max-width" = keep (Some v))
  ∧ (d "height" !! "min-height" = keep (Some v)
     ∧ d "height" !! "max-height" = keep (Some v)).
Proof.
  intros d. subst d. split.
  - unfold border_colors, keep_sides.
    rewrite !_expand_declarations_lookup, !last_assignment_last.
    change (assignments (Decl "border-color" v))
      with (trbl_stores "border-top-color" "border-right-color"
              "border-bottom-color" "border-left-color" (_trbl_split v)).
    by destruct (_trbl_split v) as [[[t r] b] l].
  - repeat apply conj; last_case.
Qed.

(** X6: a declaration of a property that is not a shorthand, after any
    earlier declarations, decides its own key (removing it when the value is
    [initial]) and leaves every other key as the earlier declarations
    resolve it. *)
Theorem later_declaration_overrides_its_key decls p v k :
  shorthand p = false →
  _expand_declarations (decls ++ [Decl p v]) !! k
  = if bool_decide (k = p) then keep (Some v) else _expand_declarations decls !! k.
Proof.
  intros Hp. rewrite !_expand_declarations_lookup, last_assignment_last.
  rewrite (assignments_plain p v Hp).
  case_bool_decide as Hk.
  - subst k. by rewrite filter_cons_True.
  - rewrite filter_cons_False by (simpl; congruence). done.
Qed.

Lemma later_declaration_overrides_its_key_witness :
  let earlier := [Decl "margin" (VLit (LNum 5)); Decl "color" (VLit (LStr "red"))] in
  _expand_declarations (earlier ++ [Decl "margin-left" (VLit (LNum 9))]) !! "margin-left"
  = Some (VLit (LNum 9))
  ∧ _expand_declarations (earlier ++ [Decl "margin-left" (VLit (LNum 9))]) !! "margin-top"
    = Some (VLit (LNum 5))
  ∧ _expand_declarations (earlier ++ [Decl "color" (VLit (LStr "initial"))]) !! "color"
    = None.
Proof.
  intros earlier. split; [|split].
  - apply (later_declaration_overrides_its_key earlier "margin-left"
             (VLit (LNum 9)) "margin-left"). reflexivity.
  - apply (later_declaration_overrides_its_key earlier "margin-left"
             (VLit (LNum 9)) "margin-top"). reflexivity.
  - apply (later_declaration_overrides_its_key earlier "color"
             (VLit (LStr "initial")) "color"). reflexivity.
Defined.

(** X7: [margin] and [padding] reset all four sides: after any earlier
    declarations, the four longhand entries are those of the shorthand's
    value alone. *)
Theorem shorthand_resets_sides decls p v :
  p = "margin" ∨ p = "padding" →
  trbl_sides p (_expand_declarations (decls ++ [Decl p v]))
  = keep_sides (_trbl_split v).
Proof.
  intros [-> | ->]; unfold trbl_sides, keep_sides;
    rewrite !_expand_declarations_lookup, !last_assignment_last.
  - change (assignments (Decl "margin" v))
      with (trbl_stores "margin-top" "margin-right" "margin-bottom" "margin-left"
              (_trbl_split v)).
    by destruct (_trbl_split v) as [[[t r] b] l].
  - change (assignments (Decl "padding" v))
      with (trbl_stores "padding-top" "padding-right" "padding-bottom" "padding-left"
              (_trbl_split v)).
    by destruct (_trbl_split v) as [[[t r] b] l].
Qed.

Lemma shorthand_resets_sides_witness :
  trbl_sides "margin"
    (_expand_declarations
       ([Decl "margin-left" (VLit (LNum 9))] ++ [Decl "margin" (VTuple (LNum 1) [LNum 2])]))
  = (Some (VLit (LNum 1)), Some (VLit (LNum 2)),
     Some (VLit (LNum 1)), Some (VLit (LNum 2))).
Proof.
  apply (shorthand_resets_sides [Decl "margin-left" (VLit (LNum 9))] "margin"
           (VTuple (LNum 1) [LNum 2])).
  left. reflexivity.
Defined.

End StylingFacts.

(** ** Facts about [ui_core.py] *)

Module CoreFacts.
Import Styling Core.
Local Open Scope nat_scope.

(** *** Relations that every step of a method keeps *)

Section Stable.

Context (R : state → state → Prop) `{!PreOrder R}.

Lemma stable_ret {A} (x : A) : stable R (ret x).
Proof. intros st. reflexivity. Qed.

Lemma stable_raise {A} (e : exn) : stable R (raise e : M A).
Proof. intros st. reflexivity. Qed.

Lemma stable_bind {A B} (m : M A) (k : A → M B) :
  stable R m → (∀ x, stable R (k x)) → stable R (bind m k).
Proof.
  intros Hm Hk st. unfold bind. specialize (Hm st).
  destruct (m st) as [x st'|e st']; simpl in *; [|done].
  etrans; [exact Hm|apply Hk].
Qed.

Lemma stable_get_node a : stable R (get_node a).
Proof. intros st. unfold get_node. destruct (heap st !! a); reflexivity. Qed.

Lemma stable_get_stylesheet : stable R get_stylesheet.
Proof. intros st. reflexivity. Qed.

Lemma stable_getattr {A} name (o : option A) : stable R (getattr name o).
Proof. destruct o; [apply stable_ret|apply stable_raise]. Qed.

Lemma stable_when b m : stable R m → stable R (when b m).
Proof. destruct b; [done|]. intros _. apply stable_ret. Qed.

Lemma stable_for_each {B} (l : list B) body :
  (∀ x, stable R (body x)) → stable R (for_each l body).
Proof.
  intros Hb. induction l as [|x l IH]; simpl; [apply stable_ret|].
  apply stable_bind; [apply Hb|done].
Qed.

Lemma stable_if {A} (b : bool) (m1 m2 : M A) :
  stable R m1 → stable R m2 → stable R (if b then m1 else m2).
Proof. by destruct b. Qed.

Lemma stable_as_number v : stable R (as_number v).
Proof. destruct v; [apply stable_ret|apply stable_raise]. Qed.

Lemma stable_as_Z v : stable R (as_Z v).
Proof. destruct v as [[]|]; first [apply stable_ret|apply stable_raise]. Qed.

Lemma stable_get_style_num self k d : stable R (_get_style_num self k d).
Proof.
  unfold _get_style_num.
  apply stable_bind; [apply stable_get_node|intros n].
  apply stable_bind; [apply stable_getattr|intros ?]. apply stable_ret.
Qed.

Lemma stable_get_style_trbl self kb : stable R (_get_style_trbl self kb).
Proof.
  unfold _get_style_trbl.
  repeat (apply stable_bind; [apply stable_get_style_num|intros ?]).
  apply stable_ret.
Qed.

End Stable.

(** One step through the structure of a method; [leaf] closes the
    assignments and the calls. *)
Ltac stable_step leaf :=
  first
    [ leaf
    | lazymatch goal with
      | |- stable ?R (ret _) => apply (stable_ret R)
      | |- stable ?R (raise _) => apply (stable_raise R)
      | |- stable ?R (get_node _) => apply (stable_get_node R)
      | |- stable ?R get_stylesheet => apply (stable_get_stylesheet R)
      | |- stable ?R (getattr _ _) => apply (stable_getattr R)
      | |- stable ?R (as_number _) => apply (stable_as_number R)
      | |- stable ?R (as_Z _) => apply (stable_as_Z R)
      | |- stable ?R (_get_style_num _ _ _) => apply (stable_get_style_num R)
      | |- stable ?R (_get_style_trbl _ _) => apply (stable_get_style_trbl R)
      | |- stable ?R (when _ _) => apply (stable_when R)
      | |- stable ?R (for_each _ _) => apply (stable_for_each R); intros ?
      | |- stable ?R (bind _ _) => apply (stable_bind R); [|intros ?]
      | |- stable _ (match ?x with _ => _ end) => destruct x
      end ].

Ltac stable_auto leaf := repeat stable_step leaf.

(** *** [dirty] only adds dirty flags *)

Lemma evolves_refl st : evolves st st.
Proof.
  split; [done|]. split; [exists []; by rewrite app_nil_r|].
  intros b. by destruct (heap st !! b).
Qed.

Lemma evolves_trans st1 st2 st3 : evolves st1 st2 → evolves st2 st3 → evolves st1 st3.
Proof.
  intros (Hs1 & [t1 Ht1] & H1) (Hs2 & [t2 Ht2] & H2).
  split; [congruence|]. split.
  { exists (t1 ++ t2). by rewrite Ht2, Ht1, app_assoc. }
  intros b. specialize (H1 b). specialize (H2 b).
  destruct (heap st1 !! b), (heap st2 !! b), (heap st3 !! b); try done.
  destruct H1 as [E1 ?], H2 as [E2 ?]. split; [congruence|by etrans].
Qed.

#[global] Instance evolves_preorder : PreOrder evolves.
Proof. split; [exact evolves_refl|exact evolves_trans]. Qed.

Lemma evolves_modify a f :
  (∀ n, skeleton (f n) = skeleton n
        ∧ _dirty_properties n ⊆ _dirty_properties (f n)) →
  stable evolves (modify a f).
Proof.
  intros Hf st. split; [done|]. split; [exists []; by rewrite app_nil_r|].
  intros b. simpl. destruct (decide (b = a)) as [->|Hne].
  - rewrite lookup_alter_eq. destruct (heap st !! a); simpl; [apply Hf|done].
  - rewrite lookup_alter_ne by done. by destruct (heap st !! b).
Qed.

Lemma evolves_log e : stable evolves (log e).
Proof.
  intros st. split; [done|]. split; [by exists [e]|].
  intros b. simpl. by destruct (heap st !! b).
Qed.

Ltac evolves_leaf :=
  first [ apply evolves_log
        | apply evolves_modify; intros ?; split; [done|set_solver] ].

Lemma propagate_with_evolves dirty_rec self :
  (∀ a p tp tc, stable evolves (dirty_rec a p tp tc)) →
  stable evolves (propagate_with dirty_rec self).
Proof.
  intros Hrec. unfold propagate_with, propagate_to_parent, propagate_to_children.
  stable_auto ltac:(first [apply Hrec | evolves_leaf]).
Qed.

Lemma dirty_evolves fuel self properties tp tc :
  stable evolves (dirty fuel self properties tp tc).
Proof.
  revert self properties tp tc.
  induction fuel as [|fuel IH]; intros self properties tp tc; simpl.
  { stable_auto fail. }
  stable_auto ltac:(first [by apply propagate_with_evolves | evolves_leaf]).
Qed.

Lemma propagate_dirtiness_evolves fuel self :
  stable evolves (propagate_dirtiness fuel self).
Proof. apply propagate_with_evolves. intros. apply dirty_evolves. Qed.

(** What [evolves] keeps of an object: every attribute but the dirty set
    and the pending sets. *)
Lemma evolves_lookup st st' a n :
  evolves st st' → heap st !! a = Some n →
  ∃ n', heap st' !! a = Some n' ∧ skeleton n' = skeleton n
        ∧ _dirty_properties n ⊆ _dirty_properties n'.
Proof.
  intros (_ & _ & H) Ha. specialize (H a). rewrite Ha in H.
  destruct (heap st' !! a) as [n'|]; [|done]. by exists n'.
Qed.

Lemma evolves_lookup_rev st st' a n' :
  evolves st st' → heap st' !! a = Some n' →
  ∃ n, heap st !! a = Some n ∧ skeleton n' = skeleton n
       ∧ _dirty_properties n ⊆ _dirty_properties n'.
Proof.
  intros (_ & _ & H) Ha. specialize (H a). rewrite Ha in H.
  destruct (heap st !! a) as [n|]; [|done]. by exists n.
Qed.

(** *** The setter of [id] *)

(** C10: assigning a non-empty string [s], different from the current id,
    to the property [id] never makes the property read [s]: unless the
    stripped string equals the current id (and nothing is assigned), the
    setter stores the builtin function [id]. *)
Theorem id_setter_never_stores fuel st self n s :
  heap st !! self = Some n →
  s ≠ "" →
  id_getter n ≠ IdStr s →
  ∃ n', heap (final_state (id_setter fuel self (Some s) st)) !! self = Some n'
        ∧ id_getter n' ≠ IdStr s
        ∧ (id_getter n ≠ IdStr (strip s) → id_getter n' = IdBuiltin).
Proof.
  intros Hn _ Hs. unfold id_setter, bind at 1, get_node. rewrite Hn.
  case_bool_decide as Hid.
  - exists n. simpl. split; [done|]. split; [done|]. intros H. by destruct H.
  - pose proof (dirty_evolves fuel self PNone true true
                  (final_state (modify self (put_id IdBuiltin) st))) as Hev.
    unfold bind. simpl in *.
    set (st1 := State (alter (put_id IdBuiltin) self (heap st))
                      (stylesheet st) (trace st)) in *.
    assert (heap st1 !! self = Some (put_id IdBuiltin n)) as H1.
    { subst st1. simpl. by rewrite lookup_alter_eq, Hn. }
    destruct (evolves_lookup _ _ _ _ Hev H1) as (n' & Hn' & Hsk & _).
    exists n'. split; [exact Hn'|].
    assert (id_getter n' = IdBuiltin) as ->.
    { change (_id (skeleton n') = IdBuiltin). by rewrite Hsk. }
    by split.
Qed.

Lemma id_setter_never_stores_witness :
  let st := State {[ 0 := put_id (IdStr "menu") (new_node "button" (Sheet [])) ]}
                  None [] in
  ∃ n', heap (final_state (id_setter 3 0 (Some " tools ") st)) !! 0 = Some n'
        ∧ id_getter n' ≠ IdStr " tools "
        ∧ (id_getter (put_id (IdStr "menu") (new_node "button" (Sheet [])))
           ≠ IdStr (strip " tools ") → id_getter n' = IdBuiltin).
Proof.
  intros st.
  apply (id_setter_never_stores 3 st 0
           (put_id (IdStr "menu") (new_node "button" (Sheet []))) " tools ").
  - reflexivity.
  - discriminate.
  - discriminate.
Defined.

(** *** Invariants of the objects *)

#[global] Instance keeps_preorder G : PreOrder (keeps G).
Proof.
  split; [intros st H; exact H|].
  intros st1 st2 st3 H1 H2 H. exact (H2 (H1 H)).
Qed.

Lemma keeps_modify G a f : (∀ n, G n → G (f n)) → stable (keeps G) (modify a f).
Proof.
  intros Hf st Hinv b n'. simpl. destruct (decide (b = a)) as [->|Hne].
  - rewrite lookup_alter_eq. destruct (heap st !! a) as [n|] eqn:Hn; [|done].
    simpl. intros [= <-]. apply Hf. by eapply Hinv.
  - rewrite lookup_alter_ne by done. apply Hinv.
Qed.

Lemma keeps_log G e : stable (keeps G) (log e).
Proof. intros st Hinv b n. apply Hinv. Qed.

Lemma keeps_alloc G n : G n → stable (keeps G) (alloc n).
Proof.
  intros Hn st Hinv b n'. simpl.
  destruct (decide (b = fresh (dom (heap st)))) as [->|Hne].
  - rewrite lookup_insert_eq. by intros [= <-].
  - rewrite lookup_insert_ne by done. apply Hinv.
Qed.

Lemma keeps_evolves {A} G (m : M A) :
  (∀ n n', skeleton n' = skeleton n → G n → G n') →
  stable evolves m → stable (keeps G) m.
Proof.
  intros HG Hm st Hinv b n' Hb.
  destruct (evolves_lookup_rev _ _ _ _ (Hm st) Hb) as (n & Hn & Hsk & _).
  eapply HG; [exact Hsk|]. by eapply Hinv.
Qed.

Lemma unlinked_skeleton n n' : skeleton n' = skeleton n → unlinked n → unlinked n'.
Proof.
  intros Hsk [H1 H2]. split.
  - change (_is_dirty (skeleton n') = None). by rewrite Hsk.
  - change (_parent (skeleton n') = None). by rewrite Hsk.
Qed.

Ltac unlinked_leaf :=
  first
    [ apply keeps_log
    | apply keeps_modify; intros ? [? ?]; split; first [assumption|reflexivity]
    | apply keeps_evolves;
        [exact unlinked_skeleton
        |first [apply dirty_evolves | apply propagate_dirtiness_evolves]] ].

Ltac unlinked_auto extra := stable_auto ltac:(first [extra | unlinked_leaf]).

Lemma defer_setter_unlinked fuel self v :
  stable (keeps unlinked) (defer_dirty_propagation_setter fuel self v).
Proof. unfold defer_dirty_propagation_setter. unlinked_auto fail. Qed.

Lemma _compute_style_unlinked fuel self :
  stable (keeps unlinked) (_compute_style fuel self).
Proof.
  revert self. induction fuel as [|fuel IH]; intros self; simpl.
  { stable_auto fail. }
  unlinked_auto ltac:(first [apply IH | apply defer_setter_unlinked]).
Qed.

Lemma _compute_content_unlinked fuel self :
  stable (keeps unlinked) (_compute_content fuel self).
Proof.
  revert self. induction fuel as [|fuel IH]; intros self; simpl.
  { stable_auto fail. }
  unlinked_auto ltac:(first [apply IH | apply defer_setter_unlinked]).
Qed.

Lemma _compute_preferred_size_unlinked fuel self :
  stable (keeps unlinked) (_compute_preferred_size fuel self).
Proof.
  revert self. induction fuel as [|fuel IH]; intros self; simpl.
  { stable_auto fail. }
  unlinked_auto ltac:(first [apply IH | apply defer_setter_unlinked]).
Qed.

Lemma layout_unlinked fuel self : stable (keeps unlinked) (layout fuel self).
Proof.
  revert self. induction fuel as [|fuel IH]; intros self; simpl.
  { stable_auto fail. }
  unfold layout_sizes. unlinked_auto ltac:(apply IH).
Qed.

Lemma delete_child_unlinked fuel self child :
  stable (keeps unlinked) (delete_child fuel self child).
Proof. unfold delete_child. unlinked_auto fail. Qed.

Lemma style_setter_unlinked init fuel self style :
  stable (keeps unlinked) (style_setter init fuel self style).
Proof. unfold style_setter. unlinked_auto fail. Qed.

Lemma append_child_unlinked fuel self child :
  stable (keeps unlinked) (append_child fuel self child).
Proof. unfold append_child. unlinked_auto ltac:(apply delete_child_unlinked). Qed.

(** Every call keeps all objects without [_is_dirty] and without parent. *)
Lemma perform_unlinked init fuel c : stable (keeps unlinked) (perform init fuel c).
Proof.
  destruct c; simpl;
    unfold __init__, load_stylesheet, clean, clear_children, defer_dirty,
      add_style, id_setter, classes_setter, add_class, del_class,
      clear_pseudoclass, add_pseudoclass, del_pseudoclass, position;
    unlinked_auto ltac:(first
      [ apply style_setter_unlinked | apply append_child_unlinked
      | apply delete_child_unlinked | apply defer_setter_unlinked
      | apply _compute_style_unlinked | apply _compute_content_unlinked
      | apply _compute_preferred_size_unlinked | apply layout_unlinked
      | by apply keeps_alloc
      | by intros st Hinv ]).
Qed.

Lemma reachable_run_calls init fuel cs st :
  reachable init st → reachable init (run_calls init fuel cs st).
Proof.
  revert st. induction cs as [|c cs IH]; intros st Hst; [done|].
  simpl. apply IH. by apply reachable_step.
Qed.

Lemma reachable_unlinked init st :
  reachable init st → node_inv unlinked st.
Proof.
  induction 1 as [|st fuel c _ IH]; [by intros b n|].
  by apply perform_unlinked.
Qed.

(** *** [layout] *)

(** C9: in every state a program can reach, [layout] of any object raises
    [AttributeError] at its first guard, which reads the attribute
    [_is_dirty] that no method assigns; the state is left as it was, so the
    preferred sizes are not computed. *)
Theorem layout_raises_AttributeError init st self fuel :
  reachable init st →
  is_Some (heap st !! self) →
  layout (S fuel) self st = Raise (AttributeError "_is_dirty") st.
Proof.
  intros Hreach [n Hn].
  destruct (reachable_unlinked _ _ Hreach _ _ Hn) as [Hattr _].
  simpl. unfold bind at 1, get_node. rewrite Hn.
  unfold bind at 1. by rewrite Hattr.
Qed.

Lemma layout_raises_AttributeError_witness :
  layout 4 0 boxed_state = Raise (AttributeError "_is_dirty") boxed_state.
Proof.
  apply (layout_raises_AttributeError sample_parser boxed_state 0 3).
  - unfold boxed_state. apply reachable_run_calls. apply reachable_initial.
  - eexists. vm_compute. reflexivity.
Defined.

(** C7: the node with [width:100; margin:5; border-width:2; padding:3],
    cleaned and visible.  Its computed style holds the expanded values,
    [layout] raises at its first guard and leaves the preferred width at 0;
    the rest of [layout], run on its own, would set it to 120. *)
Theorem layout_of_boxed_node :
  (computed boxed_state 0 "min-width" = Some (VLit (LNum 100))
   ∧ computed boxed_state 0 "max-width" = Some (VLit (LNum 100))
   ∧ computed boxed_state 0 "margin-left" = Some (VLit (LNum 5))
   ∧ computed boxed_state 0 "margin-right" = Some (VLit (LNum 5))
   ∧ computed boxed_state 0 "padding-left" = Some (VLit (LNum 3))
   ∧ computed boxed_state 0 "padding-right" = Some (VLit (LNum 3))
   ∧ computed boxed_state 0 "border-width" = Some (VLit (LNum 2))
   ∧ (_is_visible <$> heap boxed_state !! 0) = Some true)
  ∧ layout 8 0 boxed_state = Raise (AttributeError "_is_dirty") boxed_state
  ∧ preferred_width (final_state (layout 8 0 boxed_state)) 0 = Some (Fin 0)
  ∧ preferred_width (final_state (layout_sizes 0 boxed_state)) 0 = Some (Fin 120).
Proof. repeat apply conj; vm_compute; exact eq_refl. Qed.

(** *** The [defer_dirty] decorator *)

(** Entering a method decorated with [defer_dirty] assigns [_defer_dirty]
    and leaves every [_dirty_propagation], with its [defer] entry, as it
    was: [propagate_dirtiness] takes the same branch inside the method as
    outside. *)
Lemma defer_dirty_keeps_propagation st self b :
  (_dirty_propagation
     <$> heap (final_state (modify self (put_defer_dirty (Some true)) st)) !! b)
  = (_dirty_propagation <$> heap st !! b).
Proof.
  simpl. destruct (decide (b = self)) as [->|Hne].
  - rewrite lookup_alter_eq. by destruct (heap st !! self).
  - by rewrite lookup_alter_ne.
Qed.

(** C5: three mutations ([id], [add_class], [style]) of the middle node of
    root -> mid -> leaf inside a method decorated with [defer_dirty()].
    After the first mutation, still inside the method, the leaf's dirty set
    has already changed.  Over the whole method the log shows two steps
    towards the children and none towards the parent; with the parent
    references filled in, four steps towards the parent.  Between
    [defer_dirty_propagation = True] and [= False] the same mutations give
    one step in each direction. *)
Theorem defer_dirty_does_not_hold :
  (dirty_of family_state 2 = {["size"]}
   ∧ dirty_of (final_state (batch_first_step 1 family_state)) 2 = all_properties)
  ∧ (steps_to_parent family_state = [] ∧ steps_to_children family_state = [])
  ∧ (steps_to_parent (final_state (batch 1 family_state)) = []
     ∧ steps_to_children (final_state (batch 1 family_state)) = [(1, 2); (1, 2)])
  ∧ (dirty_of family_linked 0 = {["size"]}
     ∧ dirty_of (final_state (batch_first_step 1 family_linked)) 0 = all_properties
     ∧ steps_to_parent (final_state (batch 1 family_linked))
       = [(1, 0); (1, 0); (1, 0); (1, 0)]
     ∧ steps_to_children (final_state (batch 1 family_linked)) = [(1, 2); (1, 2)])
  ∧ (steps_to_parent (final_state (batch_by_property 1 family_linked)) = [(1, 0)]
     ∧ steps_to_children (final_state (batch_by_property 1 family_linked)) = [(1, 2)]).
Proof. repeat apply conj; vm_compute; exact eq_refl. Qed.

(** *** Running a method step by step *)

Lemma bind_ok {A B} (m : M A) (k : A → M B) st x st1 :
  m st = Ok x st1 → bind m k st = k x st1.
Proof. intros H. unfold bind. by rewrite H. Qed.

Lemma get_node_ok a n st : heap st !! a = Some n → get_node a st = Ok n st.
Proof. intros H. unfold get_node. by rewrite H. Qed.

Lemma modify_ok a f st : modify a f st = Ok tt (with_heap (alter f a (heap st)) st).
Proof. done. Qed.

Lemma for_each_inv {B} (I : state → Prop) (l : list B) (body : B → M unit) :
  (∀ x st, x ∈ l → I st → ∃ st', body x st = Ok tt st' ∧ I st') →
  ∀ st, I st → ∃ st', for_each l body st = Ok tt st' ∧ I st'.
Proof.
  induction l as [|x l IH]; intros Hbody st HI; simpl.
  { by exists st. }
  destruct (Hbody x st) as (st1 & H1 & HI1); [left|done|].
  destruct (IH (fun y st Hy => Hbody y st (list_elem_of_further _ _ _ Hy)) st1 HI1)
    as (st2 & H2 & HI2).
  exists st2. split; [|done]. by rewrite (bind_ok _ _ _ _ _ H1).
Qed.

Lemma parents_ranked_evolves up st st' :
  evolves st st' → parents_ranked up st → parents_ranked up st'.
Proof.
  intros Hev Hwf a n' p Ha Hp.
  destruct (evolves_lookup_rev _ _ _ _ Hev Ha) as (n & Hn & Hsk & _).
  assert (_parent n = Some p) as Hp'.
  { change (_parent (skeleton n) = Some p). rewrite <- Hsk. exact Hp. }
  destruct (Hwf a n p Hn Hp') as [[m Hm] Hlt]. split; [|done].
  destruct (evolves_lookup _ _ _ _ Hev Hm) as (m' & -> & _). by eexists.
Qed.

Lemma children_ranked_evolves down st st' :
  evolves st st' → children_ranked down st → children_ranked down st'.
Proof.
  intros Hev Hwf a n' c Ha Hc.
  destruct (evolves_lookup_rev _ _ _ _ Hev Ha) as (n & Hn & Hsk & _).
  assert (c ∈ _children n) as Hc'.
  { change (c ∈ _children (skeleton n)). rewrite <- Hsk. exact Hc. }
  destruct (Hwf a n c Hn Hc') as [[m Hm] Hlt]. split; [|done].
  destruct (evolves_lookup _ _ _ _ Hev Hm) as (m' & -> & _). by eexists.
Qed.

(** *** [dirty] on a well-formed store *)

Lemma alter_Some (f : UI_Core → UI_Core) a (h : gmap addr UI_Core) n :
  h !! a = Some n → alter f a h = <[a := f n]> h.
Proof.
  intros H. apply map_eq. intros b. destruct (decide (b = a)) as [->|Hne].
  - by rewrite lookup_alter_eq, lookup_insert_eq, H.
  - by rewrite lookup_alter_ne, lookup_insert_ne.
Qed.

Lemma dirty_unfold fuel self properties tp tc st n :
  heap st !! self = Some n →
  dirty (S fuel) self properties tp tc st
  = propagate_with (dirty fuel) self
      (with_heap (<[self := mark (properties_set properties) tp tc n]> (heap st)) st).
Proof.
  intros Hn. simpl. unfold bind at 1. rewrite modify_ok.
  rewrite (alter_Some _ _ _ _ Hn).
  set (n1 := put_dirty_properties _ n).
  unfold bind at 1.
  assert (∀ (h : gmap addr UI_Core) m (f : UI_Core → UI_Core) st0,
            with_heap (alter f self (heap (with_heap (<[self := m]> h) st0)))
                      (with_heap (<[self := m]> h) st0)
            = with_heap (<[self := f m]> h) st0) as Halt.
  { intros h m f st0. unfold with_heap. simpl. f_equal.
    rewrite (alter_Some f self _ m) by apply lookup_insert_eq.
    by rewrite insert_insert_eq. }
  unfold mark. fold n1.
  destruct tp, tc; unfold when, bind, ret; rewrite ?modify_ok; cbn beta iota;
    rewrite ?modify_ok; cbn beta iota; rewrite ?modify_ok; cbn beta iota;
    rewrite ?Halt; reflexivity.
Qed.

Lemma propagate_with_deferring d self st n :
  heap st !! self = Some n → defer (_dirty_propagation n) = true →
  propagate_with d self st = Ok tt st.
Proof.
  intros Hn Hd. unfold propagate_with.
  rewrite (bind_ok _ _ _ _ _ (get_node_ok _ _ _ Hn)). by rewrite Hd.
Qed.

Lemma propagate_with_running d self st n :
  heap st !! self = Some n → defer (_dirty_propagation n) = false →
  propagate_with d self st
  = (propagate_to_parent d self >> propagate_to_children d self) st.
Proof.
  intros Hn Hd. unfold propagate_with.
  rewrite (bind_ok _ _ _ _ _ (get_node_ok _ _ _ Hn)). by rewrite Hd.
Qed.

Lemma to_parent_skip d self st n :
  heap st !! self = Some n → parent (_dirty_propagation n) = ∅ →
  propagate_to_parent d self st = Ok tt st.
Proof.
  intros Hn He. unfold propagate_to_parent.
  rewrite (bind_ok _ _ _ _ _ (get_node_ok _ _ _ Hn)).
  unfold is_empty. by rewrite bool_decide_eq_true_2.
Qed.

Lemma to_parent_root d self st n :
  heap st !! self = Some n → parent (_dirty_propagation n) ≠ ∅ →
  _parent n = None →
  propagate_to_parent d self st
  = Ok tt (with_heap (alter (put_propagation_parent ∅) self (heap st)) st).
Proof.
  intros Hn He Hp. unfold propagate_to_parent.
  rewrite (bind_ok _ _ _ _ _ (get_node_ok _ _ _ Hn)).
  unfold is_empty. rewrite bool_decide_eq_false_2 by done. simpl.
  by rewrite Hp.
Qed.

Lemma to_parent_call d self st n p st1 :
  heap st !! self = Some n → parent (_dirty_propagation n) ≠ ∅ →
  _parent n = Some p →
  d p (PSet (parent (_dirty_propagation n))) true false
    (logged (Propagated self p (parent (_dirty_propagation n)) true) st)
  = Ok tt st1 →
  propagate_to_parent d self st
  = Ok tt (with_heap (alter (put_propagation_parent ∅) self (heap st1)) st1).
Proof.
  intros Hn He Hp Hd. unfold propagate_to_parent.
  rewrite (bind_ok _ _ _ _ _ (get_node_ok _ _ _ Hn)).
  unfold is_empty. rewrite bool_decide_eq_false_2 by done. simpl.
  rewrite Hp. unfold bind at 1. unfold bind at 1. unfold log.
  unfold logged in Hd. by rewrite Hd.
Qed.

Lemma to_children_skip d self st n :
  heap st !! self = Some n → children (_dirty_propagation n) = ∅ →
  propagate_to_children d self st = Ok tt st.
Proof.
  intros Hn He. unfold propagate_to_children.
  rewrite (bind_ok _ _ _ _ _ (get_node_ok _ _ _ Hn)).
  unfold is_empty. by rewrite bool_decide_eq_true_2.
Qed.

Lemma to_children_run d self st n st1 :
  heap st !! self = Some n → children (_dirty_propagation n) ≠ ∅ →
  for_each (_children n) (fun child =>
    let* n := get_node self in
    log (Propagated self child (children (_dirty_propagation n)) false) >>
    d child (PSet (children (_dirty_propagation n))) false true) st
  = Ok tt st1 →
  propagate_to_children d self st
  = Ok tt (with_heap (alter (put_propagation_children ∅) self (heap st1)) st1).
Proof.
  intros Hn He Hloop. unfold propagate_to_children.
  rewrite (bind_ok _ _ _ _ _ (get_node_ok _ _ _ Hn)).
  unfold is_empty. rewrite bool_decide_eq_false_2 by done. simpl.
  by rewrite (bind_ok _ _ _ _ _ Hloop).
Qed.

Lemma skeleton_mark props tp tc n : skeleton (mark props tp tc n) = skeleton n.
Proof. by destruct tp, tc. Qed.

Lemma dirty_mark props tp tc n :
  _dirty_properties (mark props tp tc n) = _dirty_properties n ∪ props.
Proof. by destruct tp, tc. Qed.

Lemma defer_mark props tp tc n :
  defer (_dirty_propagation (mark props tp tc n)) = defer (_dirty_propagation n).
Proof. by destruct tp, tc. Qed.

Lemma parent_mark props tp tc n :
  parent (_dirty_propagation (mark props tp tc n))
  = if tp then parent (_dirty_propagation n) ∪ props
    else parent (_dirty_propagation n).
Proof. by destruct tp, tc. Qed.

Lemma children_mark props tp tc n :
  children (_dirty_propagation (mark props tp tc n))
  = if tc then children (_dirty_propagation n) ∪ props
    else children (_dirty_propagation n).
Proof. by destruct tp, tc. Qed.

Lemma evolves_insert st a n n' :
  heap st !! a = Some n → skeleton n' = skeleton n →
  _dirty_properties n ⊆ _dirty_properties n' →
  evolves st (with_heap (<[a := n']> (heap st)) st).
Proof.
  intros Hn Hsk Hd. split; [done|]. split; [exists []; by rewrite app_nil_r|].
  intros b. simpl. destruct (decide (b = a)) as [->|Hne].
  - by rewrite lookup_insert_eq, Hn.
  - rewrite lookup_insert_ne by done. by destruct (heap st !! b).
Qed.

Lemma evolves_alter st a f :
  (∀ n, skeleton (f n) = skeleton n ∧ _dirty_properties n ⊆ _dirty_properties (f n)) →
  evolves st (with_heap (alter f a (heap st)) st).
Proof. intros Hf. exact (evolves_modify a f Hf st). Qed.

Lemma evolves_logged e st : evolves st (logged e st).
Proof. exact (evolves_log e st). Qed.

Lemma dirty_ok_evolves fuel a p tp tc st st' :
  dirty fuel a p tp tc st = Ok tt st' → evolves st st'.
Proof. intros H. pose proof (dirty_evolves fuel a p tp tc st) as Hev. by rewrite H in Hev. Qed.

Lemma dirty_of_lookup st a n : heap st !! a = Some n → dirty_of st a = _dirty_properties n.
Proof. intros H. unfold dirty_of. by rewrite H. Qed.

Lemma dirty_down (down : addr → nat) k : ∀ fuel st c n props,
  children_ranked down st → heap st !! c = Some n →
  down c ≤ k → k < fuel →
  (∀ b m, heap st !! b = Some m → down b ≤ down c → quiet m) →
  ∃ st', dirty fuel c (PSet props) false true st = Ok tt st'
     ∧ (∀ b, b ≠ c → down c ≤ down b → heap st' !! b = heap st !! b)
     ∧ (∀ b m, heap st' !! b = Some m → down b ≤ down c → quiet m)
     ∧ props ⊆ dirty_of st' c.
Proof.
  induction k as [k IH] using lt_wf_ind.
  intros fuel st c n props Hranked Hn Hk Hfuel Hquiet.
  destruct fuel as [|f]; [lia|].
  rewrite (dirty_unfold _ _ _ _ _ _ _ Hn). simpl properties_set.
  set (n1 := mark props false true n).
  set (st1 := with_heap (<[c := n1]> (heap st)) st).
  assert (heap st1 !! c = Some n1) as Hn1 by apply lookup_insert_eq.
  assert (∀ b, b ≠ c → heap st1 !! b = heap st !! b) as Hframe1.
  { intros b Hb. subst st1. simpl. by rewrite lookup_insert_ne. }
  assert (evolves st st1) as Hev1.
  { apply (evolves_insert st c n n1 Hn); [apply skeleton_mark|].
    subst n1. rewrite dirty_mark. set_solver. }
  assert (props ⊆ _dirty_properties n1) as Hprops.
  { subst n1. rewrite dirty_mark. set_solver. }
  destruct (defer (_dirty_propagation n)) eqn:Hdefer.
  - (* deferring: everything stays pending *)
    exists st1. split.
    { apply (propagate_with_deferring _ _ _ n1 Hn1). subst n1.
      by rewrite defer_mark. }
    split; [intros b Hb _; by apply Hframe1|].
    split; [|by rewrite (dirty_of_lookup _ _ _ Hn1)].
    intros b m Hb Hle. destruct (decide (b = c)) as [->|Hne].
    + rewrite Hn1 in Hb. injection Hb as <-. intros Hd. subst n1.
      rewrite defer_mark in Hd. congruence.
    + rewrite Hframe1 in Hb by done. by eapply Hquiet.
  - destruct (Hquiet c n Hn (Nat.le_refl _) Hdefer) as [Hpp Hpc].
    assert (defer (_dirty_propagation n1) = false) as Hdefer1.
    { subst n1. by rewrite defer_mark. }
    assert (parent (_dirty_propagation n1) = ∅) as Hpp1.
    { subst n1. by rewrite parent_mark. }
    assert (children (_dirty_propagation n1) = props) as Hpc1.
    { subst n1. rewrite children_mark, Hpc. apply (left_id_L ∅ (∪)). }
    rewrite (propagate_with_running _ _ _ n1 Hn1 Hdefer1).
    rewrite (bind_ok _ _ _ _ _ (to_parent_skip _ _ _ n1 Hn1 Hpp1)).
    destruct (decide (props = ∅)) as [Hempty|Hnonempty].
    + (* nothing to pass on *)
      exists st1. split.
      { apply (to_children_skip _ _ _ n1 Hn1). by rewrite Hpc1. }
      split; [intros b Hb _; by apply Hframe1|].
    split; [|by rewrite (dirty_of_lookup _ _ _ Hn1)].
      intros b m Hb Hle. destruct (decide (b = c)) as [->|Hne].
      * rewrite Hn1 in Hb. injection Hb as <-. intros _. split; [done|].
        by rewrite Hpc1.
      * rewrite Hframe1 in Hb by done. by eapply Hquiet.
    + (* the loop over the children *)
      set (I := fun sti : state =>
        evolves st1 sti
        ∧ (∀ b, down c ≤ down b → heap sti !! b = heap st1 !! b)
        ∧ (∀ b m, heap sti !! b = Some m → down b < down c → quiet m)).
      assert (I st1) as HI1.
      { split; [reflexivity|]. split; [done|].
        intros b m Hb Hlt. rewrite Hframe1 in Hb.
        - eapply Hquiet; [done|lia].
        - intros ->. lia. }
      destruct (for_each_inv I (_children n1) (fun child =>
                  let* n := get_node c in
                  log (Propagated c child (children (_dirty_propagation n)) false) >>
                  dirty f child (PSet (children (_dirty_propagation n))) false true))
        with (st := st1) as (st2 & Hloop & Hev2 & Hframe2 & Hquiet2); [|done|].
      { intros x sti Hx (Hevi & Hframei & Hquieti).
        assert (heap sti !! c = Some n1) as Hci.
        { rewrite Hframei by done. done. }
        rewrite (bind_ok _ _ _ _ _ (get_node_ok _ _ _ Hci)).
        unfold bind at 1, log. fold (logged (Propagated c x (children (_dirty_propagation n1)) false) sti).
        set (stl := logged _ sti).
        assert (children_ranked down st1) as Hranked1
          by (by eapply children_ranked_evolves).
        destruct (Hranked1 c n1 x Hn1 Hx) as [[mx Hmx] Hltx].
        assert (evolves st1 stl) as Hevl.
        { etrans; [exact Hevi|apply evolves_logged]. }
        destruct (evolves_lookup _ _ _ _ Hevl Hmx) as (mx' & Hmx' & _).
        destruct (IH (down x) ltac:(lia) f stl x mx'
                    (children (_dirty_propagation n1)))
          as (st' & Hrun & Hframe' & Hquiet' & _).
        - by eapply children_ranked_evolves.
        - done.
        - done.
        - lia.
        - intros b m Hb Hle. apply (Hquieti b m Hb). lia.
        - exists st'. split; [done|]. split; [|split].
          + etrans; [exact Hevl|]. by eapply dirty_ok_evolves.
          + intros b Hle. rewrite Hframe'; [by apply Hframei|intros ->; lia|lia].
          + intros b m Hb Hlt. destruct (decide (down b ≤ down x)) as [Hbx|Hbx].
            * by eapply Hquiet'.
            * rewrite Hframe' in Hb; [by eapply Hquieti|intros ->; lia|lia]. }
      assert (heap st2 !! c = Some n1) as Hc2 by (rewrite Hframe2; done).
      eexists. split.
      { apply (to_children_run (dirty f) c st1 n1 st2 Hn1); [by rewrite Hpc1|exact Hloop]. }
      simpl. split; [|split].
      * intros b Hne Hle. rewrite lookup_alter_ne by done.
        rewrite Hframe2 by done. by apply Hframe1.
      * intros b m Hb Hle. destruct (decide (b = c)) as [->|Hne].
        -- rewrite lookup_alter_eq, Hc2 in Hb. injection Hb as <-.
           intros _. split; [exact Hpp1|done].
        -- rewrite lookup_alter_ne in Hb by done.
           destruct (decide (down b < down c)) as [Hlt|Hge].
           ++ by eapply Hquiet2.
           ++ rewrite Hframe2, Hframe1 in Hb by (done || lia).
              by eapply Hquiet.
      * unfold dirty_of. simpl. by rewrite lookup_alter_eq, Hc2.
Qed.

Lemma dirty_up (up : addr → nat) k : ∀ fuel st p n props,
  parents_ranked up st → heap st !! p = Some n →
  up p ≤ k → k < fuel →
  (∀ b m, heap st !! b = Some m → up b ≤ up p → quiet m) →
  ∃ st', dirty fuel p (PSet props) true false st = Ok tt st'
     ∧ (∀ b, b ≠ p → up p ≤ up b → heap st' !! b = heap st !! b)
     ∧ (∀ b m, heap st' !! b = Some m → up b ≤ up p → quiet m)
     ∧ props ⊆ dirty_of st' p.
Proof.
  induction k as [k IH] using lt_wf_ind.
  intros fuel st p n props Hranked Hn Hk Hfuel Hquiet.
  destruct fuel as [|f]; [lia|].
  rewrite (dirty_unfold _ _ _ _ _ _ _ Hn). simpl properties_set.
  set (n1 := mark props true false n).
  set (st1 := with_heap (<[p := n1]> (heap st)) st).
  assert (heap st1 !! p = Some n1) as Hn1 by apply lookup_insert_eq.
  assert (∀ b, b ≠ p → heap st1 !! b = heap st !! b) as Hframe1.
  { intros b Hb. subst st1. simpl. by rewrite lookup_insert_ne. }
  assert (evolves st st1) as Hev1.
  { apply (evolves_insert st p n n1 Hn); [apply skeleton_mark|].
    subst n1. rewrite dirty_mark. set_solver. }
  assert (props ⊆ _dirty_properties n1) as Hprops.
  { subst n1. rewrite dirty_mark. set_solver. }
  destruct (defer (_dirty_propagation n)) eqn:Hdefer.
  - exists st1. split.
    { apply (propagate_with_deferring _ _ _ n1 Hn1). subst n1.
      by rewrite defer_mark. }
    split; [intros b Hb _; by apply Hframe1|].
    split; [|by rewrite (dirty_of_lookup _ _ _ Hn1)].
    intros b m Hb Hle. destruct (decide (b = p)) as [->|Hne].
    + rewrite Hn1 in Hb. injection Hb as <-. intros Hd. subst n1.
      rewrite defer_mark in Hd. congruence.
    + rewrite Hframe1 in Hb by done. by eapply Hquiet.
  - destruct (Hquiet p n Hn (Nat.le_refl _) Hdefer) as [Hpp Hpc].
    assert (defer (_dirty_propagation n1) = false) as Hdefer1.
    { subst n1. by rewrite defer_mark. }
    assert (parent (_dirty_propagation n1) = props) as Hpp1.
    { subst n1. rewrite parent_mark, Hpp. apply (left_id_L ∅ (∪)). }
    assert (children (_dirty_propagation n1) = ∅) as Hpc1.
    { subst n1. by rewrite children_mark. }
    rewrite (propagate_with_running _ _ _ n1 Hn1 Hdefer1).
    destruct (decide (props = ∅)) as [Hempty|Hnonempty].
    + rewrite (bind_ok _ _ _ _ _ (to_parent_skip _ _ _ n1 Hn1 ltac:(by rewrite Hpp1))).
      exists st1. split; [by apply (to_children_skip _ _ _ n1 Hn1)|].
      split; [intros b Hb _; by apply Hframe1|].
      split; [|by rewrite (dirty_of_lookup _ _ _ Hn1)].
      intros b m Hb Hle. destruct (decide (b = p)) as [->|Hne].
      * rewrite Hn1 in Hb. injection Hb as <-. intros _. split; [|done].
        by rewrite Hpp1.
      * rewrite Hframe1 in Hb by done. by eapply Hquiet.
    + assert (∃ st2, propagate_to_parent (dirty f) p st1 = Ok tt st2
                ∧ heap st2 !! p = Some (put_propagation_parent ∅ n1)
                ∧ (∀ b, b ≠ p → up p ≤ up b → heap st2 !! b = heap st !! b)
                ∧ (∀ b m, b ≠ p → heap st2 !! b = Some m → up b ≤ up p → quiet m))
        as (st2 & Hrun & Hp2 & Hframe2 & Hquiet2).
      { destruct (_parent n1) as [q|] eqn:Hq.
        - assert (_parent n = Some q) as Hq'.
          { change (_parent (skeleton n) = Some q).
            rewrite <- (skeleton_mark props true false n). exact Hq. }
          destruct (Hranked p n q Hn Hq') as [[mq Hmq] Hlt].
          set (stl := logged (Propagated p q (parent (_dirty_propagation n1)) true) st1).
          assert (heap stl !! q = Some mq) as Hmq1.
          { subst stl. simpl. rewrite Hframe1; [done|]. intros ->. lia. }
          destruct (IH (up q) ltac:(lia) f stl q mq
                      (parent (_dirty_propagation n1)))
            as (st' & Hcall & Hframe' & Hquiet' & _).
          + eapply parents_ranked_evolves; [|exact Hranked].
            etrans; [exact Hev1|apply evolves_logged].
          + done.
          + done.
          + lia.
          + intros b m Hb Hle. simpl in Hb. rewrite Hframe1 in Hb.
            * eapply Hquiet; [done|lia].
            * intros ->. lia.
          + assert (heap st' !! p = Some n1) as Hp'.
            { rewrite Hframe'; [done|intros ->; lia|lia]. }
            eexists. split.
            { apply (to_parent_call (dirty f) p st1 n1 q st' Hn1);
                [by rewrite Hpp1|done|exact Hcall]. }
            cbn [heap with_heap]. split; [by rewrite lookup_alter_eq, Hp'|]. split.
            * intros b Hne Hle. rewrite lookup_alter_ne by done.
              rewrite Hframe'; [by apply Hframe1|intros ->; lia|lia].
            * intros b m Hne Hb Hle. rewrite lookup_alter_ne in Hb by done.
              destruct (decide (up b ≤ up q)) as [Hbq|Hbq].
              -- by eapply Hquiet'.
              -- rewrite Hframe' in Hb; [|intros ->; lia|lia].
                 simpl in Hb. rewrite Hframe1 in Hb by done. by eapply Hquiet.
        - eexists. split.
          { apply (to_parent_root (dirty f) p st1 n1 Hn1); [by rewrite Hpp1|done]. }
          cbn [heap with_heap]. split; [by rewrite lookup_alter_eq, Hn1|]. split.
          + intros b Hne _. rewrite lookup_alter_ne by done. by apply Hframe1.
          + intros b m Hne Hb Hle. rewrite lookup_alter_ne in Hb by done.
            rewrite Hframe1 in Hb by done. by eapply Hquiet. }
      rewrite (bind_ok _ _ _ _ _ Hrun).
      exists st2. split; [by apply (to_children_skip _ _ _ _ Hp2)|].
      split; [done|]. split.
      * intros b m Hb Hle. destruct (decide (b = p)) as [->|Hne].
        -- rewrite Hp2 in Hb. injection Hb as <-. intros _. by split.
        -- by eapply Hquiet2.
      * by rewrite (dirty_of_lookup _ _ _ Hp2).
Qed.

Lemma for_each_evolves {B} (I : state → Prop) (Q : B → state → Prop)
    (l : list B) (body : B → M unit) :
  (∀ x st st', Q x st → evolves st st' → Q x st') →
  (∀ x st, x ∈ l → I st →
     ∃ st', body x st = Ok tt st' ∧ I st' ∧ evolves st st' ∧ Q x st') →
  ∀ st, I st →
    ∃ st', for_each l body st = Ok tt st' ∧ I st' ∧ evolves st st'
           ∧ ∀ x, x ∈ l → Q x st'.
Proof.
  intros HQ. induction l as [|x l IH]; intros Hbody st HI; simpl.
  { exists st. split; [done|]. split; [done|]. split; [reflexivity|].
    intros x Hx. by apply not_elem_of_nil in Hx. }
  destruct (Hbody x st) as (st1 & H1 & HI1 & Hev1 & HQ1); [left|done|].
  destruct (IH (fun y st Hy => Hbody y st (list_elem_of_further _ _ _ Hy)) st1 HI1)
    as (st2 & H2 & HI2 & Hev2 & HQ2).
  exists st2. split; [by rewrite (bind_ok _ _ _ _ _ H1)|].
  split; [done|]. split; [by etrans|].
  intros y Hy. apply elem_of_cons in Hy as [->|Hy]; [by eapply HQ|by apply HQ2].
Qed.

Lemma dirty_of_evolves st st' a props :
  props ⊆ dirty_of st a → evolves st st' → props ⊆ dirty_of st' a.
Proof.
  intros Hp (_ & _ & H). specialize (H a). unfold dirty_of in *.
  destruct (heap st !! a), (heap st' !! a); try done.
  destruct H as [_ H]. by etrans.
Qed.

Lemma put_propagation_parent_id n :
  parent (_dirty_propagation n) = ∅ → put_propagation_parent ∅ n = n.
Proof. destruct n as [? ? ? ? ? ? ? ? ? ? ? ? ? ? ? ? ? ? ? ? ? [d pp pc] ? ? ? ?]. simpl. by intros ->. Qed.

Lemma put_propagation_children_id n :
  children (_dirty_propagation n) = ∅ → put_propagation_children ∅ n = n.
Proof. destruct n as [? ? ? ? ? ? ? ? ? ? ? ? ? ? ? ? ? ? ? ? ? [d pp pc] ? ? ? ?]. simpl. by intros ->. Qed.

(** The block towards the parent, for an object that does not defer. *)
Lemma to_parent_effect (up : addr → nat) f st a n :
  parents_ranked up st → heap st !! a = Some n → up a ≤ f →
  (∀ b m, b ≠ a → heap st !! b = Some m → quiet m) →
  ∃ st', propagate_to_parent (dirty f) a st = Ok tt st'
     ∧ evolves st st'
     ∧ heap st' !! a = Some (put_propagation_parent ∅ n)
     ∧ (∀ b, b ≠ a → up a ≤ up b → heap st' !! b = heap st !! b)
     ∧ (∀ b m, b ≠ a → heap st' !! b = Some m → quiet m)
     ∧ (∀ q, _parent n = Some q → parent (_dirty_propagation n) ⊆ dirty_of st' q)
     ∧ (parent (_dirty_propagation n) = ∅ → st' = st).
Proof.
  intros Hranked Hn Hf Hquiet.
  destruct (decide (parent (_dirty_propagation n) = ∅)) as [Hempty|Hnonempty].
  { exists st. split; [by apply (to_parent_skip _ _ _ n)|].
    split; [reflexivity|]. rewrite put_propagation_parent_id by done.
    split; [done|]. split; [done|]. split; [done|].
    split; [|done]. intros q _. rewrite Hempty. set_solver. }
  destruct (_parent n) as [q|] eqn:Hq.
  - destruct (Hranked a n q Hn Hq) as [[mq Hmq] Hlt].
    set (stl := logged (Propagated a q (parent (_dirty_propagation n)) true) st).
    destruct (dirty_up up (up q) f stl q mq (parent (_dirty_propagation n)))
      as (st1 & Hcall & Hframe1 & Hquiet1 & Hgot).
    + eapply parents_ranked_evolves; [apply evolves_logged|done].
    + done.
    + done.
    + lia.
    + intros b m Hb Hle. apply (Hquiet b m); [intros ->; lia|done].
    + assert (heap st1 !! a = Some n) as Ha1.
      { rewrite Hframe1; [done|intros ->; lia|lia]. }
      assert (evolves st st1) as Hev1.
      { etrans; [|by eapply dirty_ok_evolves]. apply evolves_logged. }
      eexists. split.
      { by apply (to_parent_call (dirty f) a st n q st1 Hn). }
      split.
      { etrans; [exact Hev1|]. apply evolves_alter. intros m. split; [done|set_solver]. }
      cbn [heap with_heap]. split; [by rewrite lookup_alter_eq, Ha1|].
      split; [|split; [|split; [|done]]].
      * intros b Hne Hle. rewrite lookup_alter_ne by done.
        rewrite Hframe1; [done|intros ->; lia|lia].
      * intros b m Hne Hb. rewrite lookup_alter_ne in Hb by done.
        destruct (decide (up b ≤ up q)) as [Hbq|Hbq].
        -- by eapply Hquiet1.
        -- rewrite Hframe1 in Hb; [by eapply Hquiet|intros ->; lia|lia].
      * intros q' [= <-]. unfold dirty_of. cbn [heap with_heap].
        rewrite lookup_alter_ne by (intros ->; lia). exact Hgot.
  - eexists. split; [by apply (to_parent_root (dirty f) a st n Hn)|].
    split; [apply evolves_alter; intros m; split; [done|set_solver]|].
    cbn [heap with_heap]. split; [by rewrite lookup_alter_eq, Hn|].
    split; [|split; [|done]].
    + intros b Hne _. by rewrite lookup_alter_ne.
    + intros b m Hne Hb. rewrite lookup_alter_ne in Hb by done. by eapply Hquiet.
Qed.

(** The block towards the children, for an object that does not defer. *)
Lemma to_children_effect (down : addr → nat) f st a n :
  children_ranked down st → heap st !! a = Some n → down a ≤ f →
  (∀ b m, b ≠ a → heap st !! b = Some m → quiet m) →
  ∃ st', propagate_to_children (dirty f) a st = Ok tt st'
     ∧ evolves st st'
     ∧ heap st' !! a = Some (put_propagation_children ∅ n)
     ∧ (∀ b, b ≠ a → down a ≤ down b → heap st' !! b = heap st !! b)
     ∧ (∀ b m, b ≠ a → heap st' !! b = Some m → quiet m)
     ∧ (∀ c, c ∈ _children n → children (_dirty_propagation n) ⊆ dirty_of st' c)
     ∧ (children (_dirty_propagation n) = ∅ → st' = st).
Proof.
  intros Hranked Hn Hf Hquiet.
  destruct (decide (children (_dirty_propagation n) = ∅)) as [Hempty|Hnonempty].
  { exists st. split; [by apply (to_children_skip _ _ _ n)|].
    split; [reflexivity|]. rewrite put_propagation_children_id by done.
    split; [done|]. split; [done|]. split; [done|].
    split; [|done]. intros c _. rewrite Hempty. set_solver. }
  set (P := children (_dirty_propagation n)) in *.
  set (I := fun sti : state =>
    evolves st sti
    ∧ (∀ b, down a ≤ down b → heap sti !! b = heap st !! b)
    ∧ (∀ b m, b ≠ a → heap sti !! b = Some m → quiet m)).
  destruct (for_each_evolves I (fun c sti => P ⊆ dirty_of sti c) (_children n)
              (fun child =>
                 let* n := get_node a in
                 log (Propagated a child (children (_dirty_propagation n)) false) >>
                 dirty f child (PSet (children (_dirty_propagation n))) false true))
    with (st := st) as (st2 & Hloop & (Hev2 & Hframe2 & Hquiet2) & _ & Hgot).
  - intros x s1 s2 HQ Hev. by eapply dirty_of_evolves.
  - intros x sti Hx (Hevi & Hframei & Hquieti).
    assert (heap sti !! a = Some n) as Hai by (rewrite Hframei; done).
    rewrite (bind_ok _ _ _ _ _ (get_node_ok _ _ _ Hai)).
    unfold bind at 1, log. fold P.
    fold (logged (Propagated a x P false) sti).
    set (stl := logged _ sti).
    destruct (Hranked a n x Hn Hx) as [[mx Hmx] Hltx].
    assert (evolves st stl) as Hevl.
    { etrans; [exact Hevi|apply evolves_logged]. }
    destruct (evolves_lookup _ _ _ _ Hevl Hmx) as (mx' & Hmx' & _).
    destruct (dirty_down down (down x) f stl x mx' P)
      as (st' & Hrun & Hframe' & Hquiet' & Hgot').
    + by eapply children_ranked_evolves.
    + done.
    + done.
    + lia.
    + intros b m Hb Hle. apply (Hquieti b m); [intros ->; lia|done].
    + assert (evolves stl st') as Hev' by (by eapply dirty_ok_evolves).
      exists st'. split; [done|]. split; [|split; [|done]].
      * split; [by etrans|]. split.
        -- intros b Hle. rewrite Hframe'; [by apply Hframei|intros ->; lia|lia].
        -- intros b m Hne Hb. destruct (decide (down b ≤ down x)) as [Hbx|Hbx].
           ++ by eapply Hquiet'.
           ++ rewrite Hframe' in Hb; [by eapply Hquieti|intros ->; lia|lia].
      * etrans; [apply evolves_logged|exact Hev'].
  - split; [reflexivity|]. split; [done|]. exact Hquiet.
  - assert (heap st2 !! a = Some n) as Ha2 by (rewrite Hframe2; done).
    eexists. split; [by apply (to_children_run (dirty f) a st n st2 Hn)|].
    split.
    { etrans; [exact Hev2|]. apply evolves_alter. intros m. split; [done|set_solver]. }
    cbn [heap with_heap]. split; [by rewrite lookup_alter_eq, Ha2|].
    split; [|split; [|split; [|done]]].
    + intros b Hne Hle. rewrite lookup_alter_ne by done. by apply Hframe2.
    + intros b m Hne Hb. rewrite lookup_alter_ne in Hb by done. by eapply Hquiet2.
    + intros c Hc. unfold dirty_of. cbn [heap with_heap].
      destruct (decide (c = a)) as [->|Hne].
      * destruct (Hranked a n a Hn Hc) as [_ Hlt]. lia.
      * rewrite lookup_alter_ne by done. by apply Hgot.
Qed.

Theorem dirty_spreads (up down : addr → nat) fuel st a n properties tp tc :
  well_formed up down st → heap st !! a = Some n →
  up a < fuel → down a < fuel →
  let props := properties_set properties in
  ∃ st', dirty fuel a properties tp tc st = Ok tt st'
     ∧ well_formed up down st'
     ∧ evolves st st'
     ∧ dirty_of st' a = _dirty_properties n ∪ props
     ∧ (defer (_dirty_propagation n) = true →
        heap st' = <[a := mark props tp tc n]> (heap st))
     ∧ (defer (_dirty_propagation n) = false →
        (tp = true → ∀ p, _parent n = Some p → props ⊆ dirty_of st' p)
        ∧ (tc = true → ∀ c, c ∈ _children n → props ⊆ dirty_of st' c)
        ∧ (tp = false → ∀ b, b ≠ a → down a ≤ down b → heap st' !! b = heap st !! b)
        ∧ (tc = false → ∀ b, b ≠ a → up a ≤ up b → heap st' !! b = heap st !! b)).
Proof.
  intros (Hup & Hdown & Hquiet) Hn Hfu Hfd props.
  destruct fuel as [|f]; [lia|].
  rewrite (dirty_unfold _ _ _ _ _ _ _ Hn). fold props.
  set (n1 := mark props tp tc n).
  set (st1 := with_heap (<[a := n1]> (heap st)) st).
  assert (heap st1 !! a = Some n1) as Hn1 by apply lookup_insert_eq.
  assert (∀ b, b ≠ a → heap st1 !! b = heap st !! b) as Hframe1.
  { intros b Hb. subst st1. cbn [heap with_heap]. by rewrite lookup_insert_ne. }
  assert (evolves st st1) as Hev1.
  { apply (evolves_insert st a n n1 Hn); [apply skeleton_mark|].
    subst n1. rewrite dirty_mark. set_solver. }
  assert (∀ b m, b ≠ a → heap st1 !! b = Some m → quiet m) as Hquiet1.
  { intros b m Hne Hb. rewrite Hframe1 in Hb by done. by eapply Hquiet. }
  destruct (defer (_dirty_propagation n)) eqn:Hdefer.
  - exists st1. split.
    { apply (propagate_with_deferring _ _ _ n1 Hn1). subst n1. by rewrite defer_mark. }
    split; [|split; [done|split; [|split; [done|done]]]].
    + split; [by eapply parents_ranked_evolves|].
      split; [by eapply children_ranked_evolves|].
      intros b m Hb. destruct (decide (b = a)) as [->|Hne]; [|by eapply Hquiet1].
      rewrite Hn1 in Hb. injection Hb as <-. intros Hd. subst n1.
      rewrite defer_mark in Hd. congruence.
    + rewrite (dirty_of_lookup _ _ _ Hn1). subst n1. by rewrite dirty_mark.
  - destruct (Hquiet a n Hn Hdefer) as [Hpp Hpc].
    assert (defer (_dirty_propagation n1) = false) as Hdefer1.
    { subst n1. by rewrite defer_mark. }
    rewrite (propagate_with_running _ _ _ n1 Hn1 Hdefer1).
    destruct (to_parent_effect up f st1 a n1)
      as (st2 & Hrun2 & Hev2 & Ha2 & Hframe2 & Hquiet2 & Hgot2 & Hskip2);
      [by eapply parents_ranked_evolves|done|lia|done|].
    rewrite (bind_ok _ _ _ _ _ Hrun2).
    set (n2 := put_propagation_parent ∅ n1) in *.
    destruct (to_children_effect down f st2 a n2)
      as (st3 & Hrun3 & Hev3 & Ha3 & Hframe3 & Hquiet3 & Hgot3 & Hskip3);
      [eapply children_ranked_evolves; [|exact Hdown]; by etrans|done|lia|done|].
    assert (evolves st st3) as Hev by (etrans; [exact Hev1|by etrans]).
    exists st3. split; [done|].
    split; [|split; [done|split; [|split; [done|intros _]]]].
    + split; [by eapply parents_ranked_evolves|].
      split; [by eapply children_ranked_evolves|].
      intros b m Hb. destruct (decide (b = a)) as [->|Hne]; [|by eapply Hquiet3].
      rewrite Ha3 in Hb. injection Hb as <-. intros _. by split.
    + rewrite (dirty_of_lookup _ _ _ Ha3). subst n2 n1.
      change (_dirty_properties (mark props tp tc n) = _dirty_properties n ∪ props).
      by rewrite dirty_mark.
    + split; [|split; [|split]].
      * intros -> p Hp. eapply dirty_of_evolves; [|exact Hev3].
        assert (parent (_dirty_propagation n1) = props) as Hpp1.
        { subst n1. rewrite parent_mark, Hpp. apply (left_id_L ∅ (∪)). }
        assert (_parent n1 = Some p) as Hp1.
        { subst n1. change (_parent (skeleton (mark props true tc n)) = Some p).
          by rewrite skeleton_mark. }
        pose proof (Hgot2 p Hp1) as Hgot. by rewrite Hpp1 in Hgot.
      * intros -> c Hc.
        assert (children (_dirty_propagation n2) = props) as Hpc2.
        { subst n2 n1.
          change (children (_dirty_propagation (mark props tp true n)) = props).
          rewrite children_mark, Hpc. apply (left_id_L ∅ (∪)). }
        assert (c ∈ _children n2) as Hc2.
        { subst n2 n1. change (c ∈ _children (skeleton (mark props tp true n))).
          by rewrite skeleton_mark. }
        pose proof (Hgot3 c Hc2) as Hgot. by rewrite Hpc2 in Hgot.
      * intros -> b Hne Hle. rewrite Hframe3 by done.
        rewrite Hskip2; [by apply Hframe1|]. subst n1. by rewrite parent_mark.
      * intros -> b Hne Hle.
        rewrite Hskip3; [by rewrite Hframe2, Hframe1|]. subst n2 n1.
        change (children (_dirty_propagation (mark props tp false n)) = ∅).
        by rewrite children_mark.
Qed.

(** *** The identity mutators *)

Lemma well_formed_b_correct up down st :
  well_formed_b up down st = true → well_formed up down st.
Proof.
  unfold well_formed_b. rewrite forallb_forall. intros Hall.
  assert (∀ a n, heap st !! a = Some n → node_ok_b up down st a n = true) as Hok.
  { intros a n Ha. apply (Hall (a, n)).
    apply list_elem_of_In. by apply elem_of_map_to_list. }
  split; [|split].
  - intros a n p Ha Hp. specialize (Hok a n Ha). unfold node_ok_b in Hok.
    rewrite Hp in Hok. apply andb_prop in Hok as [Hok _].
    apply andb_prop in Hok as [Hok _]. apply andb_prop in Hok as [H1 H2].
    apply bool_decide_eq_true in H1. by apply Nat.ltb_lt in H2.
  - intros a n c Ha Hc. specialize (Hok a n Ha). unfold node_ok_b in Hok.
    apply andb_prop in Hok as [Hok _]. apply andb_prop in Hok as [_ Hok].
    rewrite forallb_forall in Hok. apply list_elem_of_In in Hc.
    apply Hok in Hc. apply andb_prop in Hc as [H1 H2].
    apply bool_decide_eq_true in H1. by apply Nat.ltb_lt in H2.
  - intros a n Ha Hd. specialize (Hok a n Ha). unfold node_ok_b in Hok.
    apply andb_prop in Hok as [_ Hok]. rewrite Hd in Hok. simpl in Hok.
    apply andb_prop in Hok as [H1 H2]. unfold is_empty in *.
    by apply bool_decide_eq_true in H1, H2.
Qed.

Lemma well_formed_insert up down st a n n' :
  well_formed up down st → heap st !! a = Some n →
  _parent n' = _parent n → _children n' = _children n →
  _dirty_propagation n' = _dirty_propagation n →
  well_formed up down (with_heap (<[a := n']> (heap st)) st).
Proof.
  intros (Hup & Hdown & Hquiet) Ha Hp Hc Hd.
  assert (∀ b, is_Some (heap st !! b) →
               is_Some (heap (with_heap (<[a := n']> (heap st)) st) !! b)) as Hsome.
  { intros b Hb. cbn [heap with_heap]. destruct (decide (b = a)) as [->|Hne].
    - rewrite lookup_insert_eq. by eexists.
    - by rewrite lookup_insert_ne. }
  split; [|split].
  - intros b m p Hb Hpar. cbn [heap with_heap] in Hb.
    destruct (decide (b = a)) as [->|Hne].
    + rewrite lookup_insert_eq in Hb. injection Hb as <-. rewrite Hp in Hpar.
      destruct (Hup a n p Ha Hpar). split; [by apply Hsome|done].
    + rewrite lookup_insert_ne in Hb by done.
      destruct (Hup b m p Hb Hpar). split; [by apply Hsome|done].
  - intros b m c Hb Hch. cbn [heap with_heap] in Hb.
    destruct (decide (b = a)) as [->|Hne].
    + rewrite lookup_insert_eq in Hb. injection Hb as <-. rewrite Hc in Hch.
      destruct (Hdown a n c Ha Hch). split; [by apply Hsome|done].
    + rewrite lookup_insert_ne in Hb by done.
      destruct (Hdown b m c Hb Hch). split; [by apply Hsome|done].
  - intros b m Hb. cbn [heap with_heap] in Hb.
    destruct (decide (b = a)) as [->|Hne].
    + rewrite lookup_insert_eq in Hb. injection Hb as <-. unfold quiet.
      rewrite Hd. by apply (Hquiet a n).
    + rewrite lookup_insert_ne in Hb by done. by apply (Hquiet b m).
Qed.

Lemma bind_modify {B} a f (k : unit → M B) st :
  bind (modify a f) k st = k tt (with_heap (alter f a (heap st)) st).
Proof. done. Qed.

Lemma bind_get_node_insert {B} a n h (k : UI_Core → M B) st :
  bind (get_node a) k (with_heap (<[a := n]> h) st)
  = k n (with_heap (<[a := n]> h) st).
Proof. apply bind_ok, get_node_ok. apply lookup_insert_eq. Qed.

Lemma with_heap_alter_insert a (f : UI_Core → UI_Core) n h st :
  with_heap (alter f a (heap (with_heap (<[a := n]> h) st)))
            (with_heap (<[a := n]> h) st)
  = with_heap (<[a := f n]> h) st.
Proof.
  unfold with_heap. cbn [heap stylesheet trace]. f_equal.
  rewrite (alter_Some f a _ n) by apply lookup_insert_eq.
  by rewrite insert_insert_eq.
Qed.

Lemma mutation_keeps init self n c n' tc :
  identity_mutation init self n c n' tc →
  _parent n' = _parent n ∧ _children n' = _children n
  ∧ _dirty_propagation n' = _dirty_propagation n
  ∧ _dirty_properties n' = _dirty_properties n.
Proof. by destruct 1. Qed.

(** What an identity mutator that changes the object comes to: its
    assignment, then [dirty(parent=True, children=tc)] with no
    [properties]. *)
Lemma mutation_run init fuel self n c n' tc st :
  identity_mutation init self n c n' tc → heap st !! self = Some n →
  perform init fuel c st
  = dirty fuel self PNone true tc (with_heap (<[self := n']> (heap st)) st).
Proof.
  intros Hmut Hn.
  assert (∀ f : UI_Core → UI_Core,
            with_heap (alter f self (heap st)) st
            = with_heap (<[self := f n]> (heap st)) st) as Halt.
  { intros f. by rewrite (alter_Some f self _ n Hn). }
  destruct Hmut; simpl perform.
  - unfold id_setter. rewrite (bind_ok _ _ _ _ _ (get_node_ok _ _ _ Hn)).
    rewrite bool_decide_eq_false_2 by done. cbv beta iota zeta.
    by rewrite bind_modify, Halt.
  - unfold classes_setter. cbv zeta. rewrite (bind_ok _ _ _ _ _ (get_node_ok _ _ _ Hn)).
    rewrite bool_decide_eq_false_2 by done. cbv beta iota zeta.
    by rewrite bind_modify, Halt.
  - unfold add_class. rewrite (bind_ok _ _ _ _ _ (get_node_ok _ _ _ Hn)).
    rewrite bool_decide_eq_false_2 by done. cbv beta iota zeta.
    by rewrite bind_modify, Halt.
  - unfold del_class. rewrite (bind_ok _ _ _ _ _ (get_node_ok _ _ _ Hn)).
    rewrite bool_decide_eq_true_2 by done. cbn [negb]. cbv beta iota zeta.
    by rewrite bind_modify, Halt.
  - unfold clear_pseudoclass. rewrite (bind_ok _ _ _ _ _ (get_node_ok _ _ _ Hn)).
    unfold is_empty. rewrite bool_decide_eq_false_2 by done. cbv beta iota zeta.
    by rewrite bind_modify, Halt.
  - unfold add_pseudoclass. rewrite (bind_ok _ _ _ _ _ (get_node_ok _ _ _ Hn)).
    rewrite bool_decide_eq_false_2 by done. cbv beta iota zeta.
    by rewrite bind_modify, Halt.
  - unfold del_pseudoclass. rewrite (bind_ok _ _ _ _ _ (get_node_ok _ _ _ Hn)).
    rewrite bool_decide_eq_true_2 by done. cbn [negb]. cbv beta iota zeta.
    by rewrite bind_modify, Halt.
  - unfold style_setter.
    rewrite bind_modify, Halt, bind_get_node_insert.
    cbn [_style_str put_style_str]. rewrite H.
    by rewrite bind_modify, with_heap_alter_insert.
  - unfold add_style. rewrite (bind_ok _ _ _ _ _ (get_node_ok _ _ _ Hn)).
    unfold style_setter.
    rewrite bind_modify, Halt, bind_get_node_insert.
    cbn [_style_str put_style_str str_or_empty]. rewrite H.
    by rewrite bind_modify, with_heap_alter_insert.
Qed.

(** C6, counterexample: in the cleaned tree root -> mid -> leaf, where the
    dirty sets are [{size}], [mid.add_class('x')] leaves mid and leaf with
    [{style, size, content}], not with [{size} ∪ {style}]; and setting the
    inline style of mid dirties mid in the same way and leaves the leaf's
    dirty set as it was. *)
Lemma add_class_counterexample :
  let after_add := final_state (perform sample_parser 8 (CallAddClass 1 "x") family_state) in
  let after_style :=
    final_state (perform sample_parser 8 (CallSetStyle 1 (Some "margin:5")) family_state) in
  (dirty_of family_state 1 = {["size"]} ∧ dirty_of family_state 2 = {["size"]})
  ∧ (dirty_of after_add 1 = {["style"; "size"; "content"]}
     ∧ dirty_of after_add 2 = {["style"; "size"; "content"]})
  ∧ (dirty_of after_add 1 ≠ dirty_of family_state 1 ∪ {["style"]}
     ∧ dirty_of after_add 2 ≠ dirty_of family_state 2 ∪ {["style"]})
  ∧ (dirty_of after_style 1 = {["style"; "size"; "content"]}
     ∧ dirty_of after_style 2 = dirty_of family_state 2).
Proof.
  intros after_add after_style.
  repeat apply conj; try (vm_compute; exact eq_refl);
    match goal with
    | |- ?x ≠ ?y => apply (bool_decide_eq_false_1 (x = y)); vm_compute; exact eq_refl
    end.
Qed.

(** C6, amended: every identity mutator that changes the object calls
    [dirty] without [properties], so with the flag set
    [{style, size, content}]: the object's own dirty set gains all three
    flags.  The mutators of id, classes and pseudoclasses pass [parent=True]
    and [children=True], the setter of the inline style [parent=True] only.
    On a well-formed store: while the object defers propagation the flags
    are queued in its pending sets (for the children only when
    [children=True]) and nothing else changes; otherwise the call returns,
    the object its [_parent] attribute refers to ends with all three flags,
    with [children=True] so does every child, and with [children=False] no
    object outside the chain of parents changes. *)
Theorem identity_mutators_dirty_all init up down fuel st self n c n' tc :
  well_formed up down st → heap st !! self = Some n →
  up self < fuel → down self < fuel →
  identity_mutation init self n c n' tc →
  ∃ st', perform init fuel c st = Ok tt st'
     ∧ well_formed up down st'
     ∧ dirty_of st' self = _dirty_properties n ∪ all_properties
     ∧ (defer (_dirty_propagation n) = true →
        heap st' = <[self := mark all_properties true tc n']> (heap st))
     ∧ (defer (_dirty_propagation n) = false →
        (∀ p, _parent n = Some p → all_properties ⊆ dirty_of st' p)
        ∧ (tc = true → ∀ c, c ∈ _children n → all_properties ⊆ dirty_of st' c)
        ∧ (tc = false →
           ∀ b, b ≠ self → up self ≤ up b → heap st' !! b = heap st !! b)).
Proof.
  intros Hwf Hn Hup Hdown Hmut.
  destruct (mutation_keeps _ _ _ _ _ _ Hmut) as (Hp & Hc & Hprop & Hdirty).
  rewrite (mutation_run init fuel self n c n' tc st Hmut Hn).
  set (st0 := with_heap (<[self := n']> (heap st)) st).
  assert (heap st0 !! self = Some n') as Hn0 by apply lookup_insert_eq.
  destruct (dirty_spreads up down fuel st0 self n' PNone true tc)
    as (st' & Hrun & Hwf' & _ & Hself & Hdef & Hnodef);
    [by apply (well_formed_insert up down st self n n')|done|done|done|].
  exists st'. split; [done|]. split; [done|].
  split; [by rewrite Hself, Hdirty|]. split.
  - intros Hd. rewrite Hdef by (by rewrite Hprop). subst st0.
    cbn [heap with_heap]. by rewrite insert_insert_eq.
  - intros Hd. destruct Hnodef as (Hpar & Hch & _ & Hfr); [by rewrite Hprop|].
    split; [|split].
    + intros p Hpp. apply Hpar; [done|]. by rewrite Hp.
    + intros -> x Hx. apply Hch; [done|]. by rewrite Hc.
    + intros -> b Hne Hle. rewrite Hfr by done. subst st0.
      cbn [heap with_heap]. by rewrite lookup_insert_ne.
Qed.

Lemma identity_mutators_dirty_all_witness :
  ∃ st', perform sample_parser 8 (CallAddClass 1 "x") family_state = Ok tt st'
     ∧ dirty_of st' 1 = _dirty_properties family_mid ∪ all_properties
     ∧ all_properties ⊆ dirty_of st' 2.
Proof.
  destruct (identity_mutators_dirty_all sample_parser (fun _ => 0) (fun a => 3 - a)
              8 family_state 1 family_mid (CallAddClass 1 "x")
              (put_classes (_classes family_mid ∪ {["x"]}) family_mid) true)
    as (st' & Hrun & _ & Hself & _ & Hspread).
  - apply well_formed_b_correct. vm_compute. reflexivity.
  - vm_compute. reflexivity.
  - vm_compute. lia.
  - vm_compute. lia.
  - apply mutation_add_class. vm_compute. intros H. discriminate H.
  - exists st'. split; [exact Hrun|]. split; [exact Hself|].
    destruct Hspread as (_ & Hch & _); [vm_compute; reflexivity|].
    apply Hch; [reflexivity|].
    assert (_children family_mid = [2]) as -> by (vm_compute; reflexivity).
    apply list_elem_of_here.
Defined.

Import StylingFacts.

(** *** What every reachable state satisfies *)

#[global] Instance preserves_preorder I : PreOrder (preserves I).
Proof.
  split; [intros st H; exact H|].
  intros st1 st2 st3 H1 H2 H. exact (H2 (H1 H)).
Qed.

Lemma good_get_node {A} a (k : UI_Core → M A) :
  (∀ n, sound n → stable (preserves good) (k n)) →
  stable (preserves good) (bind (get_node a) k).
Proof.
  intros Hk st Hgood. unfold bind, get_node.
  destruct (heap st !! a) as [n|] eqn:Hn; [|done].
  apply (Hk n); [|done]. by apply (proj1 Hgood a n).
Qed.

Lemma good_modify a f :
  (∀ n, sound n → sound (f n)) → stable (preserves good) (modify a f).
Proof.
  intros Hf st [Hinv Htr]. split; [|done].
  by apply (keeps_modify sound a f Hf st).
Qed.

Lemma good_log e : to_parent e = false → stable (preserves good) (log e).
Proof.
  intros He st [Hinv Htr]. split; [done|]. simpl.
  apply Forall_app. split; [done|]. by constructor.
Qed.

Lemma good_alloc n : sound n → stable (preserves good) (alloc n).
Proof.
  intros Hn st [Hinv Htr]. split; [|done].
  by apply (keeps_alloc sound n Hn st).
Qed.

Lemma list_remove_sublist x l : list_remove x l `sublist_of` l.
Proof.
  induction l as [|y l IH]; simpl; [done|].
  case_bool_decide; [by apply sublist_cons|by apply sublist_skip].
Qed.

Lemma sound_new_node t d : sound (new_node t d).
Proof.
  repeat split; simpl; try done.
  all: try (unfold all_properties; set_solver).
  all: try constructor.
Qed.

(** The assignments of the methods, one by one. *)
Ltac sound_tac H :=
  destruct H as ([? ?] & ? & ? & ? & ? & ?);
  repeat split; simpl;
  first [ assumption
        | done
        | by eapply sublist_NoDup; [eassumption|apply list_remove_sublist]
        | set_solver
        | by intros ? [= <-] ].

Ltac good_leaf :=
  first [ apply good_log; reflexivity
        | apply good_modify;
          let m := fresh "m" in
          let Hm := fresh "Hm" in
          intros m Hm; sound_tac Hm ].

(** Reading an object of a [good] state: it has no parent. *)
Ltac good_node :=
  lazymatch goal with
  | |- stable ?R (bind (ret ?x) ?k) => change (stable R (k x)); cbv beta
  | |- stable _ (bind (get_node _) _) =>
      apply good_get_node;
      let n := fresh "n" in
      let H := fresh "Hs" in
      intros n H;
      let Hp := fresh "Hp" in
      pose proof (proj2 (proj1 H)) as Hp;
      rewrite ?Hp; cbv beta iota
  end.

Ltac good_auto extra := stable_auto ltac:(first [good_node | extra | good_leaf]).

Lemma propagate_with_good dirty_rec self :
  (∀ a p tp tc, stable (preserves good) (dirty_rec a p tp tc)) →
  stable (preserves good) (propagate_with dirty_rec self).
Proof.
  intros Hrec. unfold propagate_with, propagate_to_parent, propagate_to_children.
  good_auto ltac:(apply Hrec).
Qed.

Lemma dirty_good fuel self properties tp tc :
  stable (preserves good) (dirty fuel self properties tp tc).
Proof.
  revert self properties tp tc.
  induction fuel as [|fuel IH]; intros self properties tp tc; simpl.
  { stable_auto fail. }
  good_auto ltac:(by apply propagate_with_good).
Qed.

Lemma defer_setter_good fuel self v :
  stable (preserves good) (defer_dirty_propagation_setter fuel self v).
Proof.
  unfold defer_dirty_propagation_setter, propagate_dirtiness.
  good_auto ltac:(apply propagate_with_good; intros; apply dirty_good).
Qed.

Lemma _compute_style_good fuel self :
  stable (preserves good) (_compute_style fuel self).
Proof.
  revert self. induction fuel as [|fuel IH]; intros self; simpl.
  { stable_auto fail. }
  good_auto ltac:(first [apply IH | apply defer_setter_good | apply dirty_good]).
Qed.

Lemma _compute_content_good fuel self :
  stable (preserves good) (_compute_content fuel self).
Proof.
  revert self. induction fuel as [|fuel IH]; intros self; simpl.
  { stable_auto fail. }
  good_auto ltac:(first [apply IH | apply defer_setter_good | apply dirty_good]).
Qed.

Lemma _compute_preferred_size_good fuel self :
  stable (preserves good) (_compute_preferred_size fuel self).
Proof.
  revert self. induction fuel as [|fuel IH]; intros self; simpl.
  { stable_auto fail. }
  good_auto ltac:(first [apply IH | apply defer_setter_good | apply dirty_good]).
Qed.

Lemma layout_good fuel self : stable (preserves good) (layout fuel self).
Proof.
  revert self. induction fuel as [|fuel IH]; intros self; simpl.
  { stable_auto fail. }
  unfold layout_sizes, _get_style_trbl, _get_style_num.
  good_auto ltac:(apply IH).
Qed.

Lemma delete_child_good fuel self child :
  stable (preserves good) (delete_child fuel self child).
Proof. unfold delete_child. good_auto ltac:(apply dirty_good). Qed.

Lemma style_setter_good init fuel self style :
  stable (preserves good) (style_setter init fuel self style).
Proof. unfold style_setter. good_auto ltac:(apply dirty_good). Qed.

Lemma append_child_good fuel self child :
  stable (preserves good) (append_child fuel self child).
Proof.
  intros st Hgood. unfold append_child.
  unfold bind at 1, get_node at 1.
  destruct (heap st !! self) as [n|] eqn:Hn; [|done].
  case_bool_decide as Hin; [done|].
  unfold bind at 1. unfold bind at 1. unfold bind at 1, get_node at 1.
  destruct (heap st !! child) as [c|] eqn:Hc; [|done].
  destruct (proj1 Hgood child c Hc) as ([_ ->] & _). cbv beta iota. unfold ret at 1.
  rewrite modify_ok.
  set (st1 := with_heap _ st).
  assert (good st1) as Hgood1.
  { destruct Hgood as [Hinv Htr]. split; [|done].
    intros b m. subst st1. cbn [heap with_heap].
    destruct (decide (b = self)) as [->|Hne].
    - rewrite lookup_alter_eq, Hn. simpl. intros [= <-].
      destruct (Hinv self n Hn) as ([? ?] & ? & ? & ? & Hnd & ?).
      repeat split; simpl; try done.
      apply NoDup_app. split; [done|]. split; [|apply NoDup_singleton].
      intros x Hx Hx'. apply list_elem_of_singleton in Hx' as ->. done.
    - rewrite lookup_alter_ne by done. apply Hinv. }
  assert (stable (preserves good)
            (dirty fuel child PNone true false >> dirty fuel self PNone true false))
    as Hrest by (good_auto ltac:(apply dirty_good)).
  exact (Hrest st1 Hgood1).
Qed.

Lemma perform_good init fuel c : stable (preserves good) (perform init fuel c).
Proof.
  destruct c; simpl;
    unfold __init__, load_stylesheet, clean, clear_children, defer_dirty,
      add_style, id_setter, classes_setter, add_class, del_class,
      clear_pseudoclass, add_pseudoclass, del_pseudoclass, position,
      propagate_dirtiness, _get_style_trbl, _get_style_num;
    good_auto ltac:(first
      [ apply style_setter_good | apply append_child_good
      | apply delete_child_good | apply defer_setter_good
      | apply _compute_style_good | apply _compute_content_good
      | apply _compute_preferred_size_good | apply layout_good
      | apply dirty_good
      | apply propagate_with_good; intros; apply dirty_good
      | apply good_alloc, sound_new_node
      | by intros st Hinv ]).
Qed.

Lemma reachable_good init st : reachable init st → good st.
Proof.
  induction 1 as [|st fuel c _ IH]; [|by apply perform_good].
  split; [by intros b n|constructor].
Qed.

(** X8: the property [id] never reads back a string: in every state a
    program can reach, the [_id] of an object is [None] (while [__init__]
    runs) or the builtin function [id]. *)
Theorem id_is_never_a_string init st a n :
  reachable init st → heap st !! a = Some n →
  (∀ s, id_getter n ≠ IdStr s)
  ∧ (sel_id (_id n) = "" ∨ sel_id (_id n) = "#<built-in function id>").
Proof.
  intros Hreach Ha.
  destruct (proj1 (reachable_good _ _ Hreach) a n Ha) as (_ & _ & Hid & _).
  split; [exact Hid|]. unfold id_getter in Hid.
  destruct (_id n) as [|s|]; [by left|by destruct (Hid s)|by right].
Qed.

Lemma id_is_never_a_string_witness :
  (∀ s, id_getter family_mid ≠ IdStr s)
  ∧ (sel_id (_id family_mid) = "" ∨ sel_id (_id family_mid) = "#<built-in function id>").
Proof.
  apply (id_is_never_a_string sample_parser family_state 1 family_mid).
  - unfold family_state. apply reachable_run_calls. apply reachable_initial.
  - vm_compute. reflexivity.
Defined.

Lemma sound_is_dirty n : sound n → is_dirty n = true.
Proof.
  intros (_ & _ & _ & Hsize & _). unfold is_dirty, is_empty.
  rewrite (bool_decide_eq_false_2 (_dirty_properties n = ∅)); [done|].
  intros Hempty. rewrite Hempty in Hsize. by apply not_elem_of_empty in Hsize.
Qed.

(** X9: no method removes [size] from a dirty set.  In every state a
    program can reach, every object has [size] in [_dirty_properties], so
    [is_dirty] is true of it and [clean] takes neither of its early
    returns: the three steps run. *)
Theorem size_stays_dirty init st a n :
  reachable init st → heap st !! a = Some n →
  "size" ∈ _dirty_properties n
  ∧ is_dirty n = true
  ∧ ∀ fuel, clean fuel a st
            = (_compute_style fuel a >> _compute_content fuel a >>
               _compute_preferred_size fuel a) st.
Proof.
  intros Hreach Ha.
  pose proof (proj1 (reachable_good _ _ Hreach) a n Ha) as Hsound.
  pose proof (sound_is_dirty n Hsound) as Hdirty.
  destruct Hsound as (_ & Hdefer & _ & Hsize & _).
  split; [done|]. split; [done|]. intros fuel.
  unfold clean. rewrite (bind_ok _ _ _ _ _ (get_node_ok _ _ _ Ha)).
  by rewrite Hdirty, Hdefer.
Qed.

Lemma size_stays_dirty_witness :
  "size" ∈ _dirty_properties family_mid
  ∧ is_dirty family_mid = true
  ∧ ∀ fuel, clean fuel 1 family_state
            = (_compute_style fuel 1 >> _compute_content fuel 1 >>
               _compute_preferred_size fuel 1) family_state.
Proof.
  apply (size_stays_dirty sample_parser family_state 1 family_mid).
  - unfold family_state. apply reachable_run_calls. apply reachable_initial.
  - vm_compute. reflexivity.
Defined.

(** X10: no method assigns an object to [_parent]: in every state a program
    can reach, every object has [_parent] [None], its selector chain, once
    computed, has one element, and [propagate_dirtiness] has taken no step
    towards a parent. *)
Theorem parent_is_never_assigned init st :
  reachable init st →
  (∀ a n, heap st !! a = Some n →
     _parent n = None ∧ ∀ l, _selector n = Some l → length l = 1)
  ∧ steps_to_parent st = [].
Proof.
  intros Hreach. destruct (reachable_good _ _ Hreach) as [Hinv Htr]. split.
  - intros a n Ha. destruct (Hinv a n Ha) as ([_ Hp] & _ & _ & _ & _ & Hsel).
    by split.
  - unfold steps_to_parent.
    induction (trace st) as [|e t IH]; [done|].
    apply Forall_cons in Htr as [He Htr].
    rewrite filter_cons_False by congruence. by apply IH.
Qed.

Lemma parent_is_never_assigned_witness :
  (∀ a n, heap family_state !! a = Some n →
     _parent n = None ∧ ∀ l, _selector n = Some l → length l = 1)
  ∧ steps_to_parent family_state = [].
Proof.
  apply (parent_is_never_assigned sample_parser family_state).
  unfold family_state. apply reachable_run_calls. apply reachable_initial.
Defined.

(** X11: a child list never holds an object twice, in any state a program
    can reach. *)
Theorem children_have_no_duplicates init st a n :
  reachable init st → heap st !! a = Some n → NoDup (_children n).
Proof.
  intros Hreach Ha.
  by destruct (proj1 (reachable_good _ _ Hreach) a n Ha) as (_ & _ & _ & _ & Hnd & _).
Qed.

Lemma children_have_no_duplicates_witness : NoDup (_children family_mid).
Proof.
  apply (children_have_no_duplicates sample_parser family_state 1 family_mid).
  - unfold family_state. apply reachable_run_calls. apply reachable_initial.
  - vm_compute. reflexivity.
Defined.

(** *** Laws of [dirty] *)

(** X12: whatever the store looks like and whether the call returns or
    raises, [dirty] creates and deletes no object, leaves the stylesheet and
    every attribute other than the dirty set and the two pending sets as
    they were, and removes no flag from any dirty set. *)
Theorem dirty_only_adds_flags fuel self properties tp tc st :
  let st' := final_state (dirty fuel self properties tp tc st) in
  stylesheet st' = stylesheet st
  ∧ dom (heap st') = dom (heap st)
  ∧ ∀ b n, heap st !! b = Some n →
      ∃ n', heap st' !! b = Some n' ∧ skeleton n' = skeleton n
            ∧ _dirty_properties n ⊆ _dirty_properties n'.
Proof.
  intros st'. pose proof (dirty_evolves fuel self properties tp tc st) as Hev.
  fold st' in Hev. split; [apply Hev|]. split.
  - destruct Hev as (_ & _ & H). apply set_eq. intros b. rewrite !elem_of_dom.
    specialize (H b).
    destruct (heap st !! b), (heap st' !! b); try done;
      split; intros [x Hx]; try done; by eexists.
  - intros b n. by apply evolves_lookup.
Qed.

(** X13: on a store whose references form a forest and whose objects are at
    rest, [dirty] returns when the recursion limit exceeds the depth of the
    forest.  The object gains the flags; while it defers propagation they
    are queued in its pending sets and nothing else changes; otherwise its
    parent (with [parent=True]) and its children (with [children=True])
    gain them as well, and the store is a forest at rest again. *)
Theorem dirty_returns_on_forest (up down : addr → nat) fuel st a n properties tp tc :
  well_formed up down st → heap st !! a = Some n →
  up a < fuel → down a < fuel →
  ∃ st', dirty fuel a properties tp tc st = Ok tt st'
     ∧ well_formed up down st'
     ∧ dirty_of st' a = _dirty_properties n ∪ properties_set properties
     ∧ (defer (_dirty_propagation n) = true →
        heap st' = <[a := mark (properties_set properties) tp tc n]> (heap st))
     ∧ (defer (_dirty_propagation n) = false →
        (tp = true → ∀ p, _parent n = Some p →
           properties_set properties ⊆ dirty_of st' p)
        ∧ (tc = true → ∀ c, c ∈ _children n →
             properties_set properties ⊆ dirty_of st' c)).
Proof.
  intros Hwf Hn Hup Hdown.
  destruct (dirty_spreads up down fuel st a n properties tp tc Hwf Hn Hup Hdown)
    as (st' & Hrun & Hwf' & _ & Hself & Hdef & Hnodef).
  exists st'. split; [done|]. split; [done|]. split; [done|]. split; [done|].
  intros Hd. destruct (Hnodef Hd) as (Hp & Hc & _). by split.
Qed.

Lemma dirty_returns_on_forest_witness :
  ∃ st', dirty 8 1 (PStr "content") true true family_state = Ok tt st'
     ∧ dirty_of st' 1 = _dirty_properties family_mid ∪ {["content"]}
     ∧ {["content"]} ⊆ dirty_of st' 2.
Proof.
  destruct (dirty_returns_on_forest (fun _ => 0) (fun a => 3 - a)
              8 family_state 1 family_mid (PStr "content") true true)
    as (st' & Hrun & _ & Hself & _ & Hspread).
  - apply well_formed_b_correct. vm_compute. reflexivity.
  - vm_compute. reflexivity.
  - vm_compute. lia.
  - vm_compute. lia.
  - exists st'. split; [exact Hrun|]. split; [exact Hself|].
    destruct Hspread as (_ & Hch); [vm_compute; reflexivity|].
    apply Hch; [reflexivity|].
    assert (_children family_mid = [2]) as -> by (vm_compute; reflexivity).
    apply list_elem_of_here.
Defined.

Lemma parents_ranked_insert up st a n n' :
  parents_ranked up st → heap st !! a = Some n → _parent n' = _parent n →
  parents_ranked up (with_heap (<[a := n']> (heap st)) st).
Proof.
  intros Hup Ha Hp b m p Hb Hpar. cbn [heap with_heap] in *.
  assert (is_Some (heap st !! p) ∧ up p < up b) as [Hsome Hlt].
  { destruct (decide (b = a)) as [->|Hne].
    - rewrite lookup_insert_eq in Hb. injection Hb as <-. rewrite Hp in Hpar.
      by apply (Hup a n p).
    - rewrite lookup_insert_ne in Hb by done. by apply (Hup b m p). }
  split; [|done]. destruct (decide (p = a)) as [->|Hne].
  - rewrite lookup_insert_eq. by eexists.
  - by rewrite lookup_insert_ne.
Qed.

Lemma children_ranked_insert down st a n n' :
  children_ranked down st → heap st !! a = Some n →
  (∀ c, c ∈ _children n' → c ∈ _children n) →
  children_ranked down (with_heap (<[a := n']> (heap st)) st).
Proof.
  intros Hdown Ha Hc b m c Hb Hch. cbn [heap with_heap] in *.
  assert (is_Some (heap st !! c) ∧ down c < down b) as [Hsome Hlt].
  { destruct (decide (b = a)) as [->|Hne].
    - rewrite lookup_insert_eq in Hb. injection Hb as <-.
      apply (Hdown a n c); [done|]. by apply Hc.
    - rewrite lookup_insert_ne in Hb by done. by apply (Hdown b m c). }
  split; [|done]. destruct (decide (c = a)) as [->|Hne].
  - rewrite lookup_insert_eq. by eexists.
  - by rewrite lookup_insert_ne.
Qed.

(** X14: switching deferral off flushes what was queued.  On a store whose
    references form a forest and whose other objects are at rest,
    [defer_dirty_propagation = False] returns; the flags pending for the
    parent reach the parent, the flags pending for the children reach every
    child, and the object is left with both pending sets empty. *)
Theorem defer_release_flushes (up down : addr → nat) fuel st a n :
  well_formed up down st → heap st !! a = Some n →
  up a ≤ fuel → down a ≤ fuel →
  ∃ st', defer_dirty_propagation_setter fuel a false st = Ok tt st'
     ∧ well_formed up down st'
     ∧ heap st' !! a
       = Some (put_propagation_children ∅ (put_propagation_parent ∅ (put_defer false n)))
     ∧ (∀ p, _parent n = Some p → parent (_dirty_propagation n) ⊆ dirty_of st' p)
     ∧ (∀ c, c ∈ _children n → children (_dirty_propagation n) ⊆ dirty_of st' c).
Proof.
  intros (Hup & Hdown & Hquiet) Hn Hfu Hfd.
  unfold defer_dirty_propagation_setter. rewrite bind_modify.
  rewrite (alter_Some _ _ _ _ Hn).
  set (n1 := put_defer false n).
  set (st1 := with_heap (<[a := n1]> (heap st)) st).
  assert (heap st1 !! a = Some n1) as Hn1 by apply lookup_insert_eq.
  assert (∀ b, b ≠ a → heap st1 !! b = heap st !! b) as Hframe1.
  { intros b Hb. subst st1. cbn [heap with_heap]. by rewrite lookup_insert_ne. }
  assert (parents_ranked up st1) as Hup1 by (by apply (parents_ranked_insert up st a n n1)).
  assert (children_ranked down st1) as Hdown1
    by (by apply (children_ranked_insert down st a n n1)).
  assert (∀ b m, b ≠ a → heap st1 !! b = Some m → quiet m) as Hquiet1.
  { intros b m Hne Hb. rewrite Hframe1 in Hb by done. by eapply Hquiet. }
  unfold propagate_dirtiness.
  rewrite (propagate_with_running _ _ _ n1 Hn1 eq_refl).
  destruct (to_parent_effect up fuel st1 a n1 Hup1 Hn1 Hfu Hquiet1)
    as (st2 & Hrun2 & Hev2 & Ha2 & Hframe2 & Hquiet2 & Hgot2 & _).
  rewrite (bind_ok _ _ _ _ _ Hrun2).
  set (n2 := put_propagation_parent ∅ n1) in *.
  destruct (to_children_effect down fuel st2 a n2)
    as (st3 & Hrun3 & Hev3 & Ha3 & Hframe3 & Hquiet3 & Hgot3 & _);
    [by eapply children_ranked_evolves|done|done|done|].
  exists st3. split; [done|]. split; [|split; [done|split]].
  - split; [|split].
    + eapply parents_ranked_evolves; [|exact Hup1]. by etrans.
    + eapply children_ranked_evolves; [|exact Hdown1]. by etrans.
    + intros b m Hb. destruct (decide (b = a)) as [->|Hne]; [|by eapply Hquiet3].
      rewrite Ha3 in Hb. injection Hb as <-. intros _. by split.
  - intros p Hp. eapply dirty_of_evolves; [|exact Hev3]. by apply Hgot2.
  - intros c Hc. by apply Hgot3.
Qed.

Ltac unfold_marks :=
  cbv [mark put_defer put_propagation_parent
    put_propagation_children put_dirty_propagation put_dirty_properties
    selector_type default_style _parent _children _selector _id _classes
    _pseudoclasses _custom_style _style_str _is_visible _computed_styles
    _preferred_width _preferred_height _content_width _content_height
    _l _t _w _h _dirty_properties _dirty_propagation _defer_clean _defer_recalc
    _defer_dirty _is_dirty defer parent children].

Lemma defer_release_flushes_witness :
  ∃ st', defer_dirty_propagation_setter 8 1 false family_deferring = Ok tt st'
     ∧ dirty_of family_deferring 2 = {["size"]}
     ∧ all_properties ⊆ dirty_of st' 2.
Proof.
  destruct (defer_release_flushes (fun _ => 0) (fun a => 3 - a) 8 family_deferring 1
              (default (new_node "" (Sheet [])) (heap family_deferring !! 1)))
    as (st' & Hrun & _ & _ & _ & Hch).
  - apply well_formed_b_correct. vm_compute. reflexivity.
  - vm_compute. reflexivity.
  - vm_compute. lia.
  - vm_compute. lia.
  - exists st'. split; [exact Hrun|]. split; [vm_compute; reflexivity|].
    assert (children (_dirty_propagation
                        (default (new_node "" (Sheet [])) (heap family_deferring !! 1)))
            = all_properties) as <- by (vm_compute; reflexivity).
    apply Hch. vm_compute. apply list_elem_of_here.
Defined.

Lemma mark_mark P1 P2 tp tc n :
  defer (_dirty_propagation n) = false →
  put_defer false (mark P2 tp tc (mark P1 tp tc (put_defer true n)))
  = mark (P1 ∪ P2) tp tc n.
Proof.
  destruct n as [? ? ? ? ? ? ? ? ? ? ? ? ? ? ? ? ? ? ? ? dp [d pp pc] ? ? ? ?].
  cbn [defer _dirty_propagation]. intros ->.
  destruct tp, tc; unfold_marks;
    rewrite <- ?(assoc_L (∪) dp P1 P2), <- ?(assoc_L (∪) pp P1 P2),
      <- ?(assoc_L (∪) pc P1 P2);
    reflexivity.
Qed.

Lemma with_heap_with_heap h1 h2 st : with_heap h1 (with_heap h2 st) = with_heap h1 st.
Proof. done. Qed.

Lemma deferring_dirty fuel self properties tp tc h st n :
  defer (_dirty_propagation n) = true →
  dirty (S fuel) self properties tp tc (with_heap (<[self := n]> h) st)
  = Ok tt (with_heap (<[self := mark (properties_set properties) tp tc n]> h) st).
Proof.
  intros Hd.
  rewrite (dirty_unfold _ _ _ _ _ _ n) by apply lookup_insert_eq.
  cbn [heap with_heap]. rewrite insert_insert_eq, with_heap_with_heap.
  apply (propagate_with_deferring _ _ _ (mark (properties_set properties) tp tc n)).
  - apply lookup_insert_eq.
  - by rewrite defer_mark.
Qed.

(** X15: deferral batches.  For an object that is not deferring,
    [defer_dirty_propagation = True], two calls of [dirty] and
    [defer_dirty_propagation = False] come to one call of [dirty] with the
    union of the two flag sets: the same result, the same final state and
    the same propagation steps, on every store. *)
Theorem deferred_dirty_batches f0 f1 f2 g st self n p1 p2 tp tc :
  heap st !! self = Some n → defer (_dirty_propagation n) = false →
  (defer_dirty_propagation_setter f0 self true >>
   dirty (S f1) self p1 tp tc >>
   dirty (S f2) self p2 tp tc >>
   defer_dirty_propagation_setter g self false) st
  = dirty (S g) self (PSet (properties_set p1 ∪ properties_set p2)) tp tc st.
Proof.
  intros Hn Hdefer.
  set (n1 := put_defer true n).
  assert (defer_dirty_propagation_setter f0 self true st
          = Ok tt (with_heap (<[self := n1]> (heap st)) st)) as H1.
  { unfold defer_dirty_propagation_setter. rewrite bind_modify.
    rewrite (alter_Some _ _ _ _ Hn).
    apply (propagate_with_deferring _ _ _ n1); [apply lookup_insert_eq|done]. }
  rewrite (bind_ok _ _ _ _ _ H1).
  rewrite (bind_ok _ _ _ _ _ (deferring_dirty f1 self p1 tp tc _ st n1 eq_refl)).
  assert (defer (_dirty_propagation (mark (properties_set p1) tp tc n1)) = true)
    as Hd1 by (by rewrite defer_mark).
  rewrite (bind_ok _ _ _ _ _ (deferring_dirty f2 self p2 tp tc _ st _ Hd1)).
  unfold defer_dirty_propagation_setter. rewrite bind_modify.
  rewrite with_heap_alter_insert. subst n1. rewrite mark_mark by done.
  unfold propagate_dirtiness.
  by rewrite (dirty_unfold g self _ tp tc st n Hn).
Qed.

Lemma deferred_dirty_batches_witness :
  (defer_dirty_propagation_setter 8 1 true >>
   dirty 8 1 (PStr "style") true true >>
   dirty 8 1 (PStr "content") true true >>
   defer_dirty_propagation_setter 7 1 false) family_state
  = dirty 8 1 (PSet ({["style"]} ∪ {["content"]})) true true family_state.
Proof.
  apply (deferred_dirty_batches 8 7 7 7 family_state 1 family_mid
           (PStr "style") (PStr "content") true true).
  - vm_compute. reflexivity.
  - vm_compute. reflexivity.
Defined.

Lemma mark_empty tp tc n : mark ∅ tp tc n = n.
Proof.
  destruct n as [? ? ? ? ? ? ? ? ? ? ? ? ? ? ? ? ? ? ? ? dp [d pp pc] ? ? ? ?].
  destruct tp, tc; unfold_marks;
    rewrite ?(right_id_L ∅ (∪) dp), ?(right_id_L ∅ (∪) pp), ?(right_id_L ∅ (∪) pc);
    reflexivity.
Qed.

Lemma with_heap_id st : with_heap (heap st) st = st.
Proof. by destruct st. Qed.

(** X16: [dirty] with an empty collection of flags changes nothing and
    returns, for an object at rest (one that defers propagation, or has
    nothing pending). *)
Theorem dirty_nothing_is_noop fuel st a n properties tp tc :
  heap st !! a = Some n → quiet n → properties_set properties = ∅ →
  dirty (S fuel) a properties tp tc st = Ok tt st.
Proof.
  intros Hn Hquiet Hempty.
  rewrite (dirty_unfold _ _ _ _ _ _ _ Hn), Hempty, mark_empty.
  rewrite (insert_id _ _ _ Hn), with_heap_id.
  destruct (defer (_dirty_propagation n)) eqn:Hd.
  - by apply (propagate_with_deferring _ _ _ n).
  - destruct (Hquiet Hd) as [Hpp Hpc].
    rewrite (propagate_with_running _ _ _ n Hn Hd).
    rewrite (bind_ok _ _ _ _ _ (to_parent_skip _ _ _ n Hn Hpp)).
    by apply (to_children_skip _ _ _ n).
Qed.

Lemma dirty_nothing_is_noop_witness :
  dirty 3 1 (PList []) true true family_state = Ok tt family_state.
Proof.
  apply (dirty_nothing_is_noop 2 family_state 1 family_mid (PList []) true true).
  - vm_compute. reflexivity.
  - intros _. split; vm_compute; reflexivity.
  - reflexivity.
Defined.

(** *** An object among its own children *)

(** X17: once an object without parent heads its own child list and does
    not defer propagation, [dirty] with [children=True] (so every mutator
    of id, classes and pseudoclasses) never returns: whatever the recursion
    limit, a call with at least one flag raises [RecursionError]. *)
Theorem own_child_never_returns fuel : ∀ st a n properties tp rest,
  heap st !! a = Some n → _parent n = None → _children n = a :: rest →
  defer (_dirty_propagation n) = false →
  properties_set properties ≠ ∅ →
  ∃ st', dirty fuel a properties tp true st = Raise RecursionError st'.
Proof.
  induction fuel as [|f IH]; intros st a n properties tp rest Hn Hpar Hch Hdefer Hprops.
  { by exists st. }
  rewrite (dirty_unfold _ _ _ _ _ _ _ Hn).
  set (P := properties_set properties) in *.
  set (n1 := mark P tp true n).
  set (st1 := with_heap (<[a := n1]> (heap st)) st).
  assert (heap st1 !! a = Some n1) as Hn1 by apply lookup_insert_eq.
  assert (defer (_dirty_propagation n1) = false) as Hd1
    by (subst n1; by rewrite defer_mark).
  assert (_parent n1 = None) as Hp1.
  { subst n1. change (_parent (skeleton (mark P tp true n)) = None).
    by rewrite skeleton_mark. }
  assert (_children n1 = a :: rest) as Hc1.
  { subst n1. change (_children (skeleton (mark P tp true n)) = a :: rest).
    by rewrite skeleton_mark. }
  assert (children (_dirty_propagation n1) ≠ ∅) as Hpend1.
  { subst n1. rewrite children_mark. set_solver. }
  rewrite (propagate_with_running _ _ _ n1 Hn1 Hd1).
  assert (∃ st2 n2, propagate_to_parent (dirty f) a st1 = Ok tt st2
            ∧ heap st2 !! a = Some n2 ∧ _parent n2 = None
            ∧ _children n2 = a :: rest ∧ defer (_dirty_propagation n2) = false
            ∧ children (_dirty_propagation n2) ≠ ∅)
    as (st2 & n2 & Hrun2 & Hn2 & Hp2 & Hc2 & Hd2 & Hpend2).
  { destruct (decide (parent (_dirty_propagation n1) = ∅)) as [He|Hne].
    - exists st1, n1. by rewrite (to_parent_skip _ _ _ n1 Hn1 He).
    - exists (with_heap (alter (put_propagation_parent ∅) a (heap st1)) st1),
        (put_propagation_parent ∅ n1).
      rewrite (to_parent_root _ _ _ n1 Hn1 Hne Hp1).
      split; [done|]. cbn [heap with_heap]. by rewrite lookup_alter_eq, Hn1. }
  rewrite (bind_ok _ _ _ _ _ Hrun2).
  unfold propagate_to_children.
  rewrite (bind_ok _ _ _ _ _ (get_node_ok _ _ _ Hn2)).
  unfold is_empty. rewrite bool_decide_eq_false_2 by done.
  cbn [negb when]. rewrite Hc2. cbn [for_each].
  unfold bind at 1. unfold bind at 1.
  rewrite (bind_ok _ _ _ _ _ (get_node_ok _ _ _ Hn2)).
  unfold bind at 1, log at 1.
  fold (logged (Propagated a a (children (_dirty_propagation n2)) false) st2).
  destruct (IH (logged (Propagated a a (children (_dirty_propagation n2)) false) st2)
              a n2 (PSet (children (_dirty_propagation n2))) false rest)
    as (st' & Hraise); try done.
  exists st'. by rewrite Hraise.
Qed.

(** [x.append_child(x)] leaves such a store. *)
Lemma own_child_never_returns_witness :
  ∃ st', dirty 8 0 PNone true true own_child_state = Raise RecursionError st'.
Proof.
  apply (own_child_never_returns 8 own_child_state 0
           (default (new_node "" (Sheet [])) (heap own_child_state !! 0))
           PNone true []).
  - vm_compute. reflexivity.
  - vm_compute. reflexivity.
  - vm_compute. reflexivity.
  - vm_compute. reflexivity.
  - apply (bool_decide_eq_true_1 (properties_set PNone ≠ ∅)). vm_compute. reflexivity.
Defined.

(** *** The class list *)

Lemma final_state_bind_modify {B} a f (k : unit → M B) st :
  final_state (bind (modify a f) k st)
  = final_state (k tt (with_heap (alter f a (heap st)) st)).
Proof. done. Qed.

Lemma classes_after_dirty fuel self p tp tc st n :
  heap st !! self = Some n →
  ∃ n', heap (final_state (dirty fuel self p tp tc st)) !! self = Some n'
        ∧ _classes n' = _classes n.
Proof.
  intros Hn.
  destruct (evolves_lookup _ _ _ _ (dirty_evolves fuel self p tp tc st) Hn)
    as (n' & Hn' & Hsk & _).
  exists n'. split; [done|].
  change (_classes (skeleton n') = _classes (skeleton n)). by rewrite Hsk.
Qed.

(** X18: [add_class] and [del_class] on the class set, whether the calls
    return or raise.  After [add_class(cls)] the object has the class, and
    a second [add_class(cls)] returns at once and changes nothing; if the
    object did not have the class, [del_class(cls)] after [add_class(cls)]
    restores the class set. *)
Theorem add_class_del_class fuel fuel' st self n cls :
  heap st !! self = Some n →
  let st1 := final_state (add_class fuel self cls st) in
  let st2 := final_state (del_class fuel' self cls st1) in
  (∃ n1, heap st1 !! self = Some n1 ∧ _classes n1 = _classes n ∪ {[cls]})
  ∧ add_class fuel' self cls st1 = Ok tt st1
  ∧ (cls ∉ _classes n → ∃ n2, heap st2 !! self = Some n2 ∧ _classes n2 = _classes n).
Proof.
  intros Hn st1 st2.
  assert (∃ n1, heap st1 !! self = Some n1 ∧ _classes n1 = _classes n ∪ {[cls]})
    as (n1 & Hn1 & Hc1).
  { subst st1. unfold add_class.
    rewrite (bind_ok _ _ _ _ _ (get_node_ok _ _ _ Hn)).
    case_bool_decide as Hin.
    - exists n. split; [done|]. set_solver.
    - rewrite final_state_bind_modify, (alter_Some _ _ _ _ Hn).
      destruct (classes_after_dirty fuel self PNone true true
                  (with_heap (<[self := put_classes (_classes n ∪ {[cls]}) n]> (heap st)) st)
                  (put_classes (_classes n ∪ {[cls]}) n))
        as (n' & Hn' & Hc'); [apply lookup_insert_eq|].
      by exists n'. }
  split; [by exists n1|]. split.
  - unfold add_class. rewrite (bind_ok _ _ _ _ _ (get_node_ok _ _ _ Hn1)).
    rewrite bool_decide_eq_true_2; [done|]. rewrite Hc1. set_solver.
  - intros Hnot. subst st2. unfold del_class.
    rewrite (bind_ok _ _ _ _ _ (get_node_ok _ _ _ Hn1)).
    rewrite bool_decide_eq_true_2 by (rewrite Hc1; set_solver). cbn [negb].
    rewrite final_state_bind_modify, (alter_Some _ _ _ _ Hn1).
    destruct (classes_after_dirty fuel' self PNone true true
                (with_heap (<[self := put_classes (_classes n1 ∖ {[cls]}) n1]> (heap st1)) st1)
                (put_classes (_classes n1 ∖ {[cls]}) n1))
      as (n' & Hn' & Hc'); [apply lookup_insert_eq|].
    exists n'. split; [done|]. rewrite Hc'. simpl. rewrite Hc1. set_solver.
Qed.

Lemma add_class_del_class_witness :
  let st1 := final_state (add_class 8 1 "x" family_state) in
  let st2 := final_state (del_class 8 1 "x" st1) in
  (∃ n1, heap st1 !! 1 = Some n1 ∧ _classes n1 = _classes family_mid ∪ {["x"]})
  ∧ add_class 8 1 "x" st1 = Ok tt st1
  ∧ ("x" ∉ _classes family_mid →
     ∃ n2, heap st2 !! 1 = Some n2 ∧ _classes n2 = _classes family_mid).
Proof.
  apply (add_class_del_class 8 8 family_state 1 family_mid "x").
  vm_compute. reflexivity.
Defined.

Lemma append_cons c s t : String c s +:+ t = String c (s +:+ t).
Proof. done. Qed.

Lemma append_nil_r s : s +:+ "" = s.
Proof. induction s as [|c s IH]; [done|]. rewrite append_cons. by f_equal. Qed.

Lemma append_assoc (s1 s2 s3 : string) : (s1 +:+ s2) +:+ s3 = s1 +:+ (s2 +:+ s3).
Proof. induction s1 as [|c s1 IH]; [done|]. rewrite !append_cons. by f_equal. Qed.

Lemma split_go_word w : ∀ cur rest,
  spaceless w = true →
  split_go cur (w +:+ rest) = split_go (cur +:+ w) rest.
Proof.
  induction w as [|c w IH]; intros cur rest Hw.
  { by rewrite append_nil_r. }
  cbn [spaceless] in Hw. apply andb_prop in Hw as [Hc Hw].
  apply negb_true_iff, bool_decide_eq_false in Hc.
  rewrite append_cons. cbn [split_go].
  rewrite bool_decide_eq_false_2 by done.
  rewrite (IH _ _ Hw). by rewrite append_assoc.
Qed.

Lemma split_space_join l :
  l ≠ [] → Forall (fun w => spaceless w = true) l →
  split_space (str_join " " l) = l.
Proof.
  unfold split_space. induction l as [|x l IH]; intros Hne Hall; [done|].
  apply Forall_cons in Hall as [Hx Hall].
  destruct l as [|y l].
  - cbn [str_join]. rewrite <- (append_nil_r x) at 1.
    by rewrite (split_go_word x "" "" Hx).
  - change (str_join " " (x :: y :: l)) with (x +:+ " " +:+ str_join " " (y :: l)).
    rewrite (split_go_word x "" _ Hx).
    rewrite append_cons. cbn [split_go].
    rewrite bool_decide_eq_true_2 by done.
    f_equal. by apply IH.
Qed.

Lemma join_nil_inv l :
  Forall (fun w => is_word w = true) l → str_join " " l = "" → l = [].
Proof.
  destruct l as [|x l]; [done|]. intros Hall Hj.
  apply Forall_cons in Hall as [Hx _]. unfold is_word in Hx.
  apply andb_prop in Hx as [Hx _].
  apply negb_true_iff, bool_decide_eq_false in Hx.
  destruct x as [|c x]; [done|]. by destruct l.
Qed.

Lemma filter_all {A} (P : A → Prop) `{∀ x, Decision (P x)} (l : list A) :
  Forall P l → filter P l = l.
Proof.
  induction 1 as [|x l Hx _ IH]; [done|].
  rewrite filter_cons_True by done. by f_equal.
Qed.

Lemma classes_of_join (S : gset string) :
  (∀ c, c ∈ S → is_word c = true) →
  classes_of (Some (str_join " " (elements S))) = S.
Proof.
  intros Hwords.
  assert (Forall (fun w => is_word w = true) (elements S)) as Hall.
  { apply Forall_forall. intros c Hc. apply Hwords. by apply elem_of_elements. }
  unfold classes_of. case_bool_decide as Hj.
  - apply join_nil_inv in Hj; [|done].
    symmetry. by apply leibniz_equiv, elements_empty_inv.
  - assert (elements S ≠ []) as Hne by (by intros Heq; rewrite Heq in Hj).
    rewrite split_space_join; [|done|].
    + rewrite filter_all; [apply list_to_set_elements_L|].
      eapply Forall_impl; [exact Hall|]. intros w Hw.
      apply andb_prop in Hw as [Hw _].
      by apply negb_true_iff, bool_decide_eq_false in Hw.
    + eapply Forall_impl; [exact Hall|]. intros w Hw.
      by apply andb_prop in Hw as [_ Hw].
Qed.

(** X19: assigning the property [classes] to itself changes nothing:
    [x.classes = x.classes] returns at once, when no class name is empty or
    holds a space. *)
Theorem classes_round_trip fuel st self n :
  heap st !! self = Some n →
  (∀ c, c ∈ _classes n → is_word c = true) →
  classes_of (Some (classes_getter n)) = _classes n
  ∧ classes_setter fuel self (Some (classes_getter n)) st = Ok tt st.
Proof.
  intros Hn Hwords.
  pose proof (classes_of_join (_classes n) Hwords) as Heq.
  split; [exact Heq|]. unfold classes_setter. cbv zeta.
  rewrite (bind_ok _ _ _ _ _ (get_node_ok _ _ _ Hn)).
  unfold classes_getter. by rewrite Heq, bool_decide_eq_true_2.
Qed.

Lemma classes_round_trip_witness :
  let n := put_classes {["note"; "wide"]} (new_node "p" (Sheet [])) in
  let st := State {[ 0 := n ]} None [] in
  classes_of (Some (classes_getter n)) = _classes n
  ∧ classes_setter 4 0 (Some (classes_getter n)) st = Ok tt st.
Proof.
  intros n st. apply (classes_round_trip 4 st 0 n).
  - reflexivity.
  - intros c Hc. apply elem_of_union in Hc as [Hc|Hc];
      apply elem_of_singleton in Hc as ->; reflexivity.
Defined.

(** *** The child list *)

Lemma well_formed_put up down st a n n' :
  well_formed up down st → heap st !! a = Some n →
  (_parent n' = _parent n ∨ _parent n' = None) →
  (∀ c, c ∈ _children n' →
        c ∈ _children n ∨ (is_Some (heap st !! c) ∧ down c < down a)) →
  _dirty_propagation n' = _dirty_propagation n →
  well_formed up down (with_heap (<[a := n']> (heap st)) st).
Proof.
  intros (Hup & Hdown & Hquiet) Ha Hp Hc Hd.
  assert (∀ b, is_Some (heap st !! b) →
               is_Some (heap (with_heap (<[a := n']> (heap st)) st) !! b)) as Hsome.
  { intros b Hb. cbn [heap with_heap]. destruct (decide (b = a)) as [->|Hne].
    - rewrite lookup_insert_eq. by eexists.
    - by rewrite lookup_insert_ne. }
  split; [|split].
  - intros b m p Hb Hpar. cbn [heap with_heap] in Hb.
    destruct (decide (b = a)) as [->|Hne].
    + rewrite lookup_insert_eq in Hb. injection Hb as <-.
      destruct Hp as [Hp|Hp]; rewrite Hp in Hpar; [|done].
      destruct (Hup a n p Ha Hpar). split; [by apply Hsome|done].
    + rewrite lookup_insert_ne in Hb by done.
      destruct (Hup b m p Hb Hpar). split; [by apply Hsome|done].
  - intros b m c Hb Hch. cbn [heap with_heap] in Hb.
    destruct (decide (b = a)) as [->|Hne].
    + rewrite lookup_insert_eq in Hb. injection Hb as <-.
      destruct (Hc c Hch) as [Hold|[Hs Hlt]].
      * destruct (Hdown a n c Ha Hold). split; [by apply Hsome|done].
      * split; [by apply Hsome|done].
    + rewrite lookup_insert_ne in Hb by done.
      destruct (Hdown b m c Hb Hch). split; [by apply Hsome|done].
  - intros b m Hb. cbn [heap with_heap] in Hb.
    destruct (decide (b = a)) as [->|Hne].
    + rewrite lookup_insert_eq in Hb. injection Hb as <-. unfold quiet.
      rewrite Hd. by apply (Hquiet a n).
    + rewrite lookup_insert_ne in Hb by done. by apply (Hquiet b m).
Qed.

Lemma list_remove_elem_of x y l : y ∈ list_remove x l → y ∈ l.
Proof.
  induction l as [|z l IH]; cbn [list_remove]; [done|].
  case_bool_decide; intros Hy; [by right|].
  apply elem_of_cons in Hy as [->|Hy]; [left|right; by apply IH].
Qed.

Lemma list_remove_app x l : x ∉ l → list_remove x (l ++ [x]) = l.
Proof.
  induction l as [|z l IH]; intros Hx; cbn [list_remove app].
  { by rewrite bool_decide_eq_true_2. }
  apply not_elem_of_cons in Hx as [Hne Hx].
  rewrite bool_decide_eq_false_2 by done. by rewrite IH.
Qed.

Lemma evolves_attrs st st' a n :
  evolves st st' → heap st !! a = Some n →
  ∃ n', heap st' !! a = Some n' ∧ _children n' = _children n
        ∧ _parent n' = _parent n
        ∧ _dirty_properties n ⊆ _dirty_properties n'.
Proof.
  intros Hev Ha. destruct (evolves_lookup _ _ _ _ Hev Ha) as (n' & Hn' & Hsk & Hd).
  exists n'. split; [done|]. split; [|split; [|done]].
  - change (_children (skeleton n') = _children (skeleton n)). by rewrite Hsk.
  - change (_parent (skeleton n') = _parent (skeleton n)). by rewrite Hsk.
Qed.

Lemma append_child_run up down fuel st self child n c :
  well_formed up down st → heap st !! self = Some n → heap st !! child = Some c →
  child ∉ _children n → _parent c = None → down child < down self →
  up self < fuel → down self < fuel → up child < fuel →
  ∃ st', append_child fuel self child st = Ok tt st'
     ∧ well_formed up down st'
     ∧ evolves (with_heap (<[self := put_children (_children n ++ [child]) n]> (heap st)) st)
               st'
     ∧ all_properties ⊆ dirty_of st' child
     ∧ all_properties ⊆ dirty_of st' self.
Proof.
  intros Hwf Hn Hc Hnotin Hpar Hrank Hus Hds Huc.
  unfold append_child.
  rewrite (bind_ok _ _ _ _ _ (get_node_ok _ _ _ Hn)).
  rewrite bool_decide_eq_false_2 by done.
  rewrite (bind_ok _ _ _ _ _ (get_node_ok _ _ _ Hc)).
  rewrite Hpar. unfold bind at 1, ret at 1.
  rewrite bind_modify, (alter_Some _ _ _ _ Hn).
  set (n1 := put_children (_children n ++ [child]) n).
  set (st1 := with_heap (<[self := n1]> (heap st)) st).
  assert (child ≠ self) as Hne by (intros ->; lia).
  assert (well_formed up down st1) as Hwf1.
  { apply (well_formed_put up down st self n n1 Hwf Hn); [by left| |done].
    intros x Hx. apply elem_of_app in Hx as [Hx|Hx]; [by left|].
    apply list_elem_of_singleton in Hx as ->. right. split; [by eexists|done]. }
  assert (heap st1 !! child = Some c) as Hc1.
  { subst st1. cbn [heap with_heap]. by rewrite lookup_insert_ne. }
  destruct (dirty_spreads up down fuel st1 child c PNone true false Hwf1 Hc1)
    as (st2 & Hrun2 & Hwf2 & Hev2 & Hself2 & _); [done|lia|].
  rewrite (bind_ok _ _ _ _ _ Hrun2).
  assert (heap st1 !! self = Some n1) as Hn1 by apply lookup_insert_eq.
  destruct (evolves_lookup _ _ _ _ Hev2 Hn1) as (n2 & Hn2 & _).
  destruct (dirty_spreads up down fuel st2 self n2 PNone true false Hwf2 Hn2)
    as (st3 & Hrun3 & Hwf3 & Hev3 & Hself3 & _); [done|done|].
  exists st3. split; [done|]. split; [done|]. split; [by etrans|]. split.
  - eapply dirty_of_evolves; [|exact Hev3]. rewrite Hself2.
    simpl. set_solver.
  - rewrite Hself3. simpl. set_solver.
Qed.

Lemma delete_child_run up down fuel st self child n :
  well_formed up down st → heap st !! self = Some n → child ∈ _children n →
  up self < fuel → down self < fuel → up child < fuel →
  ∃ c st', heap st !! child = Some c
     ∧ delete_child fuel self child st = Ok tt st'
     ∧ well_formed up down st'
     ∧ evolves (with_heap
                  (<[child := put_parent None c]>
                     (<[self := put_children (list_remove child (_children n)) n]>
                        (heap st))) st) st'
     ∧ all_properties ⊆ dirty_of st' child
     ∧ {["content"]} ⊆ dirty_of st' self.
Proof.
  intros Hwf Hn Hin Hus Hds Huc.
  destruct (proj1 (proj2 Hwf) self n child Hn Hin) as [[c Hc] Hrank].
  assert (child ≠ self) as Hne by (intros ->; lia).
  exists c. unfold delete_child.
  rewrite (bind_ok _ _ _ _ _ (get_node_ok _ _ _ Hn)).
  rewrite bool_decide_eq_true_2 by done. cbn [negb].
  rewrite bind_modify, (alter_Some _ _ _ _ Hn).
  set (n1 := put_children (list_remove child (_children n)) n).
  set (st1 := with_heap (<[self := n1]> (heap st)) st).
  assert (well_formed up down st1) as Hwf1.
  { apply (well_formed_put up down st self n n1 Hwf Hn); [by left| |done].
    intros x Hx. left. exact (list_remove_elem_of _ _ _ Hx). }
  assert (heap st1 !! child = Some c) as Hc1.
  { subst st1. cbn [heap with_heap]. by rewrite lookup_insert_ne. }
  rewrite bind_modify, (alter_Some _ _ _ _ Hc1).
  set (c2 := put_parent None c).
  set (st2 := with_heap (<[child := c2]> (heap st1)) st1).
  assert (well_formed up down st2) as Hwf2.
  { apply (well_formed_put up down st1 child c c2 Hwf1 Hc1); [by right|by left|done]. }
  assert (heap st2 !! child = Some c2) as Hc2 by apply lookup_insert_eq.
  destruct (dirty_spreads up down fuel st2 child c2 PNone true false Hwf2 Hc2)
    as (st3 & Hrun3 & Hwf3 & Hev3 & Hself3 & _); [done|lia|].
  rewrite (bind_ok _ _ _ _ _ Hrun3).
  assert (heap st2 !! self = Some n1) as Hn2.
  { subst st2 st1. cbn [heap with_heap].
    by rewrite lookup_insert_ne, lookup_insert_eq. }
  destruct (evolves_lookup _ _ _ _ Hev3 Hn2) as (n3 & Hn3 & _).
  destruct (dirty_spreads up down fuel st3 self n3 (PStr "content") true false Hwf3 Hn3)
    as (st4 & Hrun4 & Hwf4 & Hev4 & Hself4 & _); [done|done|].
  exists st4. split; [done|]. split; [done|]. split; [done|].
  split; [by etrans|]. split.
  - eapply dirty_of_evolves; [|exact Hev4]. rewrite Hself3. simpl. set_solver.
  - rewrite Hself4. simpl. set_solver.
Qed.

(** X20: [append_child] on a store whose references form a forest at rest,
    for a child that is not yet in the list, has no parent and ranks below
    the object.  The call returns, the child is the last entry of the child
    list, both objects carry [style], [size] and [content] in their dirty
    sets, and the child's [_parent] is [None] as before. *)
Theorem append_child_appends up down fuel st self child n c :
  well_formed up down st → heap st !! self = Some n → heap st !! child = Some c →
  child ∉ _children n → _parent c = None → down child < down self →
  up self < fuel → down self < fuel → up child < fuel →
  ∃ st', append_child fuel self child st = Ok tt st'
     ∧ well_formed up down st'
     ∧ children_of st' self = Some (_children n ++ [child])
     ∧ parent_of st' child = Some None
     ∧ all_properties ⊆ dirty_of st' child
     ∧ all_properties ⊆ dirty_of st' self.
Proof.
  intros Hwf Hn Hc Hnotin Hpar Hrank Hus Hds Huc.
  destruct (append_child_run up down fuel st self child n c)
    as (st' & Hrun & Hwf' & Hev & Hdc & Hds'); try done.
  exists st'. split; [done|]. split; [done|].
  assert (child ≠ self) as Hne by (intros ->; lia).
  split; [|split; [|by split]].
  - destruct (evolves_attrs _ _ self _ Hev (lookup_insert_eq _ _ _))
      as (n' & Hn' & Hch & _).
    unfold children_of. rewrite Hn'. simpl. by rewrite Hch.
  - destruct (evolves_attrs _ _ child c Hev) as (c' & Hc' & _ & Hp & _).
    { cbn [heap with_heap]. by rewrite lookup_insert_ne. }
    unfold parent_of. rewrite Hc'. simpl. by rewrite Hp, Hpar.
Qed.

Lemma append_child_appends_witness :
  ∃ st', append_child 8 0 1 pair_state = Ok tt st'
     ∧ children_of st' 0 = Some (_children (object_at pair_state 0) ++ [1])
     ∧ parent_of st' 1 = Some None.
Proof.
  destruct (append_child_appends (fun _ => 0) (fun a => 2 - a) 8 pair_state 0 1
              (object_at pair_state 0) (object_at pair_state 1))
    as (st' & Hrun & _ & Hch & Hpar & _).
  - apply well_formed_b_correct. vm_compute. reflexivity.
  - vm_compute. reflexivity.
  - vm_compute. reflexivity.
  - apply (bool_decide_eq_true_1 (1 ∉ _children (object_at pair_state 0))).
    vm_compute. reflexivity.
  - vm_compute. reflexivity.
  - vm_compute. lia.
  - vm_compute. lia.
  - vm_compute. lia.
  - vm_compute. lia.
  - exists st'. split; [exact Hrun|]. split; [exact Hch|exact Hpar].
Defined.

(** X21: [delete_child].  For an object that is not in the child list the
    call raises [AssertionError] and changes nothing.  For a child, on a
    store whose references form a forest at rest, the call returns, the
    first occurrence of the child is gone from the list, the child's
    [_parent] is [None], the child carries [style], [size] and [content] in
    its dirty set and the object carries [content]. *)
Theorem delete_child_removes up down fuel st self child n :
  heap st !! self = Some n →
  (child ∉ _children n →
   delete_child fuel self child st
   = Raise (AssertionError "attempting to delete child that does not exist?") st)
  ∧ (well_formed up down st → child ∈ _children n →
     up self < fuel → down self < fuel → up child < fuel →
     ∃ st', delete_child fuel self child st = Ok tt st'
        ∧ well_formed up down st'
        ∧ children_of st' self = Some (list_remove child (_children n))
        ∧ parent_of st' child = Some None
        ∧ all_properties ⊆ dirty_of st' child
        ∧ {["content"]} ⊆ dirty_of st' self).
Proof.
  intros Hn. split.
  - intros Hnotin. unfold delete_child.
    rewrite (bind_ok _ _ _ _ _ (get_node_ok _ _ _ Hn)).
    by rewrite bool_decide_eq_false_2.
  - intros Hwf Hin Hus Hds Huc.
    destruct (delete_child_run up down fuel st self child n)
      as (c & st' & Hc & Hrun & Hwf' & Hev & Hdc & Hds'); try done.
    destruct (proj1 (proj2 Hwf) self n child Hn Hin) as [_ Hrank].
    assert (child ≠ self) as Hne by (intros ->; lia).
    exists st'. split; [done|]. split; [done|].
    split; [|split; [|by split]].
    + destruct (evolves_attrs _ _ self
                  (put_children (list_remove child (_children n)) n) Hev)
        as (n' & Hn' & Hch & _).
      { cbn [heap with_heap]. by rewrite lookup_insert_ne, lookup_insert_eq. }
      unfold children_of. rewrite Hn'. simpl. by rewrite Hch.
    + destruct (evolves_attrs _ _ child (put_parent None c) Hev)
        as (c' & Hc' & _ & Hp & _); [apply lookup_insert_eq|].
      unfold parent_of. rewrite Hc'. simpl. by rewrite Hp.
Qed.

Lemma delete_child_removes_witness :
  delete_child 8 0 2 family_state
  = Raise (AssertionError "attempting to delete child that does not exist?") family_state
  ∧ ∃ st', delete_child 8 0 1 family_state = Ok tt st'
       ∧ children_of st' 0 = Some (list_remove 1 (_children (object_at family_state 0)))
       ∧ parent_of st' 1 = Some None.
Proof.
  destruct (delete_child_removes (fun _ => 0) (fun a => 3 - a) 8 family_state 0 2
              (object_at family_state 0)) as [Hmiss _]; [vm_compute; reflexivity|].
  destruct (delete_child_removes (fun _ => 0) (fun a => 3 - a) 8 family_state 0 1
              (object_at family_state 0)) as [_ Hhit]; [vm_compute; reflexivity|].
  split.
  - apply Hmiss.
    apply (bool_decide_eq_true_1 (2 ∉ _children (object_at family_state 0))).
    vm_compute. reflexivity.
  - destruct Hhit as (st' & Hrun & _ & Hch & Hpar & _).
    + apply well_formed_b_correct. vm_compute. reflexivity.
    + vm_compute. apply list_elem_of_here.
    + vm_compute. lia.
    + vm_compute. lia.
    + vm_compute. lia.
    + exists st'. split; [exact Hrun|]. split; [exact Hch|exact Hpar].
Defined.

(** X22: [delete_child] undoes [append_child] on the child list: after both
    calls, which return, the list is the one before. *)
Theorem append_then_delete up down fuel st self child n c :
  well_formed up down st → heap st !! self = Some n → heap st !! child = Some c →
  child ∉ _children n → _parent c = None → down child < down self →
  up self < fuel → down self < fuel → up child < fuel →
  ∃ st1 st2, append_child fuel self child st = Ok tt st1
     ∧ delete_child fuel self child st1 = Ok tt st2
     ∧ children_of st2 self = Some (_children n)
     ∧ well_formed up down st2.
Proof.
  intros Hwf Hn Hc Hnotin Hpar Hrank Hus Hds Huc.
  destruct (append_child_run up down fuel st self child n c)
    as (st1 & Hrun1 & Hwf1 & Hev1 & _); try done.
  destruct (evolves_attrs _ _ self _ Hev1 (lookup_insert_eq _ _ _))
    as (n1 & Hn1 & Hch1 & _).
  cbn [_children put_children] in Hch1.
  destruct (delete_child_run up down fuel st1 self child n1)
    as (c1 & st2 & Hc1 & Hrun2 & Hwf2 & Hev2 & _); try done.
  { rewrite Hch1. apply elem_of_app. right. apply list_elem_of_here. }
  assert (child ≠ self) as Hne by (intros ->; lia).
  exists st1, st2. split; [done|]. split; [done|]. split; [|done].
  destruct (evolves_attrs _ _ self
              (put_children (list_remove child (_children n1)) n1) Hev2)
    as (n2 & Hn2 & Hch2 & _).
  { cbn [heap with_heap]. by rewrite lookup_insert_ne, lookup_insert_eq. }
  unfold children_of. rewrite Hn2. simpl. rewrite Hch2. simpl.
  by rewrite Hch1, list_remove_app.
Qed.

Lemma append_then_delete_witness :
  ∃ st1 st2, append_child 8 0 1 pair_state = Ok tt st1
     ∧ delete_child 8 0 1 st1 = Ok tt st2
     ∧ children_of st2 0 = Some (_children (object_at pair_state 0)).
Proof.
  destruct (append_then_delete (fun _ => 0) (fun a => 2 - a) 8 pair_state 0 1
              (object_at pair_state 0) (object_at pair_state 1))
    as (st1 & st2 & Hrun1 & Hrun2 & Hch & _).
  - apply well_formed_b_correct. vm_compute. reflexivity.
  - vm_compute. reflexivity.
  - vm_compute. reflexivity.
  - apply (bool_decide_eq_true_1 (1 ∉ _children (object_at pair_state 0))).
    vm_compute. reflexivity.
  - vm_compute. reflexivity.
  - vm_compute. lia.
  - vm_compute. lia.
  - vm_compute. lia.
  - vm_compute. lia.
  - exists st1, st2. split; [exact Hrun1|]. split; [exact Hrun2|exact Hch].
Defined.

(** What the later steps of a method keep of an object: a [_parent] that
    is [None], and the flags of its dirty set. *)
Lemma evolves_settles st st' b :
  evolves st st' →
  (parent_of st b = Some None → parent_of st' b = Some None)
  ∧ dirty_of st b ⊆ dirty_of st' b.
Proof.
  intros Hev. split.
  - unfold parent_of. destruct (heap st !! b) as [n|] eqn:Hb; [|done].
    destruct (evolves_attrs _ _ _ _ Hev Hb) as (n' & -> & _ & Hp & _).
    simpl. by rewrite Hp.
  - by apply (dirty_of_evolves st st' b (dirty_of st b)).
Qed.

Lemma delete_child_settles st self child n c b :
  heap st !! self = Some n → heap st !! child = Some c → child ≠ self →
  let st' := with_heap
               (<[child := put_parent None c]>
                  (<[self := put_children (list_remove child (_children n)) n]>
                     (heap st))) st in
  (parent_of st b = Some None → parent_of st' b = Some None)
  ∧ dirty_of st b ⊆ dirty_of st' b.
Proof.
  intros Hn Hc Hne st'. unfold parent_of, dirty_of. subst st'. cbn [heap with_heap].
  destruct (decide (b = child)) as [->|Hb1].
  { rewrite lookup_insert_eq, Hc. by split. }
  rewrite lookup_insert_ne by done.
  destruct (decide (b = self)) as [->|Hb2].
  { rewrite lookup_insert_eq, Hn. by split. }
  by rewrite lookup_insert_ne.
Qed.

Lemma clear_loop up down fuel self : ∀ rem st m,
  well_formed up down st → heap st !! self = Some m → _children m = rem →
  up self < fuel → down self < fuel → (∀ c, c ∈ rem → up c < fuel) →
  ∃ st', for_each rem (fun child => delete_child fuel self child) st = Ok tt st'
     ∧ well_formed up down st'
     ∧ children_of st' self = Some []
     ∧ (∀ c, c ∈ rem → parent_of st' c = Some None ∧ all_properties ⊆ dirty_of st' c)
     ∧ (∀ b, (parent_of st b = Some None → parent_of st' b = Some None)
             ∧ dirty_of st b ⊆ dirty_of st' b).
Proof.
  induction rem as [|c rem IH]; intros st m Hwf Hm Hch Hus Hds Huc.
  { exists st. split; [done|]. split; [done|].
    split; [unfold children_of; by rewrite Hm, <- Hch|].
    split; [intros c Hc; by apply not_elem_of_nil in Hc|done]. }
  cbn [for_each].
  destruct (delete_child_run up down fuel st self c m)
    as (nc & st1 & Hc & Hrun1 & Hwf1 & Hev1 & Hdc1 & _); try done.
  { rewrite Hch. left. }
  { apply Huc. left. }
  destruct (proj1 (proj2 Hwf) self m c Hm) as [_ Hrank]; [rewrite Hch; left|].
  assert (c ≠ self) as Hne by (intros ->; lia).
  rewrite (bind_ok _ _ _ _ _ Hrun1).
  destruct (evolves_attrs _ _ self
              (put_children (list_remove c (_children m)) m) Hev1)
    as (m1 & Hm1 & Hch1 & _).
  { cbn [heap with_heap]. by rewrite lookup_insert_ne, lookup_insert_eq. }
  assert (_children m1 = rem) as Hrem.
  { rewrite Hch1. cbn [_children put_children]. rewrite Hch. cbn [list_remove].
    by rewrite bool_decide_eq_true_2. }
  destruct (IH st1 m1 Hwf1 Hm1 Hrem Hus Hds) as (st' & Hrun & Hwf' & Hnil & Hall & Hkeep).
  { intros x Hx. apply Huc. by right. }
  assert (∀ b, (parent_of st b = Some None → parent_of st1 b = Some None)
               ∧ dirty_of st b ⊆ dirty_of st1 b) as Hkeep1.
  { intros b. destruct (delete_child_settles st self c m nc b Hm Hc Hne) as [H1 H2].
    destruct (evolves_settles _ _ b Hev1) as [H3 H4].
    split; [by intros ?; apply H3, H1|by etrans]. }
  exists st'. split; [done|]. split; [done|]. split; [done|]. split.
  - intros x Hx. apply elem_of_cons in Hx as [->|Hx]; [|by apply Hall].
    destruct (Hkeep c) as [Hp Hd]. split.
    + apply Hp. destruct (evolves_attrs _ _ c (put_parent None nc) Hev1)
        as (c' & Hc' & _ & Hp' & _); [apply lookup_insert_eq|].
      unfold parent_of. rewrite Hc'. simpl. by rewrite Hp'.
    + by etrans.
  - intros b. destruct (Hkeep1 b) as [H1 H2], (Hkeep b) as [H3 H4].
    split; [by intros ?; apply H3, H1|by etrans].
Qed.

(** X23: [clear_children] on a store whose references form a forest at rest
    returns and leaves the child list empty; every object that was a child
    has [_parent] [None] and carries [style], [size] and [content] in its
    dirty set, as does the object itself. *)
Theorem clear_children_empties up down fuel st self n :
  well_formed up down st → heap st !! self = Some n →
  up self < fuel → down self < fuel → (∀ c, c ∈ _children n → up c < fuel) →
  ∃ st', clear_children fuel self st = Ok tt st'
     ∧ well_formed up down st'
     ∧ children_of st' self = Some []
     ∧ (∀ c, c ∈ _children n →
          parent_of st' c = Some None ∧ all_properties ⊆ dirty_of st' c)
     ∧ all_properties ⊆ dirty_of st' self.
Proof.
  intros Hwf Hn Hus Hds Huc. unfold clear_children, defer_dirty.
  rewrite bind_modify, (alter_Some _ _ _ _ Hn).
  set (n0 := put_defer_dirty (Some true) n).
  set (st0 := with_heap (<[self := n0]> (heap st)) st).
  assert (well_formed up down st0) as Hwf0.
  { apply (well_formed_put up down st self n n0 Hwf Hn); [by left|by left|done]. }
  assert (heap st0 !! self = Some n0) as Hn0 by apply lookup_insert_eq.
  destruct (clear_loop up down fuel self (_children n0) st0 n0)
    as (st1 & Hloop & Hwf1 & Hnil & Hall & Hkeep); try done.
  assert ((let* m := get_node self in
           for_each (_children m) (fun child => delete_child fuel self child)) st0
          = Ok tt st1) as Hfn.
  { by rewrite (bind_ok _ _ _ _ _ (get_node_ok _ _ _ Hn0)). }
  cbv beta. rewrite (bind_ok _ _ _ _ _ Hfn).
  unfold children_of in Hnil.
  destruct (heap st1 !! self) as [n1|] eqn:Hn1; [|done].
  injection Hnil as Hnil.
  rewrite bind_modify, (alter_Some _ _ _ _ Hn1).
  set (n2 := put_defer_dirty (Some false) n1).
  set (st2 := with_heap (<[self := n2]> (heap st1)) st1).
  assert (well_formed up down st2) as Hwf2.
  { apply (well_formed_put up down st1 self n1 n2 Hwf1 Hn1); [by left|by left|done]. }
  assert (heap st2 !! self = Some n2) as Hn2 by apply lookup_insert_eq.
  destruct (dirty_spreads up down fuel st2 self n2 PNone true false Hwf2 Hn2)
    as (st3 & Hrun3 & Hwf3 & Hev3 & Hself3 & _); [done|done|].
  rewrite (bind_ok _ _ _ _ _ Hrun3).
  exists st3. split; [done|]. split; [done|].
  assert (∀ b, (parent_of st1 b = Some None → parent_of st3 b = Some None)
               ∧ dirty_of st1 b ⊆ dirty_of st3 b) as Hkeep3.
  { intros b. destruct (evolves_settles _ _ b Hev3) as [H3 H4].
    unfold parent_of, dirty_of in *. subst st2. cbn [heap with_heap] in *.
    destruct (decide (b = self)) as [->|Hb].
    - rewrite lookup_insert_eq in H3, H4. rewrite Hn1. split; [exact H3|exact H4].
    - rewrite lookup_insert_ne in H3, H4 by done. split; [exact H3|exact H4]. }
  split; [|split].
  - destruct (evolves_attrs _ _ self n2 Hev3 Hn2) as (n3 & Hn3 & Hch3 & _).
    unfold children_of. rewrite Hn3. simpl. rewrite Hch3.
    exact (f_equal Some Hnil).
  - intros c Hc. destruct (Hall c Hc) as [Hp Hd], (Hkeep3 c) as [Hp3 Hd3].
    split; [by apply Hp3|by etrans].
  - rewrite Hself3. simpl. set_solver.
Qed.

Lemma clear_children_empties_witness :
  ∃ st', clear_children 8 0 family_state = Ok tt st'
     ∧ children_of st' 0 = Some []
     ∧ all_properties ⊆ dirty_of st' 1.
Proof.
  destruct (clear_children_empties (fun _ => 0) (fun a => 3 - a) 8 family_state 0
              (object_at family_state 0))
    as (st' & Hrun & _ & Hnil & Hall & _).
  - apply well_formed_b_correct. vm_compute. reflexivity.
  - vm_compute. reflexivity.
  - vm_compute. lia.
  - vm_compute. lia.
  - intros c _. vm_compute. lia.
  - exists st'. split; [exact Hrun|]. split; [exact Hnil|].
    apply (Hall 1). vm_compute. apply list_elem_of_here.
Defined.

(** *** [get_under_mouse] *)

Lemma first_under_all_none {B} (l : list B) (body : B → M (option addr)) st :
  (∀ x, x ∈ l → body x st = Ok None st) → first_under l body st = Ok None st.
Proof.
  induction l as [|x l IH]; intros Hbody; [done|].
  cbn [first_under]. rewrite (bind_ok _ _ _ _ _ (Hbody x (list_elem_of_here _ _))).
  apply IH. intros y Hy. apply Hbody. by right.
Qed.

Lemma first_under_total {B} (l : list B) (body : B → M (option addr)) st :
  (∀ x, x ∈ l → ∃ r, body x st = Ok r st) →
  ∃ r, first_under l body st = Ok r st.
Proof.
  induction l as [|x l IH]; intros Hbody; [by exists None|].
  cbn [first_under]. destruct (Hbody x (list_elem_of_here _ _)) as [r Hr].
  rewrite (bind_ok _ _ _ _ _ Hr). destruct r as [y|]; [by exists (Some y)|].
  apply IH. intros y Hy. apply Hbody. by right.
Qed.

Lemma first_under_inv {B} (l : list B) (body : B → M (option addr)) st r st' :
  first_under l body st = Ok r st' →
  (∀ x st0 r0 st1, body x st0 = Ok r0 st1 → st1 = st0) →
  st' = st
  ∧ match r with
    | Some y => ∃ x, x ∈ l ∧ body x st = Ok (Some y) st
    | None => ∀ x, x ∈ l → body x st = Ok None st
    end.
Proof.
  intros Hrun Hsame. revert Hrun.
  induction l as [|x l IH]; cbn [first_under].
  { intros [= <- <-]. split; [done|]. intros x Hx. by apply not_elem_of_nil in Hx. }
  unfold bind at 1. destruct (body x st) as [r0 st1|e st1] eqn:Hx; [|done].
  pose proof (Hsame _ _ _ _ Hx) as ->.
  destruct r0 as [y|].
  - intros [= <- <-]. split; [done|]. exists x. split; [left|done].
  - intros Hrest. destruct (IH Hrest) as [-> Hr]. split; [done|].
    destruct r as [y|].
    + destruct Hr as (x' & Hx' & Hbody). exists x'. split; [by right|done].
    + intros x' Hx'. apply elem_of_cons in Hx' as [->|Hx']; [done|by apply Hr].
Qed.

Lemma get_under_mouse_reads fuel : ∀ self mx my st r st',
  get_under_mouse fuel self mx my st = Ok r st' → st' = st.
Proof.
  induction fuel as [|f IH]; intros self mx my st r st'; [done|].
  cbn [get_under_mouse]. unfold bind at 1, get_node.
  destruct (heap st !! self) as [n|]; [|done].
  destruct (misses_x n mx); [by intros [= _ <-]|].
  destruct (misses_y n my); [by intros [= _ <-]|].
  unfold bind at 1.
  destruct (first_under _ _ st) as [r0 st1|e st1] eqn:Hloop; [|done].
  apply first_under_inv in Hloop as [-> _]; [|intros; by eapply IH].
  destruct r0; by intros [= _ <-].
Qed.

Lemma get_under_mouse_total (down : addr → nat) k : ∀ fuel st self n mx my,
  children_ranked down st → heap st !! self = Some n →
  down self ≤ k → k < fuel →
  ∃ r, get_under_mouse fuel self mx my st = Ok r st
       ∧ (r = None ↔ in_box n mx my = false).
Proof.
  induction k as [k IH] using lt_wf_ind.
  intros fuel st self n mx my Hranked Hn Hk Hfuel.
  destruct fuel as [|f]; [lia|].
  cbn [get_under_mouse]. rewrite (bind_ok _ _ _ _ _ (get_node_ok _ _ _ Hn)).
  unfold in_box.
  destruct (misses_x n mx); [by exists None|].
  destruct (misses_y n my); [by exists None|].
  destruct (first_under_total (_children n)
              (fun child => get_under_mouse f child mx my) st) as [r Hr].
  { intros c Hc. destruct (Hranked self n c Hn Hc) as [[nc Hnc] Hlt].
    destruct (IH (down c) ltac:(lia) f st c nc mx my Hranked Hnc
                (Nat.le_refl _) ltac:(lia)) as (r & Hr & _).
    by exists r. }
  rewrite (bind_ok _ _ _ _ _ Hr).
  destruct r as [x|]; [exists (Some x)|exists (Some self)]; by split.
Qed.

(** X24: [get_under_mouse] on a store whose child lists form a forest
    returns when the recursion limit exceeds the depth below the object,
    and leaves the store as it is.  It returns [None] exactly when the
    point misses the box of the object; for a box with finite sides the
    point is in the box when [left <= mx < left + width] and
    [top - height < my <= top]. *)
Theorem get_under_mouse_hits_box (down : addr → nat) fuel st self n mx my :
  children_ranked down st → heap st !! self = Some n → down self < fuel →
  (∃ r, get_under_mouse fuel self mx my st = Ok r st
        ∧ (r = None ↔ in_box n mx my = false))
  ∧ (∀ l t w h, _l n = Fin l → _t n = Fin t → _w n = Fin w → _h n = Fin h →
       in_box n mx my = true
       ↔ (l ≤ mx < l + w)%Z ∧ (t - h < my ≤ t)%Z).
Proof.
  intros Hranked Hn Hfuel. split.
  - by apply (get_under_mouse_total down (down self) fuel st self n).
  - intros l t w h Hl Ht Hw Hh. unfold in_box, misses_x, misses_y.
    rewrite Hl, Ht, Hw, Hh. cbn [nadd].
    rewrite andb_true_iff, !negb_true_iff, !orb_false_iff.
    rewrite !Z.ltb_ge, !Z.leb_gt. lia.
Qed.

Lemma get_under_mouse_hits_box_witness :
  ∃ r, get_under_mouse 4 0 15 85 placed_state = Ok r placed_state
       ∧ (r = None
          ↔ in_box (default (new_node "" (Sheet [])) (heap placed_state !! 0)) 15 85
            = false).
Proof.
  apply (get_under_mouse_hits_box (fun a => 3 - a) 4 placed_state 0
           (default (new_node "" (Sheet [])) (heap placed_state !! 0)) 15 85).
  - apply well_formed_b_correct with (up := fun _ => 0). vm_compute. reflexivity.
  - vm_compute. reflexivity.
  - vm_compute. lia.
Defined.

(** X25: the object [get_under_mouse] returns is the object asked or lies
    below it along objects whose boxes all hold the point, its own box
    holds the point, and the box of none of its children does. *)
Theorem get_under_mouse_deepest fuel : ∀ st self mx my x st',
  get_under_mouse fuel self mx my st = Ok (Some x) st' →
  under st mx my self x
  ∧ ∃ nx, heap st !! x = Some nx ∧ in_box nx mx my = true
          ∧ ∀ c nc, c ∈ _children nx → heap st !! c = Some nc →
                    in_box nc mx my = false.
Proof.
  induction fuel as [|f IH]; intros st self mx my x st'; [done|].
  cbn [get_under_mouse]. unfold bind at 1, get_node.
  destruct (heap st !! self) as [n|] eqn:Hn; [|done].
  destruct (misses_x n mx) eqn:Hx; [done|].
  destruct (misses_y n my) eqn:Hy; [done|].
  assert (in_box n mx my = true) as Hin by (unfold in_box; by rewrite Hx, Hy).
  unfold bind at 1.
  destruct (first_under _ _ st) as [r0 st1|e st1] eqn:Hloop; [|done].
  apply first_under_inv in Hloop as [-> Hr];
    [|intros; by eapply get_under_mouse_reads].
  destruct r0 as [y|].
  - intros [= <- <-]. destruct Hr as (c & Hc & Hrun).
    destruct (IH _ _ _ _ _ _ Hrun) as [Hunder Hdeep].
    split; [by eapply under_child|done].
  - intros [= <- <-]. split; [by eapply under_self|].
    exists n. split; [done|]. split; [done|].
    intros c nc Hc Hnc. specialize (Hr c Hc).
    destruct f as [|f']; [done|].
    cbn [get_under_mouse] in Hr. rewrite (bind_ok _ _ _ _ _ (get_node_ok _ _ _ Hnc)) in Hr.
    unfold in_box.
    destruct (misses_x nc mx); [done|]. destruct (misses_y nc my); [by rewrite andb_false_r|].
    unfold bind in Hr. destruct (first_under _ _ st) as [[?|] ?|]; done.
Qed.

Lemma get_under_mouse_deepest_witness :
  under placed_state 15 85 0 1
  ∧ ∃ nx, heap placed_state !! 1 = Some nx ∧ in_box nx 15 85 = true
          ∧ ∀ c nc, c ∈ _children nx → heap placed_state !! c = Some nc →
                    in_box nc 15 85 = false.
Proof.
  apply (get_under_mouse_deepest 4 placed_state 0 15 85 1 placed_state).
  vm_compute. reflexivity.
Defined.

(** *** [position] *)

Lemma _get_style_num_ok st self n styles k d :
  heap st !! self = Some n → _computed_styles n = Some styles →
  _get_style_num self k d st = Ok (style_num styles k d) st.
Proof.
  intros Hn Hs. unfold _get_style_num.
  rewrite (bind_ok _ _ _ _ _ (get_node_ok _ _ _ Hn)). by rewrite Hs.
Qed.

Lemma _get_style_trbl_ok st self n styles kb :
  heap st !! self = Some n → _computed_styles n = Some styles →
  _get_style_trbl self kb st
  = Ok (style_num styles (kb +:+ "-top") (Fin 0),
        style_num styles (kb +:+ "-right") (Fin 0),
        style_num styles (kb +:+ "-bottom") (Fin 0),
        style_num styles (kb +:+ "-left") (Fin 0)) st.
Proof.
  intros Hn Hs. unfold _get_style_trbl.
  by rewrite !(bind_ok _ _ _ _ _ (_get_style_num_ok st self n styles _ _ Hn Hs)).
Qed.

Lemma bind_raise {A B} (m : M A) (k : A → M B) st e st1 :
  m st = Raise e st1 → bind m k st = Raise e st1.
Proof. intros H. unfold bind. by rewrite H. Qed.

Lemma _get_style_trbl_none st self n kb :
  heap st !! self = Some n → _computed_styles n = None →
  _get_style_trbl self kb st = Raise (AttributeError "get") st.
Proof.
  intros Hn Hs. unfold _get_style_trbl. apply bind_raise.
  unfold _get_style_num.
  rewrite (bind_ok _ _ _ _ _ (get_node_ok _ _ _ Hn)). by rewrite Hs.
Qed.

Lemma position_places st self n left top width height :
  heap st !! self = Some n →
  position self left top width height st
  = (let* margin := _get_style_trbl self "margin" in
     let* padding := _get_style_trbl self "padding" in
     let* border_width := _get_style_num self "border-width" (Fin 0) in
     let '(margin_top, margin_right, margin_bottom, margin_left) := margin in
     let '(padding_top, padding_right, padding_bottom, padding_left) := padding in
     let* ml := as_Z margin_left in
     let* bw := as_Z border_width in
     let* pl := as_Z padding_left in
     let* mt := as_Z margin_top in
     let* pt := as_Z padding_top in
     let* mr := as_Z margin_right in
     let* pr := as_Z padding_right in
     let* mb := as_Z margin_bottom in
     let* pb := as_Z padding_bottom in
     ret tt)
      (with_heap (<[self := placed left top width height n]> (heap st)) st).
Proof.
  intros Hn. unfold position.
  rewrite bind_modify, (alter_Some _ _ _ _ Hn).
  by rewrite !bind_modify, !with_heap_alter_insert.
Qed.

(** X26: [position] stores the box before it reads the style, so the box is
    stored whatever happens next.  Without a computed style the call raises
    [AttributeError]; with one, it returns when the margins, the paddings
    and the border width are numbers or left to their default, and raises
    [TypeError] otherwise. *)
Theorem position_stores_box st self n left top width height :
  heap st !! self = Some n →
  let st' := with_heap (<[self := placed left top width height n]> (heap st)) st in
  position self left top width height st
  = match _computed_styles n with
    | None => Raise (AttributeError "get") st'
    | Some styles =>
        if forallb (numeric styles) box_keys then Ok tt st' else Raise TypeError st'
    end.
Proof.
  intros Hn st'. rewrite (position_places _ _ _ _ _ _ _ Hn). fold st'.
  assert (heap st' !! self = Some (placed left top width height n)) as Hn'
    by apply lookup_insert_eq.
  destruct (_computed_styles n) as [styles|] eqn:Hs.
  - assert (_computed_styles (placed left top width height n) = Some styles)
      as Hs' by done.
    rewrite (bind_ok _ _ _ _ _ (_get_style_trbl_ok st' self _ styles "margin" Hn' Hs')).
    rewrite (bind_ok _ _ _ _ _ (_get_style_trbl_ok st' self _ styles "padding" Hn' Hs')).
    rewrite (bind_ok _ _ _ _ _ (_get_style_num_ok st' self _ styles _ _ Hn' Hs')).
    change ("margin" +:+ "-top") with "margin-top".
    change ("margin" +:+ "-right") with "margin-right".
    change ("margin" +:+ "-bottom") with "margin-bottom".
    change ("margin" +:+ "-left") with "margin-left".
    change ("padding" +:+ "-top") with "padding-top".
    change ("padding" +:+ "-right") with "padding-right".
    change ("padding" +:+ "-bottom") with "padding-bottom".
    change ("padding" +:+ "-left") with "padding-left".
    cbv beta iota.
    destruct (forallb (numeric styles) box_keys) eqn:Hall.
    + rewrite forallb_forall in Hall.
      assert (∀ k, k ∈ box_keys → ∃ z, style_num styles k (Fin 0) = SNum (Fin z))
        as Hnum.
      { intros k Hk. apply list_elem_of_In, Hall in Hk. unfold numeric in Hk.
        destruct (style_num styles k (Fin 0)) as [[z|]|]; [by exists z|done..]. }
      repeat match goal with
      | |- context [as_Z (style_num styles ?k (Fin 0))] =>
          let z := fresh "z" in
          let E := fresh "E" in
          destruct (Hnum k) as [z E];
            [unfold box_keys;
             repeat first [apply list_elem_of_here|apply list_elem_of_further]
            |rewrite E; clear E]
      end.
      reflexivity.
    + repeat match goal with
      | |- context [as_Z (style_num styles ?k (Fin 0))] =>
          let E := fresh "E" in
          destruct (style_num styles k (Fin 0)) as [[?|]|?] eqn:E;
            [|reflexivity..]
      end.
      exfalso. unfold box_keys, numeric in Hall. cbn [forallb] in Hall.
      repeat match goal with
      | E : style_num styles _ (Fin 0) = _ |- _ => rewrite E in Hall; clear E
      end.
      discriminate Hall.
  - apply bind_raise. by apply (_get_style_trbl_none st' self _ "margin" Hn').
Qed.

Lemma position_stores_box_witness :
  position 0 10 90 20 20 boxed_state
  = Ok tt (with_heap
             (<[0 := placed 10 90 20 20
                       (default (new_node "" (Sheet [])) (heap boxed_state !! 0))]>
                (heap boxed_state)) boxed_state).
Proof.
  rewrite (position_stores_box boxed_state 0
             (default (new_node "" (Sheet [])) (heap boxed_state !! 0)) 10 90 20 20).
  - vm_compute. reflexivity.
  - vm_compute. reflexivity.
Defined.

(** *** The selector of an object, read back *)

Lemma splitsel_loop_plain w : ∀ rest p v m,
  plain w = true →
  splitsel_loop (w +:+ rest) p v m = splitsel_loop rest p (v +:+ w) m.
Proof.
  induction w as [|c w IH]; intros rest p v m Hw.
  { by rewrite append_nil_r. }
  cbn [plain] in Hw. destruct (transition c) eqn:Hc; [done|].
  rewrite append_cons. cbn [splitsel_loop]. rewrite Hc.
  rewrite (IH _ _ _ _ Hw). by rewrite append_assoc.
Qed.

Lemma splitsel_loop_part ch m' w rest p v m :
  transition ch = Some m' → plain w = true →
  splitsel_loop (String ch w +:+ rest) p v m
  = splitsel_loop rest (sel_store p m v) w m'.
Proof.
  intros Hch Hw. rewrite append_cons. cbn [splitsel_loop]. rewrite Hch.
  by rewrite (splitsel_loop_plain w rest _ "" m' Hw).
Qed.

Lemma splitsel_loop_classes cs : ∀ rest p v m,
  Forall (fun c => plain c = true) cs →
  ∃ p' v' m',
    splitsel_loop (join_prefixed "." cs +:+ rest) p v m = splitsel_loop rest p' v' m'
    ∧ sel_store p' m' v'
      = SelParts (sp_type (sel_store p m v)) (sp_class (sel_store p m v) ++ cs)
                 (sp_id (sel_store p m v)) (sp_pseudo (sel_store p m v)).
Proof.
  induction cs as [|c cs IH]; intros rest p v m Hall.
  { exists p, v, m. split; [done|]. rewrite app_nil_r. by destruct (sel_store p m v). }
  apply Forall_cons in Hall as [Hc Hall].
  change (join_prefixed "." (c :: cs)) with (String "."%char (c +:+ join_prefixed "." cs)).
  rewrite append_cons, append_assoc, <- append_cons.
  rewrite (splitsel_loop_part "."%char MClass c _ p v m eq_refl Hc).
  destruct (IH rest (sel_store p m v) c MClass Hall) as (p' & v' & m' & Hrun & Hst).
  exists p', v', m'. split; [done|]. rewrite Hst. cbn [sel_store sp_type sp_class sp_id sp_pseudo].
  by rewrite <- app_assoc.
Qed.

Lemma splitsel_loop_pseudos ps : ∀ rest p v m,
  Forall (fun c => plain c = true) ps →
  ∃ p' v' m',
    splitsel_loop (join_prefixed ":" ps +:+ rest) p v m = splitsel_loop rest p' v' m'
    ∧ sel_store p' m' v'
      = SelParts (sp_type (sel_store p m v)) (sp_class (sel_store p m v))
                 (sp_id (sel_store p m v)) (sp_pseudo (sel_store p m v) ++ ps).
Proof.
  induction ps as [|c ps IH]; intros rest p v m Hall.
  { exists p, v, m. split; [done|]. rewrite app_nil_r. by destruct (sel_store p m v). }
  apply Forall_cons in Hall as [Hc Hall].
  change (join_prefixed ":" (c :: ps)) with (String ":"%char (c +:+ join_prefixed ":" ps)).
  rewrite append_cons, append_assoc, <- append_cons.
  rewrite (splitsel_loop_part ":"%char MPseudo c _ p v m eq_refl Hc).
  destruct (IH rest (sel_store p m v) c MPseudo Hall) as (p' & v' & m' & Hrun & Hst).
  exists p', v', m'. split; [done|]. rewrite Hst. cbn [sel_store sp_type sp_class sp_id sp_pseudo].
  by rewrite <- app_assoc.
Qed.

Lemma splitsel_own_selector n :
  plain_names n →
  splitsel (own_selector n)
  = SelParts (selector_type n) (elements (_classes n)) (id_text (_id n))
             (elements (_pseudoclasses n)).
Proof.
  intros (Ht & Hi & Hc & Hp).
  assert (Forall (fun c => plain c = true) (elements (_classes n))) as Hcs.
  { apply Forall_forall. intros c Hin. apply Hc. by apply elem_of_elements. }
  assert (Forall (fun c => plain c = true) (elements (_pseudoclasses n))) as Hps.
  { apply Forall_forall. intros c Hin. apply Hp. by apply elem_of_elements. }
  unfold splitsel, own_selector.
  rewrite (splitsel_loop_plain (selector_type n) _ _ "" MType Ht).
  change ("" +:+ selector_type n) with (selector_type n).
  set (p0 := SelParts "" [] "" []).
  assert (∃ p1 v1 m1,
            ∀ rest, splitsel_loop (sel_id (_id n) +:+ rest) p0 (selector_type n) MType
                    = splitsel_loop rest p1 v1 m1
            ∧ sel_store p1 m1 v1 = SelParts (selector_type n) [] (id_text (_id n)) [])
    as (p1 & v1 & m1 & H1).
  { destruct (_id n) as [|s|] eqn:Hid; cbn [sel_id id_text] in *.
    - exists p0, (selector_type n), MType. intros rest. by split.
    - case_bool_decide as Hs.
      + subst s. exists p0, (selector_type n), MType. intros rest. by split.
      + exists (sel_store p0 MType (selector_type n)), s, MId. intros rest.
        change ("#" +:+ s) with (String "#"%char s).
        by rewrite (splitsel_loop_part "#"%char MId s rest _ _ _ eq_refl Hi).
    - exists (sel_store p0 MType (selector_type n)), "<built-in function id>", MId.
      intros rest. split; [|done].
      change "#<built-in function id>" with (String "#"%char "<built-in function id>").
      by rewrite (splitsel_loop_part "#"%char MId _ rest _ _ _ eq_refl Hi). }
  destruct (H1 (join_prefixed "." (elements (_classes n))
                +:+ join_prefixed ":" (elements (_pseudoclasses n)))) as [-> Hst1].
  destruct (splitsel_loop_classes (elements (_classes n))
              (join_prefixed ":" (elements (_pseudoclasses n))) p1 v1 m1 Hcs)
    as (p2 & v2 & m2 & -> & Hst2).
  rewrite Hst1 in Hst2. cbn [sp_type sp_class sp_id sp_pseudo app] in Hst2.
  rewrite <- (append_nil_r (join_prefixed ":" _)).
  destruct (splitsel_loop_pseudos (elements (_pseudoclasses n)) "" p2 v2 m2 Hps)
    as (p3 & v3 & m3 & -> & Hst3).
  rewrite Hst2 in Hst3. cbn [sp_type sp_class sp_id sp_pseudo app] in Hst3.
  exact Hst3.
Qed.

(** X27: [splitsel] reads back what [_compute_style] writes.  For an object
    whose type, id, classes and pseudoclasses are names without [.], [:]
    and [#], splitting the last entry of its selector chain gives its type,
    its classes, the text of its id and its pseudoclasses. *)
Theorem splitsel_reads_own_selector n :
  plain_names n →
  sp_type (splitsel (own_selector n)) = selector_type n
  ∧ sp_id (splitsel (own_selector n)) = id_text (_id n)
  ∧ sp_class (splitsel (own_selector n)) = elements (_classes n)
  ∧ sp_pseudo (splitsel (own_selector n)) = elements (_pseudoclasses n).
Proof. intros Hn. by rewrite (splitsel_own_selector n Hn). Qed.

Lemma splitsel_reads_own_selector_witness :
  let n := put_pseudoclasses {["hover"]}
             (put_classes {["note"; "wide"]}
                (put_id IdBuiltin (new_node "button" (Sheet [])))) in
  sp_type (splitsel (own_selector n)) = "button"
  ∧ sp_id (splitsel (own_selector n)) = "<built-in function id>"
  ∧ sp_class (splitsel (own_selector n)) = elements (_classes n)
  ∧ sp_pseudo (splitsel (own_selector n)) = elements (_pseudoclasses n).
Proof.
  intros n. apply (splitsel_reads_own_selector n).
  split; [reflexivity|]. split; [reflexivity|]. split.
  - intros c Hc. apply elem_of_union in Hc as [Hc|Hc];
      apply elem_of_singleton in Hc as ->; reflexivity.
  - intros c Hc. change (c ∈ ({["hover"]} : gset string)) in Hc.
    apply elem_of_singleton in Hc as ->. reflexivity.
Defined.

Lemma forallb_elements (S : gset string) l :
  forallb (fun c => bool_decide (c ∈ elements S)) l
  = forallb (fun c => bool_decide (c ∈ S)) l.
Proof.
  induction l as [|x l IH]; [done|]. cbn [forallb]. rewrite IH. f_equal.
  apply bool_decide_ext. apply elem_of_elements.
Qed.

(** X28: an element of a rule matches the selector of an object by the
    object's attributes: the type is [*] or the object's type, the id is
    empty or the text of the object's id, and every class and pseudoclass
    of the element is one of the object's. *)
Theorem elem_match_by_attributes n b :
  plain_names n →
  elem_match (own_selector n) b = matches_node (splitsel b) n.
Proof.
  intros Hn. unfold elem_match, matches_node. cbv zeta.
  rewrite (splitsel_own_selector n Hn). cbn [sp_type sp_class sp_id sp_pseudo].
  by rewrite !forallb_elements.
Qed.

Lemma elem_match_by_attributes_witness :
  let n := put_classes {["note"; "wide"]} (new_node "p" (Sheet [])) in
  elem_match (own_selector n) "p.note" = matches_node (splitsel "p.note") n.
Proof.
  intros n. apply (elem_match_by_attributes n "p.note").
  split; [reflexivity|]. split; [reflexivity|]. split.
  - intros c Hc. apply elem_of_union in Hc as [Hc|Hc];
      apply elem_of_singleton in Hc as ->; reflexivity.
  - intros c Hc. change (c ∈ (∅ : gset string)) in Hc.
    by apply not_elem_of_empty in Hc.
Defined.

(** X29: what a resolved style holds.  No key of a style [compute_style]
    returns is one of the shorthand properties [margin], [padding],
    [border], [border-color], [background], [width] and [height], and no
    value is the literal [initial].  So [_get_style_num] of [width] and of
    [height], as [layout] calls it, gives the default passed to it: the
    cascade stores these two under their [min-] and [max-] keys alone. *)
Theorem computed_style_keys self selector initial_styling override_styling :
  let styles := compute_style self selector initial_styling override_styling in
  (∀ k v, styles !! k = Some v → shorthand k = false ∧ is_initial v = false)
  ∧ (∀ d, style_num styles "width" d = SNum d
          ∧ style_num styles "height" d = SNum d).
Proof.
  intros styles. subst styles. split.
  - intros k v. rewrite compute_style_lookup. intros Hk. split.
    + destruct (shorthand k) eqn:Hs; [|done].
      by rewrite !(StylingFacts.last_assignment_shorthand k) in Hk.
    + destruct (keep (last_assignment k (full_decls _ _ _))) as [w|] eqn:Hfull.
      * injection Hk as <-. by apply StylingFacts.keep_Some in Hfull as [_ ?].
      * by apply StylingFacts.keep_Some in Hk as [_ ?].
  - intros d. unfold style_num. rewrite !compute_style_lookup.
    rewrite !(StylingFacts.last_assignment_shorthand "width") by done.
    by rewrite !(StylingFacts.last_assignment_shorthand "height").
Qed.

(** *** [clean] of an object on its own *)

Lemma bind_ret {A B} (x : A) (k : A → M B) st : bind (ret x) k st = k x st.
Proof. done. Qed.

Lemma bind_get_stylesheet {B} (k : option UI_Styling → M B) st :
  bind get_stylesheet k st = k (stylesheet st) st.
Proof. done. Qed.

Lemma bind_modify_insert {B} a f (k : unit → M B) n h st :
  bind (modify a f) k (with_heap (<[a := n]> h) st)
  = k tt (with_heap (<[a := f n]> h) st).
Proof. by rewrite bind_modify, with_heap_alter_insert. Qed.

Lemma defer_on fuel self n h st :
  defer_dirty_propagation_setter fuel self true (with_heap (<[self := n]> h) st)
  = Ok tt (with_heap (<[self := put_defer true n]> h) st).
Proof.
  unfold defer_dirty_propagation_setter. rewrite bind_modify_insert.
  apply (propagate_with_deferring _ _ _ (put_defer true n));
    [apply lookup_insert_eq|done].
Qed.

Lemma defer_off_leaf fuel self n h st :
  _parent n = None → _children n = [] →
  defer_dirty_propagation_setter fuel self false (with_heap (<[self := n]> h) st)
  = Ok tt (with_heap
             (<[self := put_propagation_children ∅
                          (put_propagation_parent ∅ (put_defer false n))]> h) st).
Proof.
  intros Hp Hc. unfold defer_dirty_propagation_setter, propagate_dirtiness.
  rewrite bind_modify_insert.
  set (n1 := put_defer false n).
  rewrite (propagate_with_running _ _ _ n1 (lookup_insert_eq _ _ _) eq_refl).
  assert (propagate_to_parent (dirty fuel) self (with_heap (<[self := n1]> h) st)
          = Ok tt (with_heap (<[self := put_propagation_parent ∅ n1]> h) st)) as H1.
  { destruct (decide (parent (_dirty_propagation n1) = ∅)) as [He|Hne].
    - rewrite (put_propagation_parent_id n1 He).
      by apply (to_parent_skip _ _ _ n1 (lookup_insert_eq _ _ _)).
    - rewrite (to_parent_root _ _ _ n1 (lookup_insert_eq _ _ _) Hne Hp).
      by rewrite with_heap_alter_insert. }
  rewrite (bind_ok _ _ _ _ _ H1).
  set (n2 := put_propagation_parent ∅ n1).
  destruct (decide (children (_dirty_propagation n2) = ∅)) as [He|Hne].
  - rewrite (put_propagation_children_id n2 He).
    by apply (to_children_skip _ _ _ n2 (lookup_insert_eq _ _ _)).
  - rewrite (to_children_run _ _ _ n2 (with_heap (<[self := n2]> h) st)
               (lookup_insert_eq _ _ _) Hne).
    + by rewrite with_heap_alter_insert.
    + assert (_children n2 = []) as -> by done. done.
Qed.

Lemma _compute_style_leaf f self n h st :
  _parent n = None → _children n = [] → _defer_clean n = false →
  "style" ∈ _dirty_properties n →
  _compute_style (S (S f)) self (with_heap (<[self := n]> h) st)
  = Ok tt (with_heap (<[self := restyled (stylesheet st) n]> h) st).
Proof.
  intros Hp Hc Hdc Hstyle. cbn [_compute_style].
  rewrite bind_get_node_insert, Hdc, bool_decide_eq_true_2 by done. cbn [negb].
  rewrite (bind_ok _ _ _ _ _ (defer_on _ _ _ _ _)).
  rewrite bind_get_node_insert.
  assert (_parent (put_defer true n) = None) as -> by done.
  rewrite bind_ret. rewrite bind_modify_insert, bind_get_stylesheet.
  rewrite !bind_modify_insert.
  assert (_children (put_defer true n) = []) as -> by done.
  cbn [for_each]. rewrite bind_ret.
  erewrite bind_ok; [|by apply deferring_dirty].
  rewrite bind_modify_insert.
  by rewrite defer_off_leaf.
Qed.

Lemma _compute_content_leaf f self m h st :
  _parent m = None → _children m = [] → _defer_clean m = false →
  _compute_content (S (S f)) self (with_heap (<[self := m]> h) st)
  = Ok tt (with_heap
             (<[self := if bool_decide ("content" ∈ _dirty_properties m) && _is_visible m
                        then put_dirty_propagation (Propagation false ∅ ∅)
                               (put_dirty_properties
                                  ((_dirty_properties m ∪ {["size"]}) ∖ {["content"]}) m)
                        else m]> h) st).
Proof.
  intros Hp Hc Hdc. cbn [_compute_content].
  rewrite bind_get_node_insert, Hdc.
  case_bool_decide as Hcontent; cbn [negb andb]; [|done].
  destruct (_is_visible m) eqn:Hvis; cbn [negb]; [|done].
  rewrite (bind_ok _ _ _ _ _ (defer_on _ _ _ _ _)).
  rewrite Hc. cbn [for_each]. rewrite bind_ret.
  erewrite bind_ok; [|by apply deferring_dirty].
  rewrite bind_modify_insert.
  by rewrite defer_off_leaf.
Qed.

Lemma _compute_preferred_size_leaf f self m h st :
  _parent m = None → _children m = [] → _defer_clean m = false →
  _compute_preferred_size (S (S f)) self (with_heap (<[self := m]> h) st)
  = Ok tt (with_heap
             (<[self := if bool_decide ("size" ∈ _dirty_properties m) && _is_visible m
                        then put_dirty_propagation (Propagation false ∅ ∅)
                               (put_content_height (Fin 0) (put_content_width (Fin 0) m))
                        else m]> h) st).
Proof.
  intros Hp Hc Hdc. cbn [_compute_preferred_size].
  rewrite bind_get_node_insert, Hdc.
  case_bool_decide as Hsize; cbn [negb andb]; [|done].
  destruct (_is_visible m) eqn:Hvis; cbn [negb]; [|done].
  rewrite (bind_ok _ _ _ _ _ (defer_on _ _ _ _ _)).
  rewrite !bind_modify_insert.
  rewrite Hc. cbn [for_each]. rewrite bind_ret.
  by rewrite defer_off_leaf.
Qed.

(** X30: [clean] of an object without parent and without children whose
    [style] flag is set.  The call returns.  The selector chain is the
    object's own element; the computed style is the cascade for it, with
    the class default as the stylesheet, the loaded stylesheet as the base
    and the inline style as the override; the object is visible unless
    [display] is [none].  [style] is clean and [size] is dirty; if the
    object is visible [content] is clean and the content size is 0 by 0;
    deferral is off and nothing is pending.  No other object changes. *)
Theorem clean_of_single_object f st self n :
  heap st !! self = Some n →
  _parent n = None → _children n = [] → _defer_clean n = false →
  "style" ∈ _dirty_properties n →
  clean (S (S f)) self st
  = Ok tt (with_heap (<[self := cleaned (stylesheet st) n]> (heap st)) st).
Proof.
  intros Hn Hp Hc Hdc Hstyle.
  rewrite <- (with_heap_id st) at 1. rewrite <- (insert_id _ _ _ Hn) at 1.
  unfold clean. rewrite bind_get_node_insert, Hdc.
  assert (is_dirty n = true) as ->.
  { unfold is_dirty, is_empty.
    rewrite (bool_decide_eq_false_2 (_dirty_properties n = ∅)); [done|].
    intros He. rewrite He in Hstyle. by apply not_elem_of_empty in Hstyle. }
  cbn [negb orb].
  rewrite (bind_ok _ _ _ _ _ (_compute_style_leaf f self n _ st Hp Hc Hdc Hstyle)).
  set (n1 := restyled (stylesheet st) n).
  rewrite (bind_ok _ _ _ _ _ (_compute_content_leaf f self n1 _ st Hp Hc Hdc)).
  set (n2 := if _ && _ then _ else n1).
  assert (_parent n2 = None ∧ _children n2 = [] ∧ _defer_clean n2 = false)
    as (Hp2 & Hc2 & Hdc2).
  { subst n2. by destruct (_ && _). }
  rewrite (_compute_preferred_size_leaf f self n2 _ st Hp2 Hc2 Hdc2).
  do 3 f_equal.
  assert ("size" ∈ _dirty_properties n1) as Hsize1.
  { subst n1. cbn. apply elem_of_difference. split; [set_solver|].
    intros Hx. by apply elem_of_singleton in Hx. }
  unfold cleaned. fold n1. subst n2.
  destruct (_is_visible n1) eqn:Hvis; rewrite ?andb_true_r, ?andb_false_r.
  - case_bool_decide as Hcontent.
    + assert ((_dirty_properties n1 ∪ {["size"]}) ∖ {["content"]}
              = _dirty_properties n1 ∖ {["content"]}) as -> by set_solver.
      rewrite bool_decide_eq_true_2.
      * change (_is_visible (put_dirty_propagation _ (put_dirty_properties _ n1)))
          with (_is_visible n1). by rewrite Hvis.
      * change (_dirty_properties (put_dirty_propagation _ (put_dirty_properties ?X _)))
          with X.
        apply elem_of_difference. split; [done|].
        intros Hx. by apply elem_of_singleton in Hx.
    + rewrite bool_decide_eq_true_2 by done. rewrite Hvis. cbn [andb].
      assert (_dirty_properties n1 ∖ {["content"]} = _dirty_properties n1) as ->
        by set_solver.
      reflexivity.
  - by rewrite Hvis, !andb_false_r.
Qed.

Lemma clean_of_single_object_witness :
  let st := final_state (__init__ sample_parser 8 "button" empty_default None None None
                           (Some "margin:5") initial_state) in
  clean 8 0 st
  = Ok tt (with_heap
             (<[0 := cleaned (stylesheet st)
                       (default (new_node "" (Sheet [])) (heap st !! 0))]> (heap st)) st).
Proof.
  intros st.
  apply (clean_of_single_object 6 st 0 (default (new_node "" (Sheet [])) (heap st !! 0))).
  - vm_compute. reflexivity.
  - vm_compute. reflexivity.
  - vm_compute. reflexivity.
  - vm_compute. reflexivity.
  - apply (bool_decide_eq_true_1
             ("style" ∈ _dirty_properties (default (new_node "" (Sheet [])) (heap st !! 0)))).
    vm_compute. reflexivity.
Defined.

End CoreFacts.
